(** * py-regex-parser: regular expressions to NFA to DFA

    A shallow embedding of [main.py]: the finite-automaton classes
    ([Transition], [FiniteAutomaton], [NFA], [DFA]), the fragment algebra of
    [NFA] ([from_char], [concat], [disjunct], [zero_or_more]), the subset
    construction [NFA.to_dfa], the rewindable cursor [RegexString] and the
    recursive-descent parser ([RegChar] ... [RegDisj]).

    Conventions of the embedding.
    - Python [int] is [Z]; Python [str] is [string], each [ascii] being the
      code point of one character (so the sources modelled are the Latin-1
      ones); the label [''] of an epsilon transition is the empty string.
    - Objects mutated in place become values passed through: a method that
      mutates [self] returns the new [self].  The two operands of [concat]
      and of [disjunct] are distinct objects, as they are in every call of
      the source ([to_nfa] builds each operand afresh, and copies the child
      for [+]).
    - A call either returns, raises, or (for the functions with a loop whose
      bound is not syntactic) runs out of the fuel it was given: [outcome].
    - "No match" is the Python value [False]: [None] of an [option]. *)

From Stdlib Require Import List ZArith String Ascii Bool Lia Permutation Arith.
Import ListNotations.

Open Scope string_scope.
Open Scope list_scope.
Open Scope Z_scope.

(** ** Outcomes of a call *)

(** The exceptions the program can raise.  The messages of the built-in
    ones ([max] of an empty sequence, [list.index] of an absent value) are
    indicative; the parser's are the source's. *)
Inductive exn : Type :=
| ValueError (msg : string)
| IndexError
| AttributeError.

Inductive outcome (A : Type) : Type :=
| Returns (a : A)
| Raises (e : exn)
| OutOfFuel.

Arguments Returns {A} a.
Arguments Raises {A} e.
Arguments OutOfFuel {A}.

Definition bind {A B : Type} (m : outcome A) (k : A -> outcome B) : outcome B :=
  match m with
  | Returns a => k a
  | Raises e => Raises e
  | OutOfFuel => OutOfFuel
  end.

Notation "x <- m ;; k" := (bind m (fun x => k))
  (at level 61, m at next level, right associativity).

(** ** Finite automata *)

(** [class Transition]: [Transition(on, source, dest)]. *)
Record Transition : Type := mkTransition {
  on : string;
  source : Z;
  dest : Z
}.

(** [class FiniteAutomaton] with its two subclasses: an [NFA] has one accept
    state ([term] is an [int]), a [DFA] a list of them. *)
Record FiniteAutomaton (T : Type) : Type := mkFA {
  transitions : list Transition;
  start : Z;
  term : T
}.

Arguments mkFA {T} transitions start term.
Arguments transitions {T} f.
Arguments start {T} f.
Arguments term {T} f.

Definition NFA : Type := FiniteAutomaton Z.
Definition DFA : Type := FiniteAutomaton (list Z).

(** [max(xs)] and [min(xs)] of a sequence of integers; both raise on the
    empty sequence. *)
Definition py_max (xs : list Z) : outcome Z :=
  match xs with
  | [] => Raises (ValueError "max() arg is an empty sequence")
  | x :: xs' => Returns (fold_left Z.max xs' x)
  end.

Definition py_min (xs : list Z) : outcome Z :=
  match xs with
  | [] => Raises (ValueError "min() arg is an empty sequence")
  | x :: xs' => Returns (fold_left Z.min xs' x)
  end.

(** [FiniteAutomaton.max_node] and [min_node]: over the transitions only. *)
Definition max_node {T : Type} (self : FiniteAutomaton T) : outcome Z :=
  py_max (map (fun t => Z.max (source t) (dest t)) (transitions self)).

Definition min_node {T : Type} (self : FiniteAutomaton T) : outcome Z :=
  py_min (map (fun t => Z.min (source t) (dest t)) (transitions self)).

(** ** The fragment algebra of [NFA] *)

(** [NFA.add_offset]. *)
Definition add_offset (self : NFA) (offset : Z) : NFA :=
  mkFA
    (map (fun t => mkTransition (on t) (source t + offset) (dest t + offset))
         (transitions self))
    (start self + offset)
    (term self + offset).

(** [NFA.replace_node]: the endpoints of the transitions only; [start] and
    [term] are left as they are. *)
Definition replace_node (self : NFA) (orig new : Z) : NFA :=
  mkFA
    (map (fun t => mkTransition (on t)
                     (if source t =? orig then new else source t)
                     (if dest t =? orig then new else dest t))
         (transitions self))
    (start self)
    (term self).

(** [NFA.prepend_new_start]. *)
Definition prepend_new_start (self : NFA) : outcome NFA :=
  new_start <- min_node self ;;
  let self1 := add_offset self 1 in
  Returns (mkFA (transitions self1 ++ [mkTransition "" new_start (start self1)])
                new_start
                (term self1)).

(** [NFA.append_new_term]. *)
Definition append_new_term (self : NFA) : outcome NFA :=
  m <- max_node self ;;
  let new_term := m + 1 in
  let old_term := term self in
  Returns (mkFA (transitions self ++ [mkTransition "" old_term new_term])
                (start self)
                new_term).

(** [NFA.from_char]. *)
Definition from_char (char : string) : NFA :=
  mkFA [mkTransition char 0 1] 0 1.

(** [NFA.concat]: note that the node replaced in [right] is [self.start]. *)
Definition concat (self right : NFA) : outcome NFA :=
  m <- max_node self ;;
  let offset := if negb (m =? term self) then m + 1 else m in
  let right1 := add_offset right offset in
  let right2 := replace_node right1 (start self) offset in
  let self1 := replace_node self (term self) offset in
  Returns (mkFA (transitions self1 ++ transitions right2)
                (start self1)
                (term right2)).

(** [NFA.disjunct]. *)
Definition disjunct (self disjunct : NFA) : outcome NFA :=
  self1 <- prepend_new_start self ;;
  let new_start := start self1 in
  self2 <- append_new_term self1 ;;
  let new_term := term self2 in
  let offset := new_term + 1 in
  let disjunct1 := add_offset disjunct offset in
  Returns (mkFA (((transitions self2
                     ++ [mkTransition "" new_start (start disjunct1)])
                     ++ [mkTransition "" (term disjunct1) new_term])
                     ++ transitions disjunct1)
                (start self2)
                (term self2)).

(** [NFA.zero_or_more]. *)
Definition zero_or_more (self : NFA) : outcome NFA :=
  let self1 :=
    mkFA ((transitions self ++ [mkTransition "" (start self) (term self)])
            ++ [mkTransition "" (term self) (start self)])
         (start self) (term self) in
  append_new_term self1.
(** ** Subset construction *)

(** [sorted(xs)]: insertion into an ascending list.  For a total order whose
    equivalent elements are equal (integers, strings) the result of a sort
    does not depend on the algorithm. *)
Fixpoint insert_by {A : Type} (leb : A -> A -> bool) (x : A) (l : list A)
  : list A :=
  match l with
  | [] => [x]
  | y :: l' => if leb x y then x :: l else y :: insert_by leb x l'
  end.

Definition sorted_by {A : Type} (leb : A -> A -> bool) (l : list A) : list A :=
  fold_right (insert_by leb) [] l.

Definition sorted (l : list Z) : list Z := sorted_by Z.leb l.

(** [x in nodes] for a tuple, list or set of integers. *)
Definition contains (nodes : list Z) (x : Z) : bool :=
  existsb (Z.eqb x) nodes.

(** Equality of two lists of integers, as [==] on Python lists. *)
Fixpoint eqb_list (l1 l2 : list Z) : bool :=
  match l1, l2 with
  | [], [] => true
  | x :: l1', y :: l2' => (x =? y) && eqb_list l1' l2'
  | _, _ => false
  end.

(** [state in new_states]. *)
Definition registered (new_states : list (list Z)) (state : list Z) : bool :=
  existsb (eqb_list state) new_states.

(** [new_states.index(state)]: the first position, or [ValueError]. *)
Fixpoint position (new_states : list (list Z)) (state : list Z) : option nat :=
  match new_states with
  | [] => None
  | s :: rest =>
      if eqb_list s state then Some O
      else option_map S (position rest state)
  end.

Definition index (new_states : list (list Z)) (state : list Z) : outcome Z :=
  match position new_states state with
  | Some i => Returns (Z.of_nat i)
  | None => Raises (ValueError "x is not in list")
  end.

(** The iteration order of a Python [set] is not part of the language: it
    is whatever the hash table gives.  [epsilon_closure] extends a list with
    the elements of [set(a) - set(b)], so the order shows in its result.
    The construction is therefore stated over any order: [set_difference a b]
    enumerates, without repetition and in some order that is a function of
    the operands, the elements of [a] that are not in [b]. *)
Class SetOrder : Type := {
  set_difference : list Z -> list Z -> list Z;
  set_difference_NoDup : forall a b, NoDup (set_difference a b);
  set_difference_In :
    forall a b x, In x (set_difference a b) <-> In x a /\ ~ In x b
}.

(** The state of [to_dfa]'s loop: the registry [new_states] of the subsets
    found so far (a subset's DFA state is its position there), the DFA
    transitions and accept states recorded so far, and the work list.
    [queue] is kept top first: [queue.append(x)] is [x :: queue] and
    [queue.pop()] takes the head. *)
Record Build : Type := mkBuild {
  new_states : list (list Z);
  new_transitions : list Transition;
  new_term_states : list Z;
  queue : list (list Z)
}.

Section SubsetConstruction.

Context {order : SetOrder}.

Variable self : NFA.

(** [NFA.move_on]. *)
Definition move_on (nodes : list Z) (on_ : string) : list Z :=
  sorted
    (map dest
       (filter (fun t => String.eqb (on t) on_ && contains nodes (source t))
          (transitions self))).

(** [NFA.get_moves_for_nodes]: the labels leaving [nodes], as a sorted list
    without repetition ([sorted(list({...}))]). *)
Definition get_moves_for_nodes (nodes : list Z) : list string :=
  sorted_by String.leb
    (nodup string_dec
       (map on (filter (fun t => contains nodes (source t)) (transitions self)))).

(** The [while new_eps:] loop of [NFA.epsilon_closure]. *)
Fixpoint epsilon_closure_loop (fuel : nat) (fixed_point new_eps : list Z)
  : outcome (list Z) :=
  match new_eps with
  | [] => Returns fixed_point
  | _ :: _ =>
      match fuel with
      | O => OutOfFuel
      | S fuel' =>
          let fixed_point' := fixed_point ++ new_eps in
          epsilon_closure_loop fuel' fixed_point'
            (set_difference (move_on new_eps "") fixed_point')
      end
  end.

(** [NFA.epsilon_closure]. *)
Definition epsilon_closure (fuel : nat) (nodes : list Z) : outcome (list Z) :=
  epsilon_closure_loop fuel nodes (move_on nodes "").

(** One pass of the body of [for current_on in ...] in [to_dfa]. *)
Definition visit (fuel : nat) (current_state : list Z) (b : Build)
    (current_on : string) : outcome Build :=
  if String.eqb current_on "" then Returns b
  else
    possibly_new_state <-
      epsilon_closure fuel (move_on current_state current_on) ;;
    let b1 :=
      if negb (registered (new_states b) possibly_new_state) then
        let new_states' := new_states b ++ [possibly_new_state] in
        mkBuild new_states'
          (new_transitions b)
          (if contains possibly_new_state (term self)
           then new_term_states b ++ [Z.of_nat (List.length new_states') - 1]
           else new_term_states b)
          (possibly_new_state :: queue b)
      else b in
    src <- index (new_states b1) current_state ;;
    dst <- index (new_states b1) possibly_new_state ;;
    Returns (mkBuild (new_states b1)
               (new_transitions b1 ++ [mkTransition current_on src dst])
               (new_term_states b1)
               (queue b1)).

(** The [for] loop over the labels of the current state. *)
Fixpoint visit_all (fuel : nat) (current_state : list Z) (b : Build)
    (labels : list string) : outcome Build :=
  match labels with
  | [] => Returns b
  | current_on :: labels' =>
      b' <- visit fuel current_state b current_on ;;
      visit_all fuel current_state b' labels'
  end.

(** The [while queue:] loop.  [cfuel] is the fuel handed to each
    [epsilon_closure]; [fuel] bounds the number of states popped. *)
Fixpoint to_dfa_loop (cfuel fuel : nat) (b : Build) : outcome Build :=
  match queue b with
  | [] => Returns b
  | current_state :: queue' =>
      match fuel with
      | O => OutOfFuel
      | S fuel' =>
          b' <- visit_all cfuel current_state
                  (mkBuild (new_states b) (new_transitions b)
                     (new_term_states b) queue')
                  (get_moves_for_nodes current_state) ;;
          to_dfa_loop cfuel fuel' b'
      end
  end.

(** [NFA.to_dfa] up to its [return]: the final registry with the recorded
    transitions and accept states. *)
Definition to_dfa_build (fuel : nat) : outcome Build :=
  new_initial_state <- epsilon_closure fuel [start self] ;;
  to_dfa_loop fuel fuel
    (mkBuild [new_initial_state] [] [] [new_initial_state]).

(** [NFA.to_dfa]. *)
Definition to_dfa (fuel : nat) : outcome DFA :=
  b <- to_dfa_build fuel ;;
  Returns (mkFA (new_transitions b) 0 (new_term_states b)).

End SubsetConstruction.

(** ** The input cursor *)

Notation "' pat <- m ;; k" :=
  (bind m (fun x => match x with pat => k end))
  (at level 61, pat pattern, m at next level, right associativity).

(** [class RegexString]: the source [s] and the position [i]. *)
Record RegexString : Type := mkRegexString {
  s : string;
  i : Z
}.

(** [RegexString(s)]. *)
Definition RegexString_init (src : string) : RegexString :=
  mkRegexString src 0.

(** [len(s)]. *)
Definition len (src : string) : Z := Z.of_nat (String.length src).

(** [s[i]]: a negative index counts from the end; out of range raises. *)
Definition getitem (src : string) (idx : Z) : outcome string :=
  let j := if idx <? 0 then idx + len src else idx in
  if (0 <=? j) && (j <? len src) then
    match String.get (Z.to_nat j) src with
    | Some c => Returns (String c "")
    | None => Raises IndexError
    end
  else Raises IndexError.

(** [RegexString.is_eof]. *)
Definition is_eof (buf : RegexString) : bool :=
  i buf =? len (s buf).

(** [RegexString.pop]: the character read and the cursor after. *)
Definition pop (buf : RegexString) : outcome (string * RegexString) :=
  if is_eof buf then Returns ("", buf)
  else
    c <- getitem (s buf) (i buf) ;;
    Returns (c, mkRegexString (s buf) (i buf + 1)).

(** [RegexString.peek]. *)
Definition peek (buf : RegexString) : outcome string :=
  if is_eof buf then Returns ""
  else getitem (s buf) (i buf).

(** [RegexString.pop_if]. *)
Definition pop_if (buf : RegexString) (c : string)
  : outcome (bool * RegexString) :=
  c' <- peek buf ;;
  if String.eqb c' c then
    '(_, buf1) <- pop buf ;;
    Returns (true, buf1)
  else Returns (false, buf).

(** [RegexString.push_back]. *)
Definition push_back (buf : RegexString) : RegexString :=
  mkRegexString (s buf) (i buf - 1).

(** ** The parser *)

(** [str.isalnum] on the code points below 256: the ASCII digits and
    letters, and the Latin-1 letters, superscript digits and fractions. *)
Definition isalnum_char (c : ascii) : bool :=
  let n := nat_of_ascii c in
  (((48 <=? n) && (n <=? 57)) || ((65 <=? n) && (n <=? 90))
   || ((97 <=? n) && (n <=? 122))
   || (n =? 170) || (n =? 178) || (n =? 179) || (n =? 181) || (n =? 185)
   || (n =? 186) || ((188 <=? n) && (n <=? 190))
   || ((192 <=? n) && (n <=? 214)) || ((216 <=? n) && (n <=? 246))
   || ((248 <=? n) && (n <=? 255)))%nat.

Fixpoint all_alnum (str : string) : bool :=
  match str with
  | EmptyString => true
  | String c rest => isalnum_char c && all_alnum rest
  end.

Definition isalnum (str : string) : bool :=
  match str with
  | EmptyString => false
  | String _ _ => all_alnum str
  end.

Set Warnings "-register-all".

(** The objects of the six parser classes.  The [child] of a [RegGroup] and
    of a [RegUnity] is whatever the inner [from_buf] returned, which can be
    [False] ([None]). *)
Inductive Reg : Type :=
| RegChar (child : string)
| RegGroup (child : option Reg)
| RegUnity (child : option Reg)
| RegQuality (child : Reg) (qualifier : string)
| RegConcat (children : list Reg)
| RegDisj (children : list Reg).

(** What a [from_buf] gives back: the object or [False], and the cursor. *)
Definition parsed : Type := outcome (option Reg * RegexString).

(** [RegChar.from_buf]. *)
Definition RegChar_from_buf (buf : RegexString) : parsed :=
  '(c, buf1) <- pop buf ;;
  if isalnum c then Returns (Some (RegChar c), buf1)
  else Returns (None, push_back buf1).

(** [if exps: return cls(exps)] then [return False]. *)
Definition cls_if_any (cls : list Reg -> Reg) (exps : list Reg) : option Reg :=
  match exps with
  | [] => None
  | _ :: _ => Some (cls exps)
  end.

(** The [from_buf] class methods of [RegDisj], [RegConcat], [RegQuality],
    [RegUnity] and [RegGroup], with the two [while exp:] loops.  Every call
    and every turn of a loop takes one unit of fuel. *)
Fixpoint RegDisj_from_buf (fuel : nat) (buf : RegexString) {struct fuel}
  : parsed :=
  match fuel with
  | O => OutOfFuel
  | S fuel' =>
      '(exp, buf1) <- RegConcat_from_buf fuel' buf ;;
      RegDisj_loop fuel' [] exp buf1
  end

with RegDisj_loop (fuel : nat) (exps : list Reg) (exp : option Reg)
    (buf : RegexString) {struct fuel} : parsed :=
  match exp with
  | None => Returns (cls_if_any RegDisj exps, buf)
  | Some e =>
      let exps' := exps ++ [e] in
      c <- peek buf ;;
      if String.eqb c "|" then
        match fuel with
        | O => OutOfFuel
        | S fuel' =>
            '(_, buf1) <- pop buf ;;
            '(exp', buf2) <- RegConcat_from_buf fuel' buf1 ;;
            RegDisj_loop fuel' exps' exp' buf2
        end
      else Returns (cls_if_any RegDisj exps', buf)
  end

with RegConcat_from_buf (fuel : nat) (buf : RegexString) {struct fuel}
  : parsed :=
  match fuel with
  | O => OutOfFuel
  | S fuel' =>
      '(exp, buf1) <- RegQuality_from_buf fuel' buf ;;
      RegConcat_loop fuel' [] exp buf1
  end

with RegConcat_loop (fuel : nat) (exps : list Reg) (exp : option Reg)
    (buf : RegexString) {struct fuel} : parsed :=
  match exp with
  | None => Returns (cls_if_any RegConcat exps, buf)
  | Some e =>
      match fuel with
      | O => OutOfFuel
      | S fuel' =>
          '(exp', buf1) <- RegQuality_from_buf fuel' buf ;;
          RegConcat_loop fuel' (exps ++ [e]) exp' buf1
      end
  end

with RegQuality_from_buf (fuel : nat) (buf : RegexString) {struct fuel}
  : parsed :=
  match fuel with
  | O => OutOfFuel
  | S fuel' =>
      '(exp, buf1) <- RegUnity_from_buf fuel' buf ;;
      match exp with
      | None => Returns (None, buf1)
      | Some e =>
          c <- peek buf1 ;;
          if String.eqb c "*" || String.eqb c "+" then
            '(qualifier, buf2) <- pop buf1 ;;
            Returns (Some (RegQuality e qualifier), buf2)
          else Returns (Some (RegQuality e ""), buf1)
      end
  end

with RegUnity_from_buf (fuel : nat) (buf : RegexString) {struct fuel}
  : parsed :=
  match fuel with
  | O => OutOfFuel
  | S fuel' =>
      c <- peek buf ;;
      if String.eqb c "(" then
        '(g, buf1) <- RegGroup_from_buf fuel' buf ;;
        Returns (Some (RegUnity g), buf1)
      else
        '(c', buf1) <- RegChar_from_buf buf ;;
        match c' with
        | Some _ => Returns (Some (RegUnity c'), buf1)
        | None => Returns (None, buf1)
        end
  end

with RegGroup_from_buf (fuel : nat) (buf : RegexString) {struct fuel}
  : parsed :=
  match fuel with
  | O => OutOfFuel
  | S fuel' =>
      '(c, buf1) <- pop buf ;;
      if String.eqb c "(" then
        '(exp, buf2) <- RegDisj_from_buf fuel' buf1 ;;
        '(c', buf3) <- pop buf2 ;;
        if negb (String.eqb c' ")") then
          Raises (ValueError "no closing ) for group")
        else Returns (Some (RegGroup exp), buf3)
      else Returns (None, push_back buf1)
  end.

(** [RegexString.parse]. *)
Definition parse (fuel : nat) (buf : RegexString) : parsed :=
  RegDisj_from_buf fuel buf.

(** ** From the parsed expression to the NFA *)

(** The [to_nfa] methods.  [copy()] is a deep copy: on values, nothing. *)
Fixpoint to_nfa (r : Reg) : outcome NFA :=
  match r with
  | RegChar child => Returns (from_char child)
  | RegGroup child | RegUnity child =>
      match child with
      | Some e => to_nfa e
      | None => Raises AttributeError
      end
  | RegQuality child qualifier =>
      child_nfa <- to_nfa child ;;
      if String.eqb qualifier "" then Returns child_nfa
      else if String.eqb qualifier "*" then zero_or_more child_nfa
      else if String.eqb qualifier "+" then
        rep_nfa <- zero_or_more child_nfa ;;
        concat child_nfa rep_nfa
      else Raises (ValueError "Unknown qualifier")
  | RegConcat children =>
      match children with
      | [] => Raises IndexError
      | first :: rest =>
          nfa <- to_nfa first ;;
          (fix each (rest : list Reg) (nfa : NFA) {struct rest} : outcome NFA :=
             match rest with
             | [] => Returns nfa
             | child :: rest' =>
                 right <- to_nfa child ;;
                 nfa' <- concat nfa right ;;
                 each rest' nfa'
             end) rest nfa
      end
  | RegDisj children =>
      match children with
      | [] => Raises IndexError
      | first :: rest =>
          nfa <- to_nfa first ;;
          (fix each (rest : list Reg) (nfa : NFA) {struct rest} : outcome NFA :=
             match rest with
             | [] => Returns nfa
             | child :: rest' =>
                 right <- to_nfa child ;;
                 nfa' <- disjunct nfa right ;;
                 each rest' nfa'
             end) rest nfa
      end
  end.


(** ** Further methods *)

From Stdlib Require Import Sorted.

(** [NFA.transitions_from]: the transitions that leave [nodes], in the
    order of the automaton. *)
Definition transitions_from (self : NFA) (nodes : list Z) : list Transition :=
  filter (fun t => contains nodes (source t)) (transitions self).


(** * Notions the statements are written with *)

(** ** Fragments, and concatenation in the specification's words *)

(** The fragments of the algebra: what [from_char] builds, closed under
    [concat], [disjunct] and [zero_or_more]. *)
Inductive fragment : NFA -> Prop :=
| fragment_char (char : string) : fragment (from_char char)
| fragment_concat (left right n : NFA) :
    fragment left -> fragment right -> concat left right = Returns n ->
    fragment n
| fragment_disjunct (left right n : NFA) :
    fragment left -> fragment right -> disjunct left right = Returns n ->
    fragment n
| fragment_zero_or_more (child n : NFA) :
    fragment child -> zero_or_more child = Returns n -> fragment n.

(** Concatenation in the specification's words, to compare [concat] with:
    [max_state] is the largest state number referenced anywhere; the offset
    [k] is [max_state] when that is the accept state and [max_state + 1]
    otherwise; the left accept is renamed to [k]; the right fragment is
    offset by [k] and its start renamed to [k]; the result starts at the
    left start and accepts at the offset right accept. *)
Definition max_state (n : NFA) : Z :=
  fold_left Z.max
    (flat_map (fun t => [source t; dest t]) (transitions n))
    (Z.max (start n) (term n)).

Definition rename_node (orig new : Z) (t : Transition) : Transition :=
  mkTransition (on t)
    (if source t =? orig then new else source t)
    (if dest t =? orig then new else dest t).

Definition shift_node (k : Z) (t : Transition) : Transition :=
  mkTransition (on t) (source t + k) (dest t + k).

Definition concat_offset_spec (left : NFA) : Z :=
  if max_state left =? term left then max_state left else max_state left + 1.

Definition concat_spec (left right : NFA) : NFA :=
  let k := concat_offset_spec left in
  mkFA (map (rename_node (term left) k) (transitions left)
          ++ map (rename_node (start right + k) k)
                 (map (shift_node k) (transitions right)))
       (start left)
       (term right + k).

(** The state numbers the transitions of an automaton mention. *)
Definition endpoints (l : list Transition) : list Z :=
  flat_map (fun t => [source t; dest t]) l.

Definition nodes {T : Type} (n : FiniteAutomaton T) : list Z :=
  endpoints (transitions n).

(** The numbering the algebra maintains: the start is 0, the accept is
    positive, no state is negative, and both start and accept occur in a
    transition. *)
Definition well_numbered (n : NFA) : Prop :=
  start n = 0 /\ 1 <= term n /\ (forall x, In x (nodes n) -> 0 <= x) /\
  In 0 (nodes n) /\ In (term n) (nodes n).

(** ** The subset construction: determinism, candidates, invariants *)

(** The source state and the label of a transition: what a deterministic
    automaton has at most once. *)
Definition transition_key (t : Transition) : Z * string := (source t, on t).

(** All the sublists of a list, in order: what a [filter] can give. *)
Fixpoint subsequences {A : Type} (l : list A) : list (list A) :=
  match l with
  | [] => [[]]
  | x :: l' => map (cons x) (subsequences l') ++ subsequences l'
  end.

(** A fuel that is enough for [to_dfa] on [self]. *)
Definition enough_fuel (self : NFA) : nat :=
  (2 * List.length (subsequences (transitions self))
   + List.length (transitions self) + 4)%nat.

(** One admissible iteration order, ascending: it shows that [SetOrder] has
    an instance, and a set with at most one element has no other order. *)
Definition ascending_difference (a b : list Z) : list Z :=
  nodup Z.eq_dec (filter (fun x => negb (contains b x)) (sorted a)).

Section LoopInvariants.

Context {order : SetOrder}.

Variable self : NFA.

(** The closures the construction can ever register: the one of the start
    state and the ones of the moves, a move being the sorted destinations of
    some of the transitions. *)
Definition candidates (cfuel : nat) : list (outcome (list Z)) :=
  epsilon_closure self cfuel [start self]
  :: map (fun ts => epsilon_closure self cfuel (sorted (map dest ts)))
         (subsequences (transitions self)).

(** What holds of the registry, the work list and the recorded transitions
    and accept states while [current_state], popped and not in the work
    list any more, has the labels [rest] left to visit. *)
Record visiting (cfuel : nat) (current_state : list Z) (rest : list string)
    (b : Build) : Prop := mkVisiting {
  vis_states_NoDup : NoDup (new_states b);
  vis_queue_NoDup : NoDup (queue b);
  vis_queue_incl : incl (queue b) (new_states b);
  vis_current_In : In current_state (new_states b);
  vis_current_popped : ~ In current_state (queue b);
  vis_rest_NoDup : NoDup rest;
  vis_rest_enumerated : incl rest (get_moves_for_nodes self current_state);
  vis_transitions :
    forall t, In t (new_transitions b) ->
      on t <> "" /\
      (exists state k,
         source t = Z.of_nat k /\ nth_error (new_states b) k = Some state /\
         ~ In state (queue b) /\
         (state = current_state -> ~ In (on t) rest)) /\
      (exists target k,
         dest t = Z.of_nat k /\ nth_error (new_states b) k = Some target);
  vis_keys_NoDup : NoDup (map transition_key (new_transitions b));
  vis_terms :
    forall z, In z (new_term_states b) <->
      exists k state,
        z = Z.of_nat k /\ (1 <= k)%nat /\
        nth_error (new_states b) k = Some state /\ In (term self) state;
  vis_nonempty : forall state, In state (new_states b) -> state <> [];
  vis_candidates :
    forall state, In state (new_states b) ->
      In (Returns state) (candidates cfuel)
}.

(** What holds between two states of the work list. *)
Record settled (cfuel : nat) (b : Build) : Prop := mkSettled {
  set_states_NoDup : NoDup (new_states b);
  set_queue_NoDup : NoDup (queue b);
  set_queue_incl : incl (queue b) (new_states b);
  set_transitions :
    forall t, In t (new_transitions b) ->
      on t <> "" /\
      (exists state k,
         source t = Z.of_nat k /\ nth_error (new_states b) k = Some state /\
         ~ In state (queue b)) /\
      (exists target k,
         dest t = Z.of_nat k /\ nth_error (new_states b) k = Some target);
  set_keys_NoDup : NoDup (map transition_key (new_transitions b));
  set_terms :
    forall z, In z (new_term_states b) <->
      exists k state,
        z = Z.of_nat k /\ (1 <= k)%nat /\
        nth_error (new_states b) k = Some state /\ In (term self) state;
  set_nonempty : forall state, In state (new_states b) -> state <> [];
  set_candidates :
    forall state, In state (new_states b) ->
      In (Returns state) (candidates cfuel)
}.

End LoopInvariants.

(** ** The parser: sources and expressions *)

(** The first character of a source that can start an expression. *)
Definition starts_expression (src : string) : bool :=
  match src with
  | EmptyString => false
  | String c _ => isalnum_char c || Ascii.eqb c "("
  end.

(** What the sources [a], [(e)] and [a*] parse to, and the NFA of [a*]. *)
Definition regex_a : Reg :=
  RegDisj [RegConcat [RegQuality (RegUnity (Some (RegChar "a"))) ""]].

Definition grouped (inner : Reg) : Reg :=
  RegDisj [RegConcat
             [RegQuality (RegUnity (Some (RegGroup (Some inner)))) ""]].

Definition regex_a_star : Reg :=
  RegDisj [RegConcat [RegQuality (RegUnity (Some (RegChar "a"))) "*"]].

Definition nfa_a_star : NFA :=
  mkFA [mkTransition "a" 0 1; mkTransition "" 0 1;
        mkTransition "" 1 0; mkTransition "" 1 2] 0 2.

(** ** Epsilon reachability *)

(** One epsilon transition from [x] to [y], and the states that can be
    reached from one of [nodes_] along epsilon transitions. *)
Definition eps_step (self : NFA) (x y : Z) : Prop :=
  exists t, In t (transitions self) /\ on t = "" /\ source t = x /\ dest t = y.

Inductive eps_reachable (self : NFA) (nodes_ : list Z) : Z -> Prop :=
| eps_here (x : Z) : In x nodes_ -> eps_reachable self nodes_ x
| eps_next (x y : Z) :
    eps_reachable self nodes_ x -> eps_step self x y ->
    eps_reachable self nodes_ y.

(** ** What the subset construction records *)

Section RecordedInvariant.

Context {order : SetOrder}.

Variable self : NFA.

(** Beside [visiting]: the registry starts with the closure of the start
    state; every recorded transition goes from a registered subset, on one
    of its labels, to the closure of its move on that label; and every
    subset that has left the work list has a transition on each of its
    labels (for [current_state], on each label not in [rest] any more). *)
Record recorded (cfuel : nat) (current_state : list Z) (rest : list string)
    (b : Build) : Prop := mkRecorded {
  rec_start :
    exists init,
      epsilon_closure self cfuel [start self] = Returns init /\
      nth_error (new_states b) 0 = Some init;
  rec_sound :
    forall t, In t (new_transitions b) ->
      exists state k p kd,
        nth_error (new_states b) k = Some state /\
        nth_error (new_states b) kd = Some p /\
        In (on t) (get_moves_for_nodes self state) /\ on t <> "" /\
        epsilon_closure self cfuel (move_on self state (on t)) = Returns p /\
        source t = Z.of_nat k /\ dest t = Z.of_nat kd;
  rec_complete :
    forall k state a,
      nth_error (new_states b) k = Some state ->
      ~ In state (queue b) ->
      (state = current_state -> ~ In a rest) ->
      In a (get_moves_for_nodes self state) -> a <> "" ->
      exists t, In t (new_transitions b) /\ on t = a /\ source t = Z.of_nat k
}.

End RecordedInvariant.

(** ** Words read by the two automata *)

(** A word is a list of labels, none of them the epsilon label.  The
    states an NFA can be in after reading a word, epsilon transitions taken
    freely before, between and after the letters. *)
Inductive nfa_reads (self : NFA) : list string -> Z -> Prop :=
| nfa_reads_nil (x : Z) :
    eps_reachable self [start self] x -> nfa_reads self [] x
| nfa_reads_snoc (w : list string) (a : string) (x y : Z) (t : Transition) :
    nfa_reads self w x -> a <> "" ->
    In t (transitions self) -> on t = a -> source t = x ->
    eps_reachable self [dest t] y ->
    nfa_reads self (w ++ [a]) y.

(** The state a list of DFA transitions leads to from state 0 on a word. *)
Inductive dfa_reads (ts : list Transition) : list string -> Z -> Prop :=
| dfa_reads_nil : dfa_reads ts [] 0
| dfa_reads_snoc (w : list string) (a : string) (q : Z) (t : Transition) :
    dfa_reads ts w q -> In t ts -> source t = q -> on t = a ->
    dfa_reads ts (w ++ [a]) (dest t).

(** What [to_dfa] builds on the NFA of [a*]. *)
Definition build_a_star : Build :=
  mkBuild [[0; 1; 2]; [1; 0; 2]]
    [mkTransition "a" 0 1; mkTransition "a" 1 1] [1] [].

(** ** Words, runs of an NFA and the language of an expression *)

(** A word is a list of labels, none of them the empty string, which is
    the label of an epsilon transition.  [path ts x w y]: the transitions
    [ts] lead from [x] to [y] reading [w]. *)
Inductive path (ts : list Transition) : Z -> list string -> Z -> Prop :=
| path_here (x : Z) : path ts x [] x
| path_eps (x : Z) (t : Transition) (w : list string) (y : Z) :
    In t ts -> source t = x -> on t = "" -> path ts (dest t) w y ->
    path ts x w y
| path_on (x : Z) (t : Transition) (w : list string) (y : Z) :
    In t ts -> source t = x -> on t <> "" -> path ts (dest t) w y ->
    path ts x (on t :: w) y.

Definition accepts (n : NFA) (w : list string) : Prop :=
  path (transitions n) (start n) w (term n).

(** Renaming the states of a transition. *)
Definition relabel (f : Z -> Z) (t : Transition) : Transition :=
  mkTransition (on t) (f (source t)) (f (dest t)).

(** Exchanging two state numbers. *)
Definition swap (a b z : Z) : Z :=
  if z =? a then b else if z =? b then a else z.

Inductive star (L : list string -> Prop) : list string -> Prop :=
| star_nil : star L []
| star_app (w1 w2 : list string) :
    L w1 -> star L w2 -> star L (w1 ++ w2).

(** The words an expression matches.  A [RegChar] matches its character
    (the parser only builds it from one alphanumeric character; with the
    empty string it would be an epsilon); [*] is iteration, [+] one match
    followed by an iteration; a [RegConcat] matches its children in
    sequence and a [RegDisj] any of its children.  A [RegGroup] or
    [RegUnity] that holds [False] matches nothing. *)
Fixpoint lang (r : Reg) (w : list string) {struct r} : Prop :=
  match r with
  | RegChar c => w = if String.eqb c "" then [] else [c]
  | RegGroup child | RegUnity child =>
      match child with
      | Some e => lang e w
      | None => False
      end
  | RegQuality e q =>
      if String.eqb q "" then lang e w
      else if String.eqb q "*" then star (lang e) w
      else if String.eqb q "+" then
        exists w1 w2, w = w1 ++ w2 /\ lang e w1 /\ star (lang e) w2
      else False
  | RegConcat cs =>
      (fix seq (l : list Reg) (w : list string) {struct l} : Prop :=
         match l with
         | [] => w = []
         | c :: l' => exists w1 w2, w = w1 ++ w2 /\ lang c w1 /\ seq l' w2
         end) cs w
  | RegDisj cs =>
      (fix any (l : list Reg) {struct l} : Prop :=
         match l with
         | [] => False
         | c :: l' => lang c w \/ any l'
         end) cs
  end.

(** The numbering and the shape the fragment algebra maintains: well
    numbered, and no transition leaves the accept state. *)
Definition thompson (n : NFA) : Prop :=
  well_numbered n /\ forall t, In t (transitions n) -> source t <> term n.

(** No transition enters the start state. *)
Definition clean_start (n : NFA) : Prop :=
  forall t, In t (transitions n) -> dest t <> start n.

(** The expressions whose NFA has no transition into its start state:
    those that do not begin with an iteration. *)
Fixpoint clean (r : Reg) : bool :=
  match r with
  | RegChar _ => true
  | RegGroup child | RegUnity child =>
      match child with
      | Some e => clean e
      | None => true
      end
  | RegQuality e q => if String.eqb q "*" then false else clean e
  | RegConcat cs =>
      match cs with
      | [] => true
      | c :: _ => clean c
      end
  | RegDisj cs =>
      match cs with
      | [c] => clean c
      | _ => true
      end
  end.

(** The expressions in which [*] and [+] are only applied to expressions
    that do not begin with an iteration. *)
Fixpoint guarded (r : Reg) : bool :=
  match r with
  | RegChar _ => true
  | RegGroup child | RegUnity child =>
      match child with
      | Some e => guarded e
      | None => true
      end
  | RegQuality e q =>
      guarded e && (String.eqb q "" || clean e)
  | RegConcat cs =>
      (fix all (l : list Reg) : bool :=
         match l with
         | [] => true
         | c :: l' => guarded c && all l'
         end) cs
  | RegDisj cs =>
      (fix all (l : list Reg) : bool :=
         match l with
         | [] => true
         | c :: l' => guarded c && all l'
         end) cs
  end.

(** The two loops of [RegConcat.to_nfa] and [RegDisj.to_nfa], by name. *)
Fixpoint concat_each (rest : list Reg) (nfa : NFA) : outcome NFA :=
  match rest with
  | [] => Returns nfa
  | child :: rest' =>
      right <- to_nfa child ;;
      nfa' <- concat nfa right ;;
      concat_each rest' nfa'
  end.

Fixpoint disjunct_each (rest : list Reg) (nfa : NFA) : outcome NFA :=
  match rest with
  | [] => Returns nfa
  | child :: rest' =>
      right <- to_nfa child ;;
      nfa' <- disjunct nfa right ;;
      disjunct_each rest' nfa'
  end.

(** The sequence and the choice of [lang], and the conjunction of
    [guarded], over a list of children, by name. *)
Fixpoint lang_seq (l : list Reg) (w : list string) : Prop :=
  match l with
  | [] => w = []
  | c :: l' => exists w1 w2, w = w1 ++ w2 /\ lang c w1 /\ lang_seq l' w2
  end.

Fixpoint lang_any (l : list Reg) (w : list string) : Prop :=
  match l with
  | [] => False
  | c :: l' => lang c w \/ lang_any l' w
  end.

Fixpoint guarded_all (l : list Reg) : bool :=
  match l with
  | [] => true
  | c :: l' => guarded c && guarded_all l'
  end.

(** What is shown of the NFA [n] built for the expression [r]: it is a
    fragment with the Thompson shape; it accepts every word [r] matches;
    and, when [r] is guarded, only those. *)
Definition denotes (r : Reg) (n : NFA) : Prop :=
  thompson n /\ (clean r = true -> clean_start n) /\
  (forall w, lang r w -> accepts n w) /\
  (guarded r = true -> forall w, accepts n w -> lang r w).

(** ** The expressions the parser builds *)

(** The six classes, from the top. *)
Inductive level : Type :=
| LDisj | LConcat | LQuality | LUnity | LGroup | LChar.

(** One alphanumeric character. *)
Definition alnum_character (c : string) : bool :=
  match c with
  | String a EmptyString => isalnum_char a
  | _ => false
  end.

(** [shaped lv r]: [r] is an object of the class [lv] as the [from_buf]
    methods build it: a [RegDisj] holds at least one [RegConcat], a
    [RegConcat] at least one [RegQuality], a [RegQuality] a [RegUnity] and one
    of the qualifiers [''], ['*'] and ['+'], a [RegUnity] a [RegChar] or a
    [RegGroup], a [RegGroup] a [RegDisj] or [False], and a [RegChar] one
    alphanumeric character. *)
Fixpoint shaped (lv : level) (r : Reg) {struct r} : bool :=
  match lv, r with
  | LDisj, RegDisj cs =>
      negb (Nat.eqb (List.length cs) 0) && forallb (shaped LConcat) cs
  | LConcat, RegConcat cs =>
      negb (Nat.eqb (List.length cs) 0) && forallb (shaped LQuality) cs
  | LQuality, RegQuality e q =>
      shaped LUnity e
      && (String.eqb q "" || String.eqb q "*" || String.eqb q "+")
  | LUnity, RegUnity (Some e) => shaped LChar e || shaped LGroup e
  | LGroup, RegGroup None => true
  | LGroup, RegGroup (Some e) => shaped LDisj e
  | LChar, RegChar c => alnum_character c
  | _, _ => false
  end.

(** No group of the expression is empty: no [RegGroup] or [RegUnity] holds
    [False]. *)
Fixpoint complete (r : Reg) : bool :=
  match r with
  | RegChar _ => true
  | RegGroup child | RegUnity child =>
      match child with
      | Some e => complete e
      | None => false
      end
  | RegQuality e _ => complete e
  | RegConcat cs | RegDisj cs => forallb complete cs
  end.

(** What each [from_buf] method and each loop returns, when it returns an
    object, for a given fuel. *)
Definition shapes (fuel : nat) : Prop :=
  (forall buf buf' r,
     RegDisj_from_buf fuel buf = Returns (Some r, buf') ->
     shaped LDisj r = true) /\
  (forall exps exp buf buf' r,
     RegDisj_loop fuel exps exp buf = Returns (Some r, buf') ->
     forallb (shaped LConcat) exps = true ->
     (forall e, exp = Some e -> shaped LConcat e = true) ->
     shaped LDisj r = true) /\
  (forall buf buf' r,
     RegConcat_from_buf fuel buf = Returns (Some r, buf') ->
     shaped LConcat r = true) /\
  (forall exps exp buf buf' r,
     RegConcat_loop fuel exps exp buf = Returns (Some r, buf') ->
     forallb (shaped LQuality) exps = true ->
     (forall e, exp = Some e -> shaped LQuality e = true) ->
     shaped LConcat r = true) /\
  (forall buf buf' r,
     RegQuality_from_buf fuel buf = Returns (Some r, buf') ->
     shaped LQuality r = true) /\
  (forall buf buf' r,
     RegUnity_from_buf fuel buf = Returns (Some r, buf') ->
     shaped LUnity r = true) /\
  (forall buf buf' r,
     RegGroup_from_buf fuel buf = Returns (Some r, buf') ->
     shaped LGroup r = true).

(** On an expression of the parser's shape, [to_nfa] returns when no group
    is empty and raises [AttributeError] otherwise. *)
Definition outcome_by_completeness (r : Reg) : Prop :=
  forall lv, shaped lv r = true ->
    (complete r = true -> exists n, to_nfa r = Returns n) /\
    (complete r = false -> to_nfa r = Raises AttributeError).

(** What the source [()] parses to. *)
Definition grouped_empty : Reg :=
  RegDisj [RegConcat [RegQuality (RegUnity (Some (RegGroup None))) ""]].

(** ** The cursor during a parse *)

(** The one exception the parser raises. *)
Definition no_closing : exn := ValueError "no closing ) for group".

(** No match at position [p]: the cursor is left at [p], or one before the
    end when [p] is the end of the source. *)
Definition no_match_at (src : string) (p : Z) (b : RegexString) : Prop :=
  s b = src /\
  ((p < len src /\ i b = p) \/ (p = len src /\ i b = p - 1)).

(** The result of a [from_buf] called at position [p]: an object and a
    cursor between [lo] and the end of the source, no match, or the
    parser's exception. *)
Definition lands (src : string) (p lo : Z) (out : parsed) : Prop :=
  match out with
  | Returns (Some _, b) => s b = src /\ lo <= i b <= len src
  | Returns (None, b) => no_match_at src p b
  | Raises e => e = no_closing
  | OutOfFuel => False
  end.

(** The result of a loop that holds an object already. *)
Definition continues (src : string) (lo : Z) (out : parsed) : Prop :=
  match out with
  | Returns (Some _, b) => s b = src /\ lo <= i b <= len src
  | Returns (None, _) => False
  | Raises e => e = no_closing
  | OutOfFuel => False
  end.

(** What the fuel is enough for, method by method: five units for every
    character left, and one more for every level of the grammar. *)
Definition safe (src : string) (fuel : nat) : Prop :=
  (forall p, 0 <= p <= len src ->
     5 * (len src - p) + 5 <= Z.of_nat fuel ->
     lands src p p (RegDisj_from_buf fuel (mkRegexString src p))) /\
  (forall exps e q, 0 <= q <= len src ->
     5 * (len src - q) + 4 <= Z.of_nat fuel ->
     continues src q (RegDisj_loop fuel exps (Some e) (mkRegexString src q))) /\
  (forall p, 0 <= p <= len src ->
     5 * (len src - p) + 4 <= Z.of_nat fuel ->
     lands src p p (RegConcat_from_buf fuel (mkRegexString src p))) /\
  (forall exps e q, 0 <= q <= len src ->
     5 * (len src - q) + 4 <= Z.of_nat fuel ->
     continues src (q - 1)
       (RegConcat_loop fuel exps (Some e) (mkRegexString src q))) /\
  (forall p, 0 <= p <= len src ->
     5 * (len src - p) + 3 <= Z.of_nat fuel ->
     lands src p (p + 1) (RegQuality_from_buf fuel (mkRegexString src p))) /\
  (forall p, 0 <= p <= len src ->
     5 * (len src - p) + 2 <= Z.of_nat fuel ->
     lands src p (p + 1) (RegUnity_from_buf fuel (mkRegexString src p))) /\
  (forall p, 0 <= p <= len src ->
     peek (mkRegexString src p) = Returns "(" ->
     5 * (len src - p) + 1 <= Z.of_nat fuel ->
     continues src (p + 1) (RegGroup_from_buf fuel (mkRegexString src p))).

(** * Properties *)

(** ** Outcomes *)

Lemma bind_Returns {A B : Type} (m : outcome A) (k : A -> outcome B) (b : B) :
  bind m k = Returns b -> exists a, m = Returns a /\ k a = Returns b.
Proof.
  destruct m as [a | e | ]; simpl; intros H; try discriminate.
  exists a; split; [reflexivity | exact H].
Qed.

Tactic Notation "inv_bind" hyp(H) "as" ident(a) ident(Ha) :=
  apply bind_Returns in H; destruct H as [a [Ha H]].

(** ** Lists of integers: sorting, membership, equality *)

Lemma insert_by_Permutation {A : Type} (leb : A -> A -> bool) (x : A) (l : list A) :
  Permutation (insert_by leb x l) (x :: l).
Proof.
  induction l as [| y l IH]; simpl.
  - apply Permutation_refl.
  - destruct (leb x y).
    + apply Permutation_refl.
    + eapply Permutation_trans; [apply perm_skip, IH | apply perm_swap].
Qed.

Lemma sorted_by_Permutation {A : Type} (leb : A -> A -> bool) (l : list A) :
  Permutation (sorted_by leb l) l.
Proof.
  induction l as [| x l IH]; simpl.
  - apply perm_nil.
  - eapply Permutation_trans; [apply insert_by_Permutation |].
    apply perm_skip, IH.
Qed.

Lemma sorted_In (l : list Z) (x : Z) : In x (sorted l) <-> In x l.
Proof.
  unfold sorted; split; apply Permutation_in;
    [| apply Permutation_sym]; apply sorted_by_Permutation.
Qed.

Lemma sorted_length (l : list Z) : List.length (sorted l) = List.length l.
Proof. apply Permutation_length, sorted_by_Permutation. Qed.

Lemma contains_In (nodes : list Z) (x : Z) :
  contains nodes x = true <-> In x nodes.
Proof.
  unfold contains; rewrite existsb_exists; split.
  - intros [y [Hy Heq]]. apply Z.eqb_eq in Heq. subst; exact Hy.
  - intros H. exists x; split; [exact H | apply Z.eqb_refl].
Qed.

Lemma contains_false (nodes : list Z) (x : Z) :
  contains nodes x = false <-> ~ In x nodes.
Proof.
  rewrite <- contains_In. destruct (contains nodes x); split; intros H;
    try reflexivity; try discriminate; try (intros H'; discriminate).
  exfalso; apply H; reflexivity.
Qed.

Lemma eqb_list_eq (l1 l2 : list Z) : eqb_list l1 l2 = true <-> l1 = l2.
Proof.
  revert l2; induction l1 as [| x l1 IH]; intros [| y l2]; simpl;
    split; intros H; try reflexivity; try discriminate.
  - apply andb_true_iff in H. destruct H as [Hx Hl].
    apply Z.eqb_eq in Hx. apply IH in Hl. subst; reflexivity.
  - injection H as Hx Hl. subst.
    apply andb_true_iff; split; [apply Z.eqb_refl | apply IH; reflexivity].
Qed.

Lemma registered_In (new_states : list (list Z)) (state : list Z) :
  registered new_states state = true <-> In state new_states.
Proof.
  unfold registered; rewrite existsb_exists; split.
  - intros [y [Hy Heq]]. apply eqb_list_eq in Heq. subst; exact Hy.
  - intros H. exists state; split; [exact H | apply eqb_list_eq; reflexivity].
Qed.

Lemma position_nth (new_states : list (list Z)) (state : list Z) (k : nat) :
  position new_states state = Some k -> nth_error new_states k = Some state.
Proof.
  revert k; induction new_states as [| st rest IH]; simpl; intros k H.
  - discriminate.
  - destruct (eqb_list st state) eqn:E.
    + injection H as <-. apply eqb_list_eq in E. subst; reflexivity.
    + destruct (position rest state) as [k' |]; simpl in H; try discriminate.
      injection H as <-. simpl. apply IH; reflexivity.
Qed.

Lemma position_In (new_states : list (list Z)) (state : list Z) :
  In state new_states -> exists k, position new_states state = Some k.
Proof.
  induction new_states as [| st rest IH]; simpl; intros H.
  - contradiction.
  - destruct (eqb_list st state) eqn:E.
    + exists O; reflexivity.
    + destruct H as [H | H].
      * subst. assert (eqb_list state state = true) by (apply eqb_list_eq; reflexivity).
        congruence.
      * destruct (IH H) as [k Hk]. rewrite Hk. exists (S k); reflexivity.
Qed.


Lemma NoDup_map_In_eq {A B : Type} (f : A -> B) (l : list A) :
  NoDup (map f l) ->
  forall x y, In x l -> In y l -> f x = f y -> x = y.
Proof.
  induction l as [| a l IH]; simpl; intros Hnd x y Hx Hy E; [contradiction |].
  apply NoDup_cons_iff in Hnd. destruct Hnd as [Ha Hnd].
  destruct Hx as [<- | Hx]; destruct Hy as [<- | Hy]; auto.
  - exfalso. apply Ha. rewrite E. apply in_map, Hy.
  - exfalso. apply Ha. rewrite <- E. apply in_map, Hx.
Qed.

(** ** An iteration order: ascending *)

Lemma ascending_difference_In (a b : list Z) (x : Z) :
  In x (ascending_difference a b) <-> In x a /\ ~ In x b.
Proof.
  unfold ascending_difference.
  rewrite nodup_In, filter_In, sorted_In, negb_true_iff, contains_false.
  reflexivity.
Qed.

Definition ascending : SetOrder := {|
  set_difference := ascending_difference;
  set_difference_NoDup := fun a b => NoDup_nodup Z.eq_dec _;
  set_difference_In := ascending_difference_In
|}.

(** A set with at most one element has one iteration order. *)
Lemma set_difference_small {order : SetOrder} (a b v : list Z) :
  ascending_difference a b = v -> (List.length v <= 1)%nat ->
  set_difference a b = v.
Proof.
  intros <- Hlen.
  assert (Hperm : Permutation (ascending_difference a b) (set_difference a b)).
  { apply NoDup_Permutation.
    - apply NoDup_nodup.
    - apply set_difference_NoDup.
    - intros x. rewrite ascending_difference_In, set_difference_In.
      reflexivity. }
  destruct (ascending_difference a b) as [| x [| y l]].
  - apply Permutation_nil in Hperm. exact Hperm.
  - apply Permutation_length_1_inv in Hperm. exact Hperm.
  - simpl in Hlen. lia.
Qed.

Ltac step_set_difference :=
  match goal with
  | |- context [@set_difference ?o ?a ?b] =>
      let v := eval vm_compute in (ascending_difference a b) in
      rewrite (@set_difference_small o a b v)
        by (vm_compute; first [reflexivity | lia])
  end.

(** Weak head reduction of the left-hand side only: the branches of a match
    stuck on a [set_difference] are left alone. *)
Ltac whnf_lhs :=
  match goal with
  | |- ?l = ?r =>
      let l' := eval lazy head beta iota zeta delta -[set_difference] in l in
      change (l' = r)
  end.
(** ** State numbers of a fragment *)

Lemma In_nodes {T : Type} (n : FiniteAutomaton T) (x : Z) :
  In x (nodes n) <->
  exists t, In t (transitions n) /\ (x = source t \/ x = dest t).
Proof.
  unfold nodes, endpoints. rewrite in_flat_map. split.
  - intros [t [Ht Hx]]. exists t. split; [exact Ht |].
    simpl in Hx. destruct Hx as [Hx | [Hx | []]]; auto.
  - intros [t [Ht Hx]]. exists t. split; [exact Ht |].
    simpl. destruct Hx as [Hx | Hx]; auto.
Qed.

Lemma fold_left_max_spec (l : list Z) (x : Z) :
  x <= fold_left Z.max l x /\
  (forall y, In y l -> y <= fold_left Z.max l x) /\
  (fold_left Z.max l x = x \/ In (fold_left Z.max l x) l).
Proof.
  revert x; induction l as [| a l IH]; intros x; simpl.
  - split; [lia | split; [intros y [] | left; reflexivity]].
  - destruct (IH (Z.max x a)) as [H1 [H2 H3]].
    split; [lia | split].
    + intros y [<- | Hy]; [lia | apply H2, Hy].
    + destruct H3 as [H3 | H3]; [| right; right; exact H3].
      rewrite H3. destruct (Z.max_spec x a) as [[_ ->] | [_ ->]]; auto.
Qed.

Lemma fold_left_min_spec (l : list Z) (x : Z) :
  fold_left Z.min l x <= x /\
  (forall y, In y l -> fold_left Z.min l x <= y) /\
  (fold_left Z.min l x = x \/ In (fold_left Z.min l x) l).
Proof.
  revert x; induction l as [| a l IH]; intros x; simpl.
  - split; [lia | split; [intros y [] | left; reflexivity]].
  - destruct (IH (Z.min x a)) as [H1 [H2 H3]].
    split; [lia | split].
    + intros y [<- | Hy]; [lia | apply H2, Hy].
    + destruct H3 as [H3 | H3]; [| right; right; exact H3].
      rewrite H3. destruct (Z.min_spec x a) as [[_ ->] | [_ ->]]; auto.
Qed.

Lemma py_max_spec (l : list Z) (m : Z) :
  py_max l = Returns m -> In m l /\ forall y, In y l -> y <= m.
Proof.
  destruct l as [| x l]; simpl; intros H; [discriminate |].
  injection H as <-.
  destruct (fold_left_max_spec l x) as [H1 [H2 H3]].
  split.
  - destruct H3 as [-> | H3]; auto.
  - intros y [<- | Hy]; auto.
Qed.

Lemma py_min_spec (l : list Z) (m : Z) :
  py_min l = Returns m -> In m l /\ forall y, In y l -> m <= y.
Proof.
  destruct l as [| x l]; simpl; intros H; [discriminate |].
  injection H as <-.
  destruct (fold_left_min_spec l x) as [H1 [H2 H3]].
  split.
  - destruct H3 as [-> | H3]; auto.
  - intros y [<- | Hy]; auto.
Qed.

Lemma max_node_spec {T : Type} (n : FiniteAutomaton T) (m : Z) :
  max_node n = Returns m ->
  In m (nodes n) /\ forall x, In x (nodes n) -> x <= m.
Proof.
  unfold max_node; intros H. apply py_max_spec in H. destruct H as [Hin Hle].
  split.
  - apply in_map_iff in Hin. destruct Hin as [t [Ht Hin]].
    apply In_nodes. exists t. split; [exact Hin |].
    destruct (Z.max_spec (source t) (dest t)) as [[_ E] | [_ E]]; lia.
  - intros x Hx. apply In_nodes in Hx. destruct Hx as [t [Ht Hx]].
    assert (Z.max (source t) (dest t) <= m)
      by (apply Hle, in_map_iff; exists t; auto).
    lia.
Qed.

Lemma min_node_spec {T : Type} (n : FiniteAutomaton T) (m : Z) :
  min_node n = Returns m ->
  In m (nodes n) /\ forall x, In x (nodes n) -> m <= x.
Proof.
  unfold min_node; intros H. apply py_min_spec in H. destruct H as [Hin Hle].
  split.
  - apply in_map_iff in Hin. destruct Hin as [t [Ht Hin]].
    apply In_nodes. exists t. split; [exact Hin |].
    destruct (Z.min_spec (source t) (dest t)) as [[_ E] | [_ E]]; lia.
  - intros x Hx. apply In_nodes in Hx. destruct Hx as [t [Ht Hx]].
    assert (m <= Z.min (source t) (dest t))
      by (apply Hle, in_map_iff; exists t; auto).
    lia.
Qed.

Lemma max_node_returns {T : Type} (n : FiniteAutomaton T) (x : Z) :
  In x (nodes n) -> exists m, max_node n = Returns m.
Proof.
  intros Hx. apply In_nodes in Hx. destruct Hx as [t [Ht _]].
  unfold max_node. destruct (transitions n) as [| t0 l]; [contradiction |].
  simpl. eexists; reflexivity.
Qed.

Lemma min_node_returns {T : Type} (n : FiniteAutomaton T) (x : Z) :
  In x (nodes n) -> exists m, min_node n = Returns m.
Proof.
  intros Hx. apply In_nodes in Hx. destruct Hx as [t [Ht _]].
  unfold min_node. destruct (transitions n) as [| t0 l]; [contradiction |].
  simpl. eexists; reflexivity.
Qed.

(** On a well-numbered fragment [min_node] is 0 and [max_node] is at least
    the accept state. *)
Lemma well_numbered_min (n : NFA) :
  well_numbered n -> min_node n = Returns 0.
Proof.
  intros [_ [_ [Hpos [H0 _]]]].
  destruct (min_node_returns n 0 H0) as [m Hm]. rewrite Hm. f_equal.
  destruct (min_node_spec n m Hm) as [Hin Hle].
  specialize (Hpos m Hin). specialize (Hle 0 H0). lia.
Qed.

Lemma well_numbered_max (n : NFA) :
  well_numbered n ->
  exists m, max_node n = Returns m /\ term n <= m /\ 1 <= m /\
            In m (nodes n) /\ forall x, In x (nodes n) -> x <= m.
Proof.
  intros [_ [Hterm [_ [_ Ht]]]].
  destruct (max_node_returns n _ Ht) as [m Hm]. exists m.
  destruct (max_node_spec n m Hm) as [Hin Hle].
  specialize (Hle _ Ht) as Hle'. repeat split; auto; lia.
Qed.

(** How appending and the renumbering maps act on the endpoints. *)
Lemma endpoints_app (l1 l2 : list Transition) :
  endpoints (l1 ++ l2) = endpoints l1 ++ endpoints l2.
Proof. apply flat_map_app. Qed.

Lemma endpoints_map (g : Z -> Z) (f : Transition -> Transition)
    (l : list Transition) :
  (forall t, source (f t) = g (source t) /\ dest (f t) = g (dest t)) ->
  endpoints (map f l) = map g (endpoints l).
Proof.
  intros Hf. induction l as [| t l IH]; simpl; [reflexivity |].
  destruct (Hf t) as [-> ->]. f_equal. f_equal. exact IH.
Qed.

Lemma nodes_add_offset (n : NFA) (k : Z) :
  nodes (add_offset n k) = map (fun x => x + k) (nodes n).
Proof.
  unfold nodes, add_offset; cbn [transitions].
  apply (endpoints_map (fun x => x + k)). intros t; split; reflexivity.
Qed.

Lemma nodes_replace_node (n : NFA) (orig new : Z) :
  nodes (replace_node n orig new) =
  map (fun x => if x =? orig then new else x) (nodes n).
Proof.
  unfold nodes, replace_node; cbn [transitions].
  apply (endpoints_map (fun x => if x =? orig then new else x)).
  intros t; split; reflexivity.
Qed.

(** Renaming a state that does not occur changes nothing. *)
Lemma replace_node_absent (n : NFA) (orig new : Z) :
  ~ In orig (nodes n) -> replace_node n orig new = n.
Proof.
  intros Habs. destruct n as [ts st tm]. unfold replace_node; simpl.
  f_equal. rewrite <- (map_id ts) at 2. apply map_ext_in.
  intros [o sr ds] Ht; simpl.
  assert (Hs : sr <> orig).
  { intros ->. apply Habs. apply In_nodes. eexists; split; [exact Ht |].
    left; reflexivity. }
  assert (Hd : ds <> orig).
  { intros ->. apply Habs. apply In_nodes. eexists; split; [exact Ht |].
    right; reflexivity. }
  apply Z.eqb_neq in Hs, Hd. rewrite Hs, Hd. reflexivity.
Qed.

Lemma well_numbered_from_char (char : string) : well_numbered (from_char char).
Proof.
  unfold well_numbered, from_char, nodes; simpl.
  repeat split; simpl; auto; try lia.
Qed.

(** Adding transitions between non-negative states keeps the numbering. *)
Lemma well_numbered_extend (n : NFA) (extra : list Transition) :
  well_numbered n ->
  (forall x, In x (endpoints extra) -> 0 <= x) ->
  well_numbered (mkFA (transitions n ++ extra) (start n) (term n)).
Proof.
  intros [Hs [Ht [Hpos [H0 Hterm]]]] Hextra.
  unfold well_numbered, nodes in *; cbn [transitions start term].
  rewrite endpoints_app.
  repeat split; auto.
  - intros x Hx. apply in_app_iff in Hx. destruct Hx; auto.
  - apply in_app_iff; left; exact H0.
  - apply in_app_iff; left; exact Hterm.
Qed.

(** [append_new_term] on an automaton that starts at 0, occurring in a
    transition, with no negative state. *)
Lemma append_new_term_well_numbered (n : NFA) :
  start n = 0 -> 0 <= term n -> (forall x, In x (nodes n) -> 0 <= x) ->
  In 0 (nodes n) ->
  exists n', append_new_term n = Returns n' /\ well_numbered n'.
Proof.
  intros Hs Ht Hpos H0.
  destruct (max_node_returns n 0 H0) as [m Hm].
  destruct (max_node_spec n m Hm) as [Hin Hle].
  unfold append_new_term. rewrite Hm; cbn [bind].
  eexists; split; [reflexivity |].
  assert (0 <= m) by (apply Hpos, Hin).
  unfold well_numbered, nodes in *; cbn [transitions start term].
  rewrite endpoints_app; simpl.
  repeat split; auto; try lia.
  - intros x Hx. apply in_app_iff in Hx.
    destruct Hx as [Hx | [<- | [<- | []]]]; auto; lia.
  - apply in_app_iff; left; exact H0.
  - apply in_app_iff; right; simpl; auto.
Qed.

Lemma prepend_new_start_returns (n : NFA) :
  well_numbered n ->
  prepend_new_start n =
  Returns (mkFA (transitions (add_offset n 1) ++ [mkTransition "" 0 1])
                0 (term n + 1)).
Proof.
  intros Hwn. unfold prepend_new_start.
  rewrite (well_numbered_min n Hwn); simpl.
  destruct Hwn as [-> _]. reflexivity.
Qed.

Lemma zero_or_more_well_numbered (n : NFA) :
  well_numbered n ->
  exists n', zero_or_more n = Returns n' /\ well_numbered n'.
Proof.
  intros [Hs [Ht [Hpos [H0 Hterm]]]]. unfold zero_or_more.
  apply append_new_term_well_numbered; cbn [transitions start term];
    auto; try lia; unfold nodes in *; cbn [transitions];
    rewrite !endpoints_app.
  - intros x. rewrite !in_app_iff; simpl.
    intros [[Hx | Hx] | Hx]; auto; intuition lia.
  - rewrite !in_app_iff. left; left; exact H0.
Qed.

Lemma disjunct_well_numbered (left right : NFA) :
  well_numbered left -> well_numbered right ->
  exists n, disjunct left right = Returns n /\ well_numbered n.
Proof.
  intros Hl Hr. unfold disjunct.
  rewrite (prepend_new_start_returns left Hl); cbn [bind].
  destruct Hl as [Hs [Ht [Hpos [H0 Hterm]]]].
  set (self1 := mkFA (transitions (add_offset left 1) ++ [mkTransition "" 0 1])
                     0 (term left + 1)).
  assert (Hn1 : forall x, In x (nodes self1) -> 0 <= x).
  { intros x. unfold self1, nodes; cbn [transitions].
    rewrite endpoints_app, in_app_iff; simpl.
    intros [Hx | Hx]; [| intuition lia].
    change (In x (nodes (add_offset left 1))) in Hx.
    rewrite nodes_add_offset in Hx.
    apply in_map_iff in Hx. destruct Hx as [y [<- Hy]].
    specialize (Hpos y Hy). lia. }
  assert (H01 : In 0 (nodes self1)).
  { unfold self1, nodes; cbn [transitions].
    rewrite endpoints_app, in_app_iff; simpl. auto. }
  destruct (append_new_term_well_numbered self1) as [self2 [H2 Hwn2]];
    auto; [simpl; lia |].
  rewrite H2; cbn [bind]. eexists; split; [reflexivity |].
  rewrite <- !app_assoc.
  apply well_numbered_extend; [exact Hwn2 |].
  destruct Hwn2 as [Hs2 [Ht2 _]]. destruct Hr as [Hsr [Htr [Hposr _]]].
  intros x. rewrite endpoints_app; simpl.
  intros [<- | [<- | [<- | [<- | Hx]]]]; try lia.
  change (In x (nodes (add_offset right (term self2 + 1)))) in Hx.
  rewrite nodes_add_offset in Hx.
  apply in_map_iff in Hx. destruct Hx as [y [<- Hy]].
  specialize (Hposr y Hy). lia.
Qed.

(** The offset [concat] chooses on a well-numbered left operand is
    positive, so the offset right operand has no state 0 to rename and
    starts at the offset. *)
Lemma concat_offset_right (left right : NFA) :
  well_numbered left -> well_numbered right ->
  exists m, max_node left = Returns m /\ term left <= m /\
    (forall x, In x (nodes left) -> x <= m) /\ In m (nodes left) /\
    let offset := if negb (m =? term left) then m + 1 else m in
    1 <= offset /\
    replace_node (add_offset right offset) (start left) offset
      = add_offset right offset /\
    start (add_offset right offset) = offset.
Proof.
  intros Hl Hr.
  destruct (well_numbered_max left Hl) as [m [Hm [Htm [H1m [Hin Hle]]]]].
  exists m. repeat split; auto.
  - destruct (m =? term left); simpl; lia.
  - apply replace_node_absent. rewrite nodes_add_offset.
    intros Hx. apply in_map_iff in Hx. destruct Hx as [y [Hy Hin']].
    destruct Hl as [Hs _]. destruct Hr as [_ [_ [Hpos _]]].
    specialize (Hpos y Hin'). rewrite Hs in Hy.
    destruct (m =? term left); simpl in Hy; lia.
  - destruct Hr as [Hs _]. simpl. rewrite Hs. lia.
Qed.

Lemma concat_well_numbered (left right : NFA) :
  well_numbered left -> well_numbered right ->
  exists n, concat left right = Returns n /\ well_numbered n.
Proof.
  intros Hl Hr.
  destruct (concat_offset_right left right Hl Hr)
    as [m [Hm [Htm [Hle [Hin [Hk [Habs Hst]]]]]]].
  unfold concat. rewrite Hm; cbn [bind].
  set (offset := if negb (m =? term left) then m + 1 else m) in *.
  rewrite Habs. eexists; split; [reflexivity |].
  destruct Hl as [Hs [Ht [Hpos [H0 Hterm]]]].
  destruct Hr as [Hsr [Htr [Hposr [H0r Htermr]]]].
  unfold well_numbered, nodes; cbn [transitions start term replace_node add_offset].
  change (map (fun t => mkTransition (on t)
                          (if source t =? term left then offset else source t)
                          (if dest t =? term left then offset else dest t))
              (transitions left))
    with (transitions (replace_node left (term left) offset)).
  change (map (fun t => mkTransition (on t) (source t + offset) (dest t + offset))
              (transitions right))
    with (transitions (add_offset right offset)).
  rewrite endpoints_app.
  change (endpoints (transitions (replace_node left (term left) offset)))
    with (nodes (replace_node left (term left) offset)).
  change (endpoints (transitions (add_offset right offset)))
    with (nodes (add_offset right offset)).
  rewrite nodes_replace_node, nodes_add_offset.
  repeat split; auto; try lia.
  - intros x Hx. apply in_app_iff in Hx.
    destruct Hx as [Hx | Hx]; apply in_map_iff in Hx;
      destruct Hx as [y [<- Hy]].
    + specialize (Hpos y Hy). destruct (y =? term left); lia.
    + specialize (Hposr y Hy). lia.
  - apply in_app_iff; left. apply in_map_iff. exists 0. split; [| exact H0].
    destruct (0 =? term left) eqn:E; [apply Z.eqb_eq in E; lia | reflexivity].
  - apply in_app_iff; right. apply in_map_iff. exists (term right).
    split; [reflexivity | exact Htermr].
Qed.

(** Every fragment of the algebra is well numbered. *)
Lemma fragment_well_numbered (n : NFA) : fragment n -> well_numbered n.
Proof.
  induction 1 as [char | left right n _ IHl _ IHr Hn
                  | left right n _ IHl _ IHr Hn | child n _ IH Hn].
  - apply well_numbered_from_char.
  - destruct (concat_well_numbered left right IHl IHr) as [n' [Hn' Hwn]].
    congruence.
  - destruct (disjunct_well_numbered left right IHl IHr) as [n' [Hn' Hwn]].
    congruence.
  - destruct (zero_or_more_well_numbered child IH) as [n' [Hn' Hwn]].
    congruence.
Qed.

(** On a well-numbered fragment the largest state number referenced anywhere
    is the one [max_node] finds among the transitions. *)
Lemma max_state_max_node (n : NFA) (m : Z) :
  well_numbered n -> max_node n = Returns m -> max_state n = m.
Proof.
  intros [Hs [Ht [Hpos [H0 Hterm]]]] Hm.
  destruct (max_node_spec n m Hm) as [Hin Hle].
  unfold max_state. fold (endpoints (transitions n)). fold (nodes n).
  destruct (fold_left_max_spec (nodes n) (Z.max (start n) (term n)))
    as [H1 [H2 H3]].
  specialize (H2 m Hin). specialize (Hle _ Hterm) as Htm.
  destruct H3 as [H3 | H3].
  - rewrite H3 in *. lia.
  - specialize (Hle _ H3). lia.
Qed.

Lemma concat_returns_spec (left right : NFA) :
  well_numbered left -> well_numbered right ->
  concat left right = Returns (concat_spec left right).
Proof.
  intros Hl Hr.
  destruct (concat_offset_right left right Hl Hr)
    as [m [Hm [Htm [Hle [Hin [Hk [Habs Hst]]]]]]].
  unfold concat. rewrite Hm; cbn [bind].
  set (offset := if negb (m =? term left) then m + 1 else m) in *.
  rewrite Habs.
  unfold concat_spec, concat_offset_spec.
  rewrite (max_state_max_node left m Hl Hm).
  replace (if m =? term left then m else m + 1) with offset
    by (unfold offset; destruct (m =? term left); reflexivity).
  cbn [transitions start term replace_node add_offset].
  assert (Hright :
    map (rename_node (start right + offset) offset)
        (map (shift_node offset) (transitions right))
    = map (fun t => mkTransition (on t) (source t + offset) (dest t + offset))
          (transitions right)).
  { rewrite map_map. apply map_ext. intros t.
    destruct Hr as [Hsr _].
    unfold rename_node, shift_node; cbn [on source dest].
    rewrite Hsr, Z.add_0_l.
    destruct (source t + offset =? offset) eqn:E1;
      destruct (dest t + offset =? offset) eqn:E2;
      try apply Z.eqb_eq in E1; try apply Z.eqb_eq in E2;
      try rewrite E1; try rewrite E2; reflexivity. }
  rewrite Hright. reflexivity.
Qed.


(** ** Claims on the fragment algebra *)

(** C6.  For every pair of fragments of the algebra, [concat] returns the
    fragment the specification describes ([concat_spec]): the offset [k] is
    the left [max_state] when that is the left accept and [max_state + 1]
    otherwise; the result starts at the left start, accepts at the right
    accept plus [k], and its transitions are the left ones with the left
    accept renamed to [k], followed by the right ones offset by [k] with the
    right start becoming [k]. *)
Theorem concat_of_fragments (left right : NFA) :
  fragment left -> fragment right ->
  concat left right = Returns (concat_spec left right).
Proof.
  intros Hl Hr. apply concat_returns_spec; apply fragment_well_numbered; assumption.
Qed.

Lemma concat_of_fragments_witness :
  concat (from_char "a") (from_char "b")
  = Returns (mkFA [mkTransition "a" 0 1; mkTransition "b" 1 2] 0 2).
Proof.
  exact (concat_of_fragments (from_char "a") (from_char "b")
           (fragment_char "a") (fragment_char "b")).
Defined.

(** C10.  Every fragment of the algebra starts at state 0, which is its
    minimal state number ([min_node]); and in [concat], for every left
    fragment and the offset chosen for it, renaming the left start in the
    offset right fragment changes nothing and leaves its start at the
    offset, the join node. *)
Theorem fragment_start_is_zero_and_minimal (n : NFA) :
  fragment n ->
  start n = 0 /\ min_node n = Returns (start n) /\
  forall left, fragment left ->
    exists m, max_node left = Returns m /\
      let offset := if negb (m =? term left) then m + 1 else m in
      replace_node (add_offset n offset) (start left) offset
        = add_offset n offset /\
      start (replace_node (add_offset n offset) (start left) offset) = offset.
Proof.
  intros Hn. apply fragment_well_numbered in Hn.
  assert (Hs : start n = 0) by (destruct Hn as [Hs _]; exact Hs).
  split; [exact Hs |]. split; [rewrite Hs; apply well_numbered_min, Hn |].
  intros left Hl. apply fragment_well_numbered in Hl.
  destruct (concat_offset_right left n Hl Hn)
    as [m [Hm [_ [_ [_ [_ [Habs Hst]]]]]]].
  exists m. split; [exact Hm |]. cbv zeta. rewrite Habs.
  split; [reflexivity | exact Hst].
Qed.

Lemma fragment_start_is_zero_and_minimal_witness :
  start (from_char "a") = 0 /\ min_node (from_char "a") = Returns 0 /\
  replace_node (add_offset (from_char "a") 1) (start (from_char "b")) 1
    = add_offset (from_char "a") 1 /\
  start (replace_node (add_offset (from_char "a") 1) (start (from_char "b")) 1)
    = 1.
Proof.
  destruct (fragment_start_is_zero_and_minimal (from_char "a")
              (fragment_char "a")) as [H1 [H2 H3]].
  destruct (H3 (from_char "b") (fragment_char "b")) as [m [Hm [H4 H5]]].
  vm_compute in Hm. injection Hm as <-.
  split; [exact H1 | split; [exact H2 | split; [exact H4 | exact H5]]].
Defined.
(** ** Moves and epsilon closures *)

Section SubsetFacts.

Context {order : SetOrder}.

Variable self : NFA.

Lemma move_on_In (nodes_ : list Z) (a : string) (x : Z) :
  In x (move_on self nodes_ a) <->
  exists t, In t (transitions self) /\ on t = a /\ In (source t) nodes_ /\
            dest t = x.
Proof.
  unfold move_on. rewrite sorted_In, in_map_iff. split.
  - intros [t [Hd Ht]]. apply filter_In in Ht. destruct Ht as [Ht Hc].
    apply andb_true_iff in Hc. destruct Hc as [Ha Hs].
    apply String.eqb_eq in Ha. apply contains_In in Hs. exists t; auto.
  - intros [t [Ht [Ha [Hs Hd]]]]. exists t. split; [exact Hd |].
    apply filter_In. split; [exact Ht |].
    apply andb_true_iff. split; [apply String.eqb_eq, Ha | apply contains_In, Hs].
Qed.

Lemma move_on_dest (nodes_ : list Z) (a : string) :
  incl (move_on self nodes_ a) (map dest (transitions self)).
Proof.
  intros x Hx. apply move_on_In in Hx. destruct Hx as [t [Ht [_ [_ <-]]]].
  apply in_map, Ht.
Qed.

Lemma get_moves_for_nodes_In (nodes_ : list Z) (a : string) :
  In a (get_moves_for_nodes self nodes_) <->
  exists t, In t (transitions self) /\ In (source t) nodes_ /\ on t = a.
Proof.
  unfold get_moves_for_nodes.
  assert (Hp := sorted_by_Permutation String.leb
                  (nodup string_dec
                     (map on (filter (fun t => contains nodes_ (source t))
                                (transitions self))))).
  split.
  - intros Ha. apply (Permutation_in _ Hp) in Ha.
    apply nodup_In, in_map_iff in Ha. destruct Ha as [t [Hon Ht]].
    apply filter_In in Ht. destruct Ht as [Ht Hs].
    apply contains_In in Hs. exists t; auto.
  - intros [t [Ht [Hs Hon]]].
    apply (Permutation_in _ (Permutation_sym Hp)).
    apply nodup_In, in_map_iff. exists t. split; [exact Hon |].
    apply filter_In. split; [exact Ht | apply contains_In, Hs].
Qed.

Lemma get_moves_for_nodes_NoDup (nodes_ : list Z) :
  NoDup (get_moves_for_nodes self nodes_).
Proof.
  unfold get_moves_for_nodes.
  eapply Permutation_NoDup;
    [apply Permutation_sym, sorted_by_Permutation | apply NoDup_nodup].
Qed.

(** A label enumerated for a collection of states has a move from it. *)
Lemma enumerated_label_moves (nodes_ : list Z) (a : string) :
  In a (get_moves_for_nodes self nodes_) -> move_on self nodes_ a <> [].
Proof.
  intros Ha. apply get_moves_for_nodes_In in Ha.
  destruct Ha as [t [Ht [Hs Hon]]].
  assert (Hin : In (dest t) (move_on self nodes_ a))
    by (apply move_on_In; exists t; auto).
  intros E. rewrite E in Hin. contradiction.
Qed.

(** The closure extends the collection it starts from. *)
Lemma epsilon_closure_loop_prefix (fuel : nat) (fixed_point new_eps r : list Z) :
  epsilon_closure_loop self fuel fixed_point new_eps = Returns r ->
  exists added, r = fixed_point ++ added.
Proof.
  revert fixed_point new_eps.
  induction fuel as [| fuel IH]; intros fixed_point new_eps;
    destruct new_eps as [| x new_eps]; simpl; intros H; try discriminate.
  - injection H as <-. exists []. symmetry; apply app_nil_r.
  - injection H as <-. exists []. symmetry; apply app_nil_r.
  - apply IH in H. destruct H as [added ->].
    exists ((x :: new_eps) ++ added). symmetry; apply app_assoc.
Qed.

Lemma epsilon_closure_prefix (fuel : nat) (nodes_ r : list Z) :
  epsilon_closure self fuel nodes_ = Returns r ->
  exists added, r = nodes_ ++ added.
Proof. apply epsilon_closure_loop_prefix. Qed.

(** After the first turn, every turn of the closure loop adds states that
    are destinations of transitions and were not there before; [acc]
    collects them. *)
Lemma epsilon_closure_loop_returns (fuel : nat)
    (fixed_point new_eps acc : list Z) :
  NoDup (acc ++ new_eps) ->
  incl (acc ++ new_eps) (map dest (transitions self)) ->
  incl acc fixed_point ->
  (forall x, In x new_eps -> ~ In x fixed_point) ->
  (List.length (transitions self) < fuel + List.length acc)%nat ->
  exists r, epsilon_closure_loop self fuel fixed_point new_eps = Returns r.
Proof.
  revert fixed_point new_eps acc.
  induction fuel as [| fuel IH]; intros fixed_point new_eps acc Hnd Hincl Hacc Hnew Hlen;
    destruct new_eps as [| x new_eps]; simpl;
    try (eexists; reflexivity).
  - exfalso. apply NoDup_incl_length in Hincl; [| exact Hnd].
    rewrite length_app, length_map in Hincl. simpl in Hincl, Hlen. lia.
  - apply (IH _ _ (acc ++ x :: new_eps)).
    + apply NoDup_app; [exact Hnd | apply set_difference_NoDup |].
      intros y Hy Hy'. apply set_difference_In in Hy'. destruct Hy' as [_ Hy'].
      apply Hy'. apply in_app_iff in Hy. apply in_app_iff.
      destruct Hy as [Hy | Hy]; [left; apply Hacc, Hy | right; exact Hy].
    + intros y Hy. apply in_app_iff in Hy. destruct Hy as [Hy | Hy].
      * apply Hincl, Hy.
      * apply set_difference_In in Hy. destruct Hy as [Hy _].
        eapply move_on_dest, Hy.
    + intros y Hy. apply in_app_iff in Hy. apply in_app_iff.
      destruct Hy as [Hy | Hy]; [left; apply Hacc, Hy | right; exact Hy].
    + intros y Hy. apply set_difference_In in Hy. tauto.
    + rewrite length_app. simpl. lia.
Qed.

(** With more fuel than transitions plus one, the closure returns. *)
Lemma epsilon_closure_returns (fuel : nat) (nodes_ : list Z) :
  (List.length (transitions self) + 1 < fuel)%nat ->
  exists r, epsilon_closure self fuel nodes_ = Returns r.
Proof.
  intros Hfuel. unfold epsilon_closure.
  destruct fuel as [| fuel]; [lia |].
  destruct (move_on self nodes_ "") as [| x new_eps] eqn:E; simpl.
  - eexists; reflexivity.
  - apply (epsilon_closure_loop_returns _ _ _ []); simpl.
    + apply set_difference_NoDup.
    + intros y Hy. apply set_difference_In in Hy. destruct Hy as [Hy _].
      eapply move_on_dest, Hy.
    + intros y [].
    + intros y Hy. apply set_difference_In in Hy. tauto.
    + lia.
Qed.

End SubsetFacts.

(** ** The loop of the subset construction *)

Lemma filter_subsequences {A : Type} (f : A -> bool) (l : list A) :
  In (filter f l) (subsequences l).
Proof.
  induction l as [| x l IH]; simpl; [auto |].
  apply in_app_iff. destruct (f x); [left; apply in_map, IH | right; exact IH].
Qed.

Lemma index_nth (states : list (list Z)) (state : list Z) (z : Z) :
  index states state = Returns z ->
  exists k, z = Z.of_nat k /\ nth_error states k = Some state.
Proof.
  unfold index. destruct (position states state) as [k |] eqn:E; intros H;
    [| discriminate].
  injection H as <-. exists k. split; [reflexivity |].
  apply position_nth, E.
Qed.

Lemma index_returns (states : list (list Z)) (state : list Z) :
  In state states -> exists z, index states state = Returns z.
Proof.
  intros H. apply position_In in H. destruct H as [k Hk].
  unfold index. rewrite Hk. eexists; reflexivity.
Qed.

Lemma nth_error_app_old {A : Type} (l : list A) (x y : A) (k : nat) :
  nth_error l k = Some y -> nth_error (l ++ [x]) k = Some y.
Proof.
  intros H. rewrite nth_error_app1; [exact H |].
  apply nth_error_Some. rewrite H. discriminate.
Qed.

Section SubsetLoop.

Context {order : SetOrder}.

Variable self : NFA.

Lemma move_on_candidate (cfuel : nat) (nodes_ : list Z) (a : string) :
  In (epsilon_closure self cfuel (move_on self nodes_ a))
     (candidates self cfuel).
Proof.
  right. unfold move_on.
  apply (in_map (fun ts => epsilon_closure self cfuel (sorted (map dest ts)))).
  apply filter_subsequences.
Qed.

(** Recording one more transition out of the current state, on a label not
    yet visited. *)
Lemma visiting_record (cfuel : nat) (current_state : list Z) (a : string)
    (rest : list string) (states : list (list Z)) (ts : list Transition)
    (terms : list Z) (q : list (list Z)) (p : list Z) (src dst : Z) :
  a <> "" ->
  visiting self cfuel current_state (a :: rest) (mkBuild states ts terms q) ->
  index states current_state = Returns src ->
  index states p = Returns dst ->
  visiting self cfuel current_state rest
    (mkBuild states (ts ++ [mkTransition a src dst]) terms q).
Proof.
  intros Ha [Hns Hq Hqi Hcur Hpop Hrest Henum Hts Hkeys Hterms Hne Hcand]
    Hsrc Hdst.
  simpl in *.
  apply index_nth in Hsrc. destruct Hsrc as [k [-> Hk]].
  apply index_nth in Hdst. destruct Hdst as [kd [-> Hkd]].
  apply NoDup_cons_iff in Hrest. destruct Hrest as [Harest Hrest].
  constructor; simpl; auto.
  - intros x Hx. apply Henum. right; exact Hx.
  - intros t Ht. apply in_app_iff in Ht. destruct Ht as [Ht | [<- | []]].
    + destruct (Hts t Ht) as [Hon [[state [k' [Hs [Hnth [Hnq Hr]]]]] Htgt]].
      split; [exact Hon |]. split; [| exact Htgt].
      exists state, k'.
      split; [exact Hs | split; [exact Hnth | split; [exact Hnq |]]].
      intros E Hin. apply (Hr E). right; exact Hin.
    + simpl. split; [exact Ha |]. split.
      * exists current_state, k. auto.
      * exists p, kd. auto.
  - rewrite map_app. apply NoDup_app; [exact Hkeys | |].
    + simpl. constructor; [intros [] | constructor].
    + intros key Hkey [<- | []].
      apply in_map_iff in Hkey. destruct Hkey as [t [Hkey Ht]].
      unfold transition_key in Hkey; simpl in Hkey.
      injection Hkey as Hsrc Hon.
      destruct (Hts t Ht) as [_ [[state [k' [Hs [Hnth [_ Hr]]]]] _]].
      rewrite Hs in Hsrc. apply Nat2Z.inj in Hsrc. subst k'.
      rewrite Hk in Hnth. injection Hnth as <-.
      apply (Hr eq_refl). left. symmetry; exact Hon.
Qed.

(** Registering a subset that was not in the registry, as an accept state
    when it holds the accept state of the NFA. *)
Lemma visiting_register (cfuel : nat) (current_state : list Z)
    (rest : list string) (states : list (list Z)) (ts : list Transition)
    (terms : list Z) (q : list (list Z)) (p : list Z) :
  visiting self cfuel current_state rest (mkBuild states ts terms q) ->
  ~ In p states -> p <> [] -> In (Returns p) (candidates self cfuel) ->
  visiting self cfuel current_state rest
    (mkBuild (states ++ [p]) ts
       (if contains p (term self)
        then terms ++ [Z.of_nat (List.length (states ++ [p])) - 1]
        else terms)
       (p :: q)).
Proof.
  intros [Hns Hq Hqi Hcur Hpop Hrest Henum Hts Hkeys Hterms Hne Hcand]
    Hp Hpne Hpc.
  simpl in *.
  assert (Hlast : nth_error (states ++ [p]) (List.length states) = Some p).
  { rewrite nth_error_app2, Nat.sub_diag; [reflexivity | lia]. }
  assert (Hnew : Z.of_nat (List.length (states ++ [p])) - 1
                 = Z.of_nat (List.length states)).
  { rewrite length_app. simpl. lia. }
  assert (Hlen : (1 <= List.length states)%nat).
  { destruct states; [contradiction | simpl; lia]. }
  constructor; simpl; auto.
  - apply NoDup_app; [exact Hns | constructor; [intros [] | constructor] |].
    intros x Hx [<- | []]. exact (Hp Hx).
  - constructor; [| exact Hq]. intros Hin. apply Hp, Hqi, Hin.
  - intros x [<- | Hx]; apply in_app_iff; [right; left; reflexivity |].
    left; apply Hqi, Hx.
  - apply in_app_iff; left; exact Hcur.
  - intros [E | Hin]; [| exact (Hpop Hin)]. subst p. exact (Hp Hcur).
  - intros t Ht.
    destruct (Hts t Ht)
      as [Hon [[state [k [Hs [Hnth [Hnq Hr]]]]] [target [kd [Hd Hnthd]]]]].
    split; [exact Hon |]. split.
    + exists state, k.
      split; [exact Hs | split; [| split; [| exact Hr]]].
      * apply nth_error_app_old, Hnth.
      * intros [E | Hin]; [| exact (Hnq Hin)]. subst p.
        apply Hp. eapply nth_error_In, Hnth.
    + exists target, kd. split; [exact Hd |].
      apply nth_error_app_old, Hnthd.
  - intros z. rewrite Hnew. split.
    + intros Hz.
      assert (Hcase : In z terms \/
                      (contains p (term self) = true /\
                       z = Z.of_nat (List.length states))).
      { destruct (contains p (term self)); [| left; exact Hz].
        apply in_app_iff in Hz. destruct Hz as [Hz | [<- | []]]; auto. }
      destruct Hcase as [Hz' | [Hc ->]].
      * apply Hterms in Hz'. destruct Hz' as [k [state [-> [Hk [Hnth Hin]]]]].
        exists k, state. repeat split; auto. apply nth_error_app_old, Hnth.
      * exists (List.length states), p. repeat split; auto.
        apply contains_In, Hc.
    + intros [k [state [-> [Hk [Hnth Hin]]]]].
      destruct (Nat.lt_ge_cases k (List.length states)) as [Hlt | Hge].
      * rewrite nth_error_app1 in Hnth by exact Hlt.
        assert (Hz : In (Z.of_nat k) terms)
          by (apply Hterms; exists k, state; auto).
        destruct (contains p (term self)); [apply in_app_iff; left |]; exact Hz.
      * rewrite nth_error_app2 in Hnth by exact Hge.
        destruct (k - List.length states)%nat as [| j] eqn:Ej;
          [| destruct j; discriminate].
        injection Hnth as <-.
        apply contains_In in Hin. rewrite Hin.
        apply in_app_iff. right. left. f_equal. lia.
  - intros state Hin. apply in_app_iff in Hin.
    destruct Hin as [Hin | [<- | []]]; auto.
  - intros state Hin. apply in_app_iff in Hin.
    destruct Hin as [Hin | [<- | []]]; auto.
Qed.

(** Skipping a label. *)
Lemma visiting_skip (cfuel : nat) (current_state : list Z) (a : string)
    (rest : list string) (b : Build) :
  visiting self cfuel current_state (a :: rest) b ->
  visiting self cfuel current_state rest b.
Proof.
  intros [Hns Hq Hqi Hcur Hpop Hrest Henum Hts Hkeys Hterms Hne Hcand].
  apply NoDup_cons_iff in Hrest. destruct Hrest as [Harest Hrest].
  constructor; auto.
  - intros x Hx. apply Henum. right; exact Hx.
  - intros t Ht.
    destruct (Hts t Ht) as [Hon [[state [k [Hs [Hnth [Hnq Hr]]]]] Htgt]].
    split; [exact Hon |]. split; [| exact Htgt].
    exists state, k.
    split; [exact Hs | split; [exact Hnth | split; [exact Hnq |]]].
    intros E Hin. apply (Hr E). right; exact Hin.
Qed.

(** One pass of the loop body keeps [visiting], and registers as many
    subsets as it queues. *)
Lemma visit_visiting (cfuel : nat) (current_state : list Z) (a : string)
    (rest : list string) (b b' : Build) :
  visiting self cfuel current_state (a :: rest) b ->
  visit self cfuel current_state b a = Returns b' ->
  visiting self cfuel current_state rest b' /\
  exists k, List.length (new_states b') = (List.length (new_states b) + k)%nat /\
            List.length (queue b') = (List.length (queue b) + k)%nat.
Proof.
  intros Hvis H. unfold visit in H.
  destruct (String.eqb a "") eqn:Ea.
  - injection H as <-. split; [eapply visiting_skip, Hvis |].
    exists O. split; lia.
  - apply String.eqb_neq in Ea.
    inv_bind H as p Hp.
    assert (Hpne : p <> []).
    { apply epsilon_closure_prefix in Hp. destruct Hp as [added ->].
      intros E. apply app_eq_nil in E. destruct E as [E _].
      revert E. apply enumerated_label_moves.
      apply (vis_rest_enumerated _ _ _ _ _ Hvis). left; reflexivity. }
    assert (Hpc : In (Returns p) (candidates self cfuel))
      by (rewrite <- Hp; apply move_on_candidate).
    destruct b as [states ts terms q]; cbn [new_states new_transitions
      new_term_states queue] in *.
    destruct (registered states p) eqn:Er; cbn [negb] in H;
      cbn [new_states new_transitions new_term_states queue] in H;
      inv_bind H as src Hsrc; inv_bind H as dst Hdst; injection H as <-.
    + split.
      * apply (visiting_record _ _ _ _ _ _ _ _ p);
          [exact Ea | exact Hvis | exact Hsrc | exact Hdst].
      * exists O. simpl. split; lia.
    + split.
      * apply (visiting_record _ _ _ _ _ _ _ _ p);
          [exact Ea | | exact Hsrc | exact Hdst].
        apply visiting_register; auto.
        intros Hin. apply registered_In in Hin. congruence.
      * exists 1%nat. simpl. rewrite length_app. simpl. split; lia.
Qed.

(** With enough fuel for the closure, one pass of the loop body returns. *)
Lemma visit_returns (cfuel : nat) (current_state : list Z) (a : string)
    (rest : list string) (b : Build) :
  (List.length (transitions self) + 1 < cfuel)%nat ->
  visiting self cfuel current_state (a :: rest) b ->
  exists b', visit self cfuel current_state b a = Returns b'.
Proof.
  intros Hfuel Hvis. unfold visit.
  destruct (String.eqb a ""); [eexists; reflexivity |].
  destruct (epsilon_closure_returns self cfuel
              (move_on self current_state a) Hfuel) as [p Hp].
  rewrite Hp; cbn [bind].
  assert (Hcur := vis_current_In _ _ _ _ _ Hvis).
  destruct (registered (new_states b) p) eqn:Er; cbn [negb new_states].
  - destruct (index_returns _ _ Hcur) as [src ->]; cbn [bind].
    apply registered_In in Er.
    destruct (index_returns _ _ Er) as [dst ->]; cbn [bind].
    eexists; reflexivity.
  - destruct (index_returns (new_states b ++ [p]) current_state) as [src ->];
      [apply in_app_iff; left; exact Hcur |]; cbn [bind].
    destruct (index_returns (new_states b ++ [p]) p) as [dst ->];
      [apply in_app_iff; right; left; reflexivity |]; cbn [bind].
    eexists; reflexivity.
Qed.

Lemma visit_all_visiting (cfuel : nat) (current_state : list Z)
    (labels : list string) (b b' : Build) :
  visiting self cfuel current_state labels b ->
  visit_all self cfuel current_state b labels = Returns b' ->
  visiting self cfuel current_state [] b' /\
  exists k, List.length (new_states b') = (List.length (new_states b) + k)%nat /\
            List.length (queue b') = (List.length (queue b) + k)%nat.
Proof.
  revert b. induction labels as [| a labels IH]; intros b Hvis H; simpl in H.
  - injection H as <-. split; [exact Hvis | exists O; split; lia].
  - inv_bind H as b1 Hb1.
    destruct (visit_visiting _ _ _ _ _ _ Hvis Hb1) as [Hvis1 [k1 [Hs1 Hq1]]].
    destruct (IH b1 Hvis1 H) as [Hvis' [k [Hs Hq]]].
    split; [exact Hvis' |]. exists (k1 + k)%nat. split; lia.
Qed.

Lemma visit_all_returns (cfuel : nat) (current_state : list Z)
    (labels : list string) (b : Build) :
  (List.length (transitions self) + 1 < cfuel)%nat ->
  visiting self cfuel current_state labels b ->
  exists b', visit_all self cfuel current_state b labels = Returns b'.
Proof.
  intros Hfuel. revert b.
  induction labels as [| a labels IH]; intros b Hvis; simpl.
  - eexists; reflexivity.
  - destruct (visit_returns _ _ _ _ _ Hfuel Hvis) as [b1 Hb1].
    rewrite Hb1; cbn [bind]. apply IH.
    eapply visit_visiting; eauto.
Qed.

Lemma visiting_settled (cfuel : nat) (current_state : list Z) (b : Build) :
  visiting self cfuel current_state [] b -> settled self cfuel b.
Proof.
  intros [Hns Hq Hqi Hcur Hpop Hrest Henum Hts Hkeys Hterms Hne Hcand].
  constructor; auto.
  intros t Ht.
  destruct (Hts t Ht) as [Hon [[state [k [Hs [Hnth [Hnq _]]]]] Htgt]].
  split; [exact Hon |]. split; [| exact Htgt]. exists state, k. auto.
Qed.

Lemma settled_pop (cfuel : nat) (states : list (list Z)) (ts : list Transition)
    (terms : list Z) (current_state : list Z) (q : list (list Z)) :
  settled self cfuel (mkBuild states ts terms (current_state :: q)) ->
  visiting self cfuel current_state (get_moves_for_nodes self current_state)
    (mkBuild states ts terms q).
Proof.
  intros [Hns Hq Hqi Hts Hkeys Hterms Hne Hcand]; simpl in *.
  apply NoDup_cons_iff in Hq. destruct Hq as [Hcq Hq].
  constructor; simpl; auto.
  - intros x Hx. apply Hqi. right; exact Hx.
  - apply Hqi. left; reflexivity.
  - apply get_moves_for_nodes_NoDup.
  - apply incl_refl.
  - intros t Ht.
    destruct (Hts t Ht) as [Hon [[state [k [Hs [Hnth Hnq]]]] Htgt]].
    split; [exact Hon |]. split; [| exact Htgt]. exists state, k.
    split; [exact Hs | split; [exact Hnth | split]].
    + intros Hin. apply Hnq. right; exact Hin.
    + intros E _. apply Hnq. left. symmetry; exact E.
Qed.

(** The loop keeps [settled] and ends with an empty work list. *)
Lemma to_dfa_loop_settled (cfuel fuel : nat) (b b' : Build) :
  settled self cfuel b ->
  to_dfa_loop self cfuel fuel b = Returns b' ->
  settled self cfuel b' /\ queue b' = [].
Proof.
  revert b. induction fuel as [| fuel IH]; intros b Hset H;
    destruct b as [states ts terms q]; destruct q as [| current_state q];
    simpl in H; try discriminate.
  - injection H as <-. split; [exact Hset | reflexivity].
  - injection H as <-. split; [exact Hset | reflexivity].
  - inv_bind H as b1 Hb1.
    apply settled_pop in Hset.
    destruct (visit_all_visiting _ _ _ _ _ Hset Hb1) as [Hvis _].
    apply IH in H; [exact H |]. eapply visiting_settled, Hvis.
Qed.

(** The registry holds distinct candidates, so the loop pops at most twice
    their number of states. *)
Lemma to_dfa_loop_returns (cfuel fuel : nat) (b : Build) :
  (List.length (transitions self) + 1 < cfuel)%nat ->
  settled self cfuel b ->
  (2 * List.length (candidates self cfuel) + List.length (queue b)
   < fuel + 2 * List.length (new_states b))%nat ->
  exists b', to_dfa_loop self cfuel fuel b = Returns b'.
Proof.
  intros Hfuel. revert b.
  induction fuel as [| fuel IH]; intros b Hset Hlen;
    destruct b as [states ts terms q]; destruct q as [| current_state q];
    simpl; try (eexists; reflexivity).
  - exfalso.
    assert (Hle : (List.length (map (@Returns (list Z)) states)
                   <= List.length (candidates self cfuel))%nat).
    { apply NoDup_incl_length.
      - apply Finite.Injective_map_NoDup;
          [| exact (set_states_NoDup _ _ _ Hset)].
        intros x y E. injection E as E; exact E.
      - intros o Ho. apply in_map_iff in Ho. destruct Ho as [state [<- Hin]].
        apply (set_candidates _ _ _ Hset), Hin. }
    rewrite length_map in Hle. cbn [queue new_states] in Hlen. lia.
  - apply settled_pop in Hset.
    destruct (visit_all_returns _ _ _ _ Hfuel Hset) as [b1 Hb1].
    rewrite Hb1; cbn [bind].
    destruct (visit_all_visiting _ _ _ _ _ Hset Hb1) as [Hvis [k [Hs Hq]]].
    apply IH; [eapply visiting_settled, Hvis |].
    cbn [queue new_states List.length] in Hlen, Hs, Hq |- *. lia.
Qed.

(** The state the loop starts from. *)
Lemma initial_settled (cfuel : nat) (new_initial_state : list Z) :
  epsilon_closure self cfuel [start self] = Returns new_initial_state ->
  settled self cfuel (mkBuild [new_initial_state] [] [] [new_initial_state]).
Proof.
  intros H. constructor; simpl.
  - constructor; [intros [] | constructor].
  - constructor; [intros [] | constructor].
  - apply incl_refl.
  - intros t [].
  - constructor.
  - intros z. split; [intros [] |].
    intros [k [state [_ [Hk [Hnth _]]]]].
    destruct k as [| [| k]]; [lia | discriminate | discriminate].
  - intros state [<- | []]. apply epsilon_closure_prefix in H.
    destruct H as [added ->]. discriminate.
  - intros state [<- | []]. left. exact H.
Qed.

End SubsetLoop.
(** ** The subset construction as a whole *)

Lemma to_dfa_build_settled {order : SetOrder} (self : NFA) (fuel : nat)
    (b : Build) :
  to_dfa_build self fuel = Returns b -> settled self fuel b /\ queue b = [].
Proof.
  unfold to_dfa_build. intros H. inv_bind H as new_initial_state Hinit.
  eapply to_dfa_loop_settled; [| exact H].
  apply initial_settled, Hinit.
Qed.

Lemma to_dfa_build_returns {order : SetOrder} (self : NFA) :
  exists b, to_dfa_build self (enough_fuel self) = Returns b.
Proof.
  assert (Hfuel : (List.length (transitions self) + 1 < enough_fuel self)%nat)
    by (unfold enough_fuel; lia).
  unfold to_dfa_build.
  destruct (epsilon_closure_returns self _ [start self] Hfuel) as [init Hinit].
  rewrite Hinit; cbn [bind].
  apply to_dfa_loop_returns; [exact Hfuel | apply initial_settled, Hinit |].
  unfold candidates; cbn [List.length queue new_states].
  rewrite length_map. unfold enough_fuel. lia.
Qed.

(** C9.  For every NFA (and every iteration order of Python sets),
    [to_dfa] returns a DFA, and in the DFA it returns no two transitions of
    the list have the same source state and label ([transition_key]): for
    every state [q] and label [a] at most one transition [(q, a, _)] is
    there, so two transitions out of [q] on [a] have the same destination;
    and no transition carries the epsilon label [""]. *)
Theorem to_dfa_deterministic (order : SetOrder) (self : NFA) :
  (exists fuel dfa, @to_dfa order self fuel = Returns dfa) /\
  (forall fuel dfa, @to_dfa order self fuel = Returns dfa ->
     NoDup (map transition_key (transitions dfa)) /\
     (forall t1 t2,
        In t1 (transitions dfa) -> In t2 (transitions dfa) ->
        source t1 = source t2 -> on t1 = on t2 -> t1 = t2) /\
     (forall t, In t (transitions dfa) -> on t <> "")).
Proof.
  split.
  - destruct (to_dfa_build_returns self) as [b Hb].
    exists (enough_fuel self). unfold to_dfa. rewrite Hb; cbn [bind].
    eexists; reflexivity.
  - intros fuel dfa H. unfold to_dfa in H. inv_bind H as b Hb.
    injection H as <-. cbn [transitions].
    apply to_dfa_build_settled in Hb. destruct Hb as [Hset _].
    assert (Hkeys := set_keys_NoDup _ _ _ Hset).
    split; [exact Hkeys | split].
    + intros t1 t2 H1 H2 Hs Ho.
      apply (NoDup_map_In_eq transition_key _ Hkeys); auto.
      unfold transition_key. congruence.
    + intros t Ht. exact (proj1 (set_transitions _ _ _ Hset t Ht)).
Qed.

(** C5, refuted.  There is no NFA whose subset construction registers a
    subset with an enumerated label whose move set is empty, records a
    transition on that label and registers the empty set. *)
Lemma no_empty_move_in_to_dfa :
  ~ exists (order : SetOrder) (self : NFA) (fuel : nat) (b : Build)
      (state : list Z) (a : string),
      @to_dfa_build order self fuel = Returns b /\
      In state (new_states b) /\
      In a (get_moves_for_nodes self state) /\
      move_on self state a = [] /\
      (exists t, In t (new_transitions b) /\ on t = a) /\
      In [] (new_states b).
Proof.
  intros [order [self [fuel [b [state [a [_ [_ [Ha [Hmove _]]]]]]]]]].
  exact (enumerated_label_moves self state a Ha Hmove).
Qed.

(** C5, as the code has it.  For every NFA, a label enumerated for a
    collection of states always has a non-empty move set; [to_dfa] returns,
    and when it does every registered subset is non-empty and every recorded
    transition leads to a registered, non-empty subset: the empty set is
    never registered. *)
Theorem to_dfa_registers_no_empty_subset (order : SetOrder) (self : NFA) :
  (forall nodes_ a,
     In a (get_moves_for_nodes self nodes_) -> move_on self nodes_ a <> []) /\
  (exists fuel b, @to_dfa_build order self fuel = Returns b) /\
  (forall fuel b, @to_dfa_build order self fuel = Returns b ->
     ~ In [] (new_states b) /\
     (forall t, In t (new_transitions b) ->
        exists target k,
          dest t = Z.of_nat k /\ nth_error (new_states b) k = Some target /\
          target <> [])).
Proof.
  split; [apply enumerated_label_moves |]. split.
  - exists (enough_fuel self). apply to_dfa_build_returns.
  - intros fuel b Hb. apply to_dfa_build_settled in Hb. destruct Hb as [Hset _].
    split.
    + intros Hin. exact (set_nonempty _ _ _ Hset [] Hin eq_refl).
    + intros t Ht.
      destruct (set_transitions _ _ _ Hset t Ht)
        as [_ [_ [target [k [Hd Hnth]]]]].
      exists target, k. split; [exact Hd | split; [exact Hnth |]].
      apply (set_nonempty _ _ _ Hset). eapply nth_error_In, Hnth.
Qed.


(** ** The construction on the regex [a*] *)

Lemma parse_a_star :
  parse 10 (RegexString_init "a*")
  = Returns (Some regex_a_star, mkRegexString "a*" 1).
Proof. vm_compute. reflexivity. Qed.

Lemma to_nfa_a_star : to_nfa regex_a_star = Returns nfa_a_star.
Proof. vm_compute. reflexivity. Qed.

(** The run of [to_dfa] on the NFA of [a*], whatever the iteration order:
    the start subset [0, 1, 2] is registered at index 0, the subset reached
    on [a] is the list [1, 0, 2], which is registered at index 1, and the
    only accept state recorded is 1. *)
Lemma to_dfa_build_a_star (order : SetOrder) :
  @to_dfa_build order nfa_a_star 10
  = Returns (mkBuild [[0; 1; 2]; [1; 0; 2]]
               [mkTransition "a" 0 1; mkTransition "a" 1 1] [1] []).
Proof.
  repeat (whnf_lhs; step_set_difference).
  vm_compute. reflexivity.
Qed.

(** C1, at its failing input.  On the NFA of [a*], whatever the iteration
    order, the subset registered at index 0 is [0, 1, 2]; it contains the
    NFA accept state 2, and yet 0 is not among the accept states of the DFA
    that [to_dfa] returns: only the subsets met inside the loop are tested. *)
Theorem to_dfa_start_subset_not_accepting (order : SetOrder) :
  exists b,
    @to_dfa_build order nfa_a_star 10 = Returns b /\
    @to_dfa order nfa_a_star 10
    = Returns (mkFA (new_transitions b) 0 (new_term_states b)) /\
    nth_error (new_states b) 0 = Some [0; 1; 2] /\
    In (term nfa_a_star) [0; 1; 2] /\
    ~ In 0 (new_term_states b).
Proof.
  eexists. split; [apply to_dfa_build_a_star |].
  split; [unfold to_dfa; rewrite to_dfa_build_a_star; reflexivity |].
  cbn. repeat split; auto.
  intros [H | []]. discriminate.
Qed.

(** C4, at its failing input.  On the NFA of [a*], whatever the iteration
    order, the DFA states 0 and 1 are registered with the lists [0, 1, 2]
    and [1, 0, 2]: two different lists, one set of NFA states. *)
Theorem to_dfa_registers_one_set_twice (order : SetOrder) :
  exists b,
    @to_dfa_build order nfa_a_star 10 = Returns b /\
    nth_error (new_states b) 0 = Some [0; 1; 2] /\
    nth_error (new_states b) 1 = Some [1; 0; 2] /\
    (forall x, In x [0; 1; 2] <-> In x [1; 0; 2]).
Proof.
  eexists. split; [apply to_dfa_build_a_star |].
  cbn. repeat split; intros; simpl in *; tauto.
Qed.


(** ** What the construction does guarantee *)

(** The accept states [to_dfa] records are exactly the positions, other
    than 0, of the registered subsets that contain the accept state of the
    NFA: the subset of the start state is never tested. *)
Theorem to_dfa_accept_states (order : SetOrder) (self : NFA) (fuel : nat)
    (b : Build) (z : Z) :
  @to_dfa_build order self fuel = Returns b ->
  (In z (new_term_states b) <->
   exists k state,
     z = Z.of_nat k /\ (1 <= k)%nat /\
     nth_error (new_states b) k = Some state /\ In (term self) state).
Proof.
  intros Hb. apply to_dfa_build_settled in Hb. destruct Hb as [Hset _].
  apply (set_terms _ _ _ Hset).
Qed.

Lemma to_dfa_accept_states_witness :
  In 1 [1] <->
  exists k state,
    1 = Z.of_nat k /\ (1 <= k)%nat /\
    nth_error [[0; 1; 2]; [1; 0; 2]] k = Some state /\ In 2 state.
Proof.
  exact (to_dfa_accept_states ascending nfa_a_star 10 _ 1
           (to_dfa_build_a_star ascending)).
Defined.

(** The registry never holds the same list twice: two DFA states are two
    different lists of NFA states (which may still be the same set). *)
Theorem to_dfa_registry_NoDup (order : SetOrder) (self : NFA) (fuel : nat)
    (b : Build) :
  @to_dfa_build order self fuel = Returns b ->
  NoDup (new_states b) /\ queue b = [].
Proof.
  intros Hb. apply to_dfa_build_settled in Hb. destruct Hb as [Hset Hq].
  split; [exact (set_states_NoDup _ _ _ Hset) | exact Hq].
Qed.

Lemma to_dfa_registry_NoDup_witness :
  NoDup [[0; 1; 2]; [1; 0; 2]] /\ @nil (list Z) = [].
Proof.
  exact (to_dfa_registry_NoDup ascending nfa_a_star 10 _
           (to_dfa_build_a_star ascending)).
Defined.

(** ** The cursor and the parser *)

(** C3, at its failing input.  At end of input, for every source, [pop]
    returns [""] without advancing, and [RegChar.from_buf] then reports no
    match after [push_back]: the cursor is left one position before where it
    was, not where it was. *)
Theorem RegChar_from_buf_at_eof_moves_back (src : string) :
  is_eof (mkRegexString src (len src)) = true /\
  RegChar_from_buf (mkRegexString src (len src))
  = Returns (None, mkRegexString src (len src - 1)) /\
  i (mkRegexString src (len src - 1)) <> i (mkRegexString src (len src)).
Proof.
  unfold RegChar_from_buf, pop, is_eof; cbn [s i].
  rewrite Z.eqb_refl; cbn. repeat split; lia.
Qed.

(** Away from the end of input a failed [RegChar.from_buf] does leave the
    cursor where it was. *)
Theorem RegChar_from_buf_no_match_restores (buf buf' : RegexString) :
  is_eof buf = false ->
  RegChar_from_buf buf = Returns (None, buf') -> buf' = buf.
Proof.
  intros Heof H. unfold RegChar_from_buf, pop in H. rewrite Heof in H.
  cbn [bind] in H. destruct (getitem (s buf) (i buf)) as [c | e |];
    cbn [bind] in H; try discriminate.
  destruct (isalnum c); [discriminate |].
  injection H as <-. destruct buf as [src pos]. unfold push_back; cbn [s i].
  f_equal. lia.
Qed.

Lemma RegChar_from_buf_no_match_restores_witness :
  mkRegexString ")" 0 = mkRegexString ")" 0.
Proof.
  apply (RegChar_from_buf_no_match_restores
           (mkRegexString ")" 0) (mkRegexString ")" 0));
    vm_compute; reflexivity.
Defined.

Lemma RegUnity_from_buf_no_match (fuel : nat) (src : string) :
  starts_expression src = false ->
  exists buf',
    RegUnity_from_buf (S fuel) (RegexString_init src) = Returns (None, buf').
Proof.
  intros Hstart. destruct src as [| c rest].
  - eexists. reflexivity.
  - simpl in Hstart. apply orb_false_iff in Hstart. destruct Hstart as [Hal Hpar].
    cbn [RegUnity_from_buf]. unfold peek, RegChar_from_buf, pop, is_eof,
      RegexString_init, getitem, len; cbn [s i String.length].
    rewrite Nat2Z.inj_succ.
    assert (E1 : (0 =? Z.succ (Z.of_nat (String.length rest))) = false)
      by (apply Z.eqb_neq; lia).
    assert (E2 : (0 <? Z.succ (Z.of_nat (String.length rest))) = true)
      by (apply Z.ltb_lt; lia).
    rewrite E1. cbn. rewrite E2. cbn.
    rewrite Hpar. cbn. rewrite Hal. cbn. eexists; reflexivity.
Qed.

(** C7, refuted.  On the empty source the top-level parse raises nothing:
    it returns [False], the value of "no match" (and leaves the cursor at
    -1). *)
Lemma parse_empty_returns_False :
  parse 4 (RegexString_init "") = Returns (None, mkRegexString "" (-1)).
Proof. vm_compute. reflexivity. Qed.

(** C7, as the code has it.  Whenever the source is empty or starts with
    a character that is neither alphanumeric nor an opening parenthesis, so
    that the top-level [RegDisj] matches nothing, the top-level parse raises
    no error: given four units of fuel or more it returns [False]. *)
Theorem parse_no_match_returns_False (fuel : nat) (src : string) :
  (4 <= fuel)%nat ->
  starts_expression src = false ->
  exists buf', parse fuel (RegexString_init src) = Returns (None, buf').
Proof.
  intros Hfuel Hstart.
  do 4 (destruct fuel as [| fuel]; [lia |]).
  destruct (RegUnity_from_buf_no_match fuel src Hstart) as [buf' E].
  exists buf'. unfold parse.
  cbn [RegDisj_from_buf RegConcat_from_buf RegQuality_from_buf].
  rewrite E. reflexivity.
Qed.

Lemma parse_no_match_returns_False_witness :
  exists buf', parse 4 (RegexString_init "") = Returns (None, buf').
Proof.
  apply (parse_no_match_returns_False 4 ""); [lia | reflexivity].
Defined.

(** Conversely the top-level parse returns [False] on no other source. *)
Lemma RegConcat_loop_matched (fuel : nat) (exps : list Reg) (exp : option Reg)
    (buf buf' : RegexString) (v : option Reg) :
  RegConcat_loop fuel exps exp buf = Returns (v, buf') ->
  exps <> [] \/ exp <> None -> v <> None.
Proof.
  revert exps exp buf.
  induction fuel as [| fuel IH]; intros exps exp buf H Hsome;
    destruct exp as [e |]; cbn [RegConcat_loop] in H; try discriminate.
  - injection H as <- _. destruct exps; [| discriminate].
    destruct Hsome as [Hsome | Hsome]; congruence.
  - inv_bind H as r Hr. destruct r as [exp' buf1].
    apply IH in H; [exact H |]. left. destruct exps; discriminate.
  - injection H as <- _. destruct exps; [| discriminate].
    destruct Hsome as [Hsome | Hsome]; congruence.
Qed.

Lemma RegDisj_loop_matched (fuel : nat) (exps : list Reg) (exp : option Reg)
    (buf buf' : RegexString) (v : option Reg) :
  RegDisj_loop fuel exps exp buf = Returns (v, buf') ->
  exps <> [] \/ exp <> None -> v <> None.
Proof.
  revert exps exp buf.
  induction fuel as [| fuel IH]; intros exps exp buf H Hsome;
    destruct exp as [e |]; cbn [RegDisj_loop] in H.
  - inv_bind H as c Hc. destruct (String.eqb c "|"); [discriminate |].
    injection H as <- _. destruct exps; discriminate.
  - injection H as <- _. destruct exps; [| discriminate].
    destruct Hsome as [Hsome | Hsome]; congruence.
  - inv_bind H as c Hc. destruct (String.eqb c "|").
    + inv_bind H as r1 Hr1. destruct r1 as [c1 buf1].
      inv_bind H as r2 Hr2. destruct r2 as [exp' buf2].
      apply IH in H; [exact H |]. left. destruct exps; discriminate.
    + injection H as <- _. destruct exps; discriminate.
  - injection H as <- _. destruct exps; [| discriminate].
    destruct Hsome as [Hsome | Hsome]; congruence.
Qed.

Lemma RegUnity_from_buf_matched (fuel : nat) (src : string)
    (buf' : RegexString) (v : option Reg) :
  starts_expression src = true ->
  RegUnity_from_buf fuel (RegexString_init src) = Returns (v, buf') ->
  v <> None.
Proof.
  intros Hstart H. destruct fuel as [| fuel]; [discriminate |].
  destruct src as [| c rest]; [discriminate |]. simpl in Hstart.
  cbn [RegUnity_from_buf] in H.
  unfold peek, RegChar_from_buf, pop, is_eof, RegexString_init, getitem, len
    in H; cbn [s i String.length] in H.
  rewrite Nat2Z.inj_succ in H.
  assert (E1 : (0 =? Z.succ (Z.of_nat (String.length rest))) = false)
    by (apply Z.eqb_neq; lia).
  assert (E2 : (0 <? Z.succ (Z.of_nat (String.length rest))) = true)
    by (apply Z.ltb_lt; lia).
  rewrite E1 in H. cbn in H. rewrite E2 in H. cbn in H.
  destruct (Ascii.eqb c "(") eqn:Hpar.
  - cbn in H. inv_bind H as r Hr. destruct r as [g buf1].
    injection H as <- _. discriminate.
  - rewrite orb_false_r in Hstart. cbn in H.
    rewrite Hstart in H. cbn in H.
    injection H as <- _. discriminate.
Qed.

Theorem parse_False_only_on_no_match (fuel : nat) (src : string)
    (buf' : RegexString) :
  parse fuel (RegexString_init src) = Returns (None, buf') ->
  starts_expression src = false.
Proof.
  intros H. destruct (starts_expression src) eqn:Hstart; [| reflexivity].
  exfalso. unfold parse in H.
  destruct fuel as [| fuel]; [discriminate |].
  cbn [RegDisj_from_buf] in H. inv_bind H as r Hr. destruct r as [exp buf1].
  apply RegDisj_loop_matched in H; [congruence |]. right.
  destruct fuel as [| fuel]; [discriminate |].
  cbn [RegConcat_from_buf] in Hr. inv_bind Hr as r Hq. destruct r as [q buf2].
  apply RegConcat_loop_matched in Hr; [exact Hr |]. right.
  destruct fuel as [| fuel]; [discriminate |].
  cbn [RegQuality_from_buf] in Hq. inv_bind Hq as r Hu. destruct r as [u buf3].
  apply RegUnity_from_buf_matched in Hu; [| exact Hstart].
  destruct u as [e |]; [| congruence].
  inv_bind Hq as c Hc.
  destruct (String.eqb c "*" || String.eqb c "+").
  - inv_bind Hq as r Hpop. destruct r as [qualifier buf4].
    injection Hq as <- _. discriminate.
  - injection Hq as <- _. discriminate.
Qed.

Lemma parse_False_only_on_no_match_witness : starts_expression ")" = false.
Proof.
  apply (parse_False_only_on_no_match 4 ")" (mkRegexString ")" 0)).
  vm_compute. reflexivity.
Defined.

(** C8, at its failing input.  In [((a)] the first [(] is never closed.
    The inner group is closed by the [)]; the failed [RegChar.from_buf] at
    end of input then moves the cursor back onto that [)], and the outer
    group reads it a second time as its own: nothing is raised. *)
Theorem parse_unclosed_group_returns :
  parse 30 (RegexString_init "((a)")
  = Returns (Some (grouped (grouped regex_a)), mkRegexString "((a)" 3).
Proof. vm_compute. reflexivity. Qed.

(** The single [(] does raise. *)
Lemma parse_open_paren_raises :
  parse 30 (RegexString_init "(")
  = Raises (ValueError "no closing ) for group").
Proof. vm_compute. reflexivity. Qed.

(** ** Trailing input *)

Lemma isalnum_char_not_paren (c : ascii) :
  isalnum_char c = true -> Ascii.eqb c "(" = false.
Proof.
  intros H. destruct (Ascii.eqb_spec c "(") as [-> | _];
    [vm_compute in H; discriminate | reflexivity].
Qed.

Lemma is_eof_inside (src : string) (pos : Z) :
  0 <= pos < len src -> is_eof (mkRegexString src pos) = false.
Proof. intros H. unfold is_eof; cbn [s i]. apply Z.eqb_neq. lia. Qed.

Lemma getitem_inside (src : string) (pos : Z) (c : ascii) :
  0 <= pos < len src -> String.get (Z.to_nat pos) src = Some c ->
  getitem src pos = Returns (String c "").
Proof.
  intros H Hget. unfold getitem.
  replace (pos <? 0) with false by (symmetry; apply Z.ltb_ge; lia).
  replace (0 <=? pos) with true by (symmetry; apply Z.leb_le; lia).
  replace (pos <? len src) with true by (symmetry; apply Z.ltb_lt; lia).
  cbn [andb]. rewrite Hget. reflexivity.
Qed.

(** A family of sources with trailing input: an alphanumeric character
    followed by a closing parenthesis and anything.  The parse returns the
    expression of the character and leaves the cursor on the parenthesis. *)
Lemma parse_char_then_closing_paren (fuel : nat) (c : ascii) (rest : string) :
  (7 <= fuel)%nat -> isalnum_char c = true ->
  parse fuel (RegexString_init (String c (String ")" rest)))
  = Returns (Some (RegDisj [RegConcat
               [RegQuality (RegUnity (Some (RegChar (String c "")))) ""]]),
             mkRegexString (String c (String ")" rest)) 1).
Proof.
  intros Hfuel Hc. do 7 (destruct fuel as [| fuel]; [lia |]).
  set (src := String c (String ")" rest)).
  assert (Hlen : 2 <= len src).
  { unfold len, src; cbn [String.length]. lia. }
  assert (E0 : is_eof (mkRegexString src 0) = false)
    by (apply is_eof_inside; lia).
  assert (E1 : is_eof (mkRegexString src 1) = false)
    by (apply is_eof_inside; lia).
  assert (G0 : getitem src 0 = Returns (String c ""))
    by (apply getitem_inside; [lia | reflexivity]).
  assert (G1 : getitem src 1 = Returns ")")
    by (apply getitem_inside; [lia | reflexivity]).
  assert (Hpar := isalnum_char_not_paren c Hc).
  assert (Hcl : isalnum ")" = false) by (vm_compute; reflexivity).
  unfold parse, RegexString_init. fold src.
  cbn [RegDisj_from_buf RegConcat_from_buf RegQuality_from_buf
       RegUnity_from_buf].
  unfold peek at 1. rewrite E0; cbn [s i]. rewrite G0.
  cbn [bind String.eqb]. rewrite Hpar.
  unfold RegChar_from_buf at 1, pop at 1. rewrite E0; cbn [s i]. rewrite G0.
  cbn [bind isalnum all_alnum]. rewrite Hc. cbn [andb bind Z.add Pos.add].
  unfold peek at 1. rewrite E1; cbn [s i]. rewrite G1.
  cbn [bind String.eqb Ascii.eqb Bool.eqb andb orb].
  cbn [RegConcat_loop RegQuality_from_buf RegUnity_from_buf].
  unfold peek at 1. rewrite E1; cbn [s i]. rewrite G1.
  cbn [bind String.eqb Ascii.eqb Bool.eqb andb orb].
  unfold RegChar_from_buf at 1, pop at 1. rewrite E1; cbn [s i]. rewrite G1.
  cbn [bind]. rewrite Hcl.
  cbn [bind RegConcat_loop RegDisj_loop cls_if_any app].
  unfold push_back; cbn [s i]. replace (1 + 1 - 1) with 1 by lia.
  unfold peek at 1. rewrite E1; cbn [s i]. rewrite G1.
  cbn [bind String.eqb Ascii.eqb Bool.eqb andb orb cls_if_any]. reflexivity.
Qed.

(** C2, refuted.  On the source [a)] the top-level [RegDisj] succeeds with
    the cursor before the [)], not at end of input, and the top-level parse
    returns that partial expression: nothing is raised. *)
Lemma parse_trailing_input_returns :
  parse 7 (RegexString_init "a)")
  = Returns (Some regex_a, mkRegexString "a)" 1)
  /\ is_eof (mkRegexString "a)" 1) = false.
Proof. split; vm_compute; reflexivity. Qed.

(** C2, as the code has it.  For every source on which the top-level
    [RegDisj] succeeds with the cursor not at end of input, the top-level
    parse returns the expression parsed so far, with the cursor where
    [RegDisj] left it; it does not look at [is_eof] and raises nothing.  So
    it is for every source made of an alphanumeric character, a closing
    parenthesis and anything after (the source [a)] for one): with seven
    units of fuel or more the parse returns the expression of the character
    and leaves the cursor on the parenthesis. *)
Theorem parse_returns_partial_expression (fuel : nat) :
  (forall buf buf' exp,
     RegDisj_from_buf fuel buf = Returns (Some exp, buf') ->
     is_eof buf' = false ->
     parse fuel buf = Returns (Some exp, buf')) /\
  (forall c rest,
     (7 <= fuel)%nat -> isalnum_char c = true ->
     parse fuel (RegexString_init (String c (String ")" rest)))
     = Returns (Some (RegDisj [RegConcat
                  [RegQuality (RegUnity (Some (RegChar (String c "")))) ""]]),
                mkRegexString (String c (String ")" rest)) 1) /\
     is_eof (mkRegexString (String c (String ")" rest)) 1) = false).
Proof.
  split.
  - intros buf buf' exp H _. exact H.
  - intros c rest Hfuel Hc. split.
    + apply parse_char_then_closing_paren; assumption.
    + apply is_eof_inside. unfold len; cbn [String.length]. lia.
Qed.

Lemma parse_returns_partial_expression_witness :
  parse 7 (RegexString_init "a)")
  = Returns (Some regex_a, mkRegexString "a)" 1) /\
  is_eof (mkRegexString "a)" 1) = false.
Proof.
  apply (proj2 (parse_returns_partial_expression 7) "a"%char "");
    [lia | reflexivity].
Defined.

(** * Further properties *)

(** ** What [epsilon_closure] computes *)

Section ClosureMeaning.

Context {order : SetOrder}.

Variable self : NFA.

Lemma eps_step_move_on (nodes_ : list Z) (x y : Z) :
  In x nodes_ -> eps_step self x y -> In y (move_on self nodes_ "").
Proof.
  intros Hx [t [Ht [Hon [Hs Hd]]]]. apply move_on_In.
  exists t. subst. auto.
Qed.

Lemma move_on_eps_step (nodes_ : list Z) (y : Z) :
  In y (move_on self nodes_ "") -> exists x, In x nodes_ /\ eps_step self x y.
Proof.
  intros Hy. apply move_on_In in Hy. destruct Hy as [t [Ht [Hon [Hs Hd]]]].
  exists (source t). split; [exact Hs |]. exists t. auto.
Qed.

(** The loop keeps three things: what it holds is reachable, it holds the
    states it started from, and every epsilon successor of a state already
    in [fixed_point] is in [fixed_point] or waiting in [new_eps]. *)
Lemma epsilon_closure_loop_reachable (nodes_ : list Z) (fuel : nat)
    (fixed_point new_eps r : list Z) :
  epsilon_closure_loop self fuel fixed_point new_eps = Returns r ->
  (forall x, In x (fixed_point ++ new_eps) -> eps_reachable self nodes_ x) ->
  incl nodes_ fixed_point ->
  (forall x y, In x fixed_point -> eps_step self x y ->
     In y fixed_point \/ In y new_eps) ->
  forall x, In x r <-> eps_reachable self nodes_ x.
Proof.
  revert fixed_point new_eps.
  induction fuel as [| fuel IH]; intros fixed_point new_eps H Hreach Hnodes Hsucc;
    destruct new_eps as [| n new_eps]; simpl in H; try discriminate.
  1, 2: injection H as <-; intros x; split;
    [ intros Hx; apply Hreach, in_app_iff; left; exact Hx
    | induction 1 as [x Hx | x y _ IHx Hstep];
      [ apply Hnodes, Hx
      | destruct (Hsucc x y IHx Hstep) as [Hy | []]; exact Hy ] ].
  apply (IH _ _ H).
  - intros x Hx. apply in_app_iff in Hx. destruct Hx as [Hx | Hx].
    + apply Hreach, Hx.
    + apply set_difference_In in Hx. destruct Hx as [Hx _].
      apply move_on_eps_step in Hx. destruct Hx as [x0 [Hx0 Hstep]].
      apply (eps_next _ _ x0); [| exact Hstep].
      apply Hreach, in_app_iff. right; exact Hx0.
  - intros x Hx. apply in_app_iff. left; apply Hnodes, Hx.
  - intros x y Hx Hstep.
    destruct (in_dec Z.eq_dec y (fixed_point ++ n :: new_eps)) as [Hin | Hout];
      [left; exact Hin |].
    right. apply set_difference_In. split; [| exact Hout].
    apply in_app_iff in Hx. destruct Hx as [Hx | Hx].
    + exfalso. apply Hout, in_app_iff. apply (Hsucc x y Hx Hstep).
    + apply (eps_step_move_on _ x); assumption.
Qed.

End ClosureMeaning.

Lemma epsilon_closure_meaning (order : SetOrder) (self : NFA)
    (fuel : nat) (nodes_ r : list Z) (x : Z) :
  @epsilon_closure order self fuel nodes_ = Returns r ->
  (In x r <-> eps_reachable self nodes_ x).
Proof.
  intros H. revert x.
  apply (epsilon_closure_loop_reachable self nodes_ fuel nodes_
           (move_on self nodes_ "") r H).
  - intros x Hx. apply in_app_iff in Hx. destruct Hx as [Hx | Hx].
    + apply eps_here, Hx.
    + apply move_on_eps_step in Hx. destruct Hx as [x0 [Hx0 Hstep]].
      apply (eps_next _ _ x0); [apply eps_here, Hx0 | exact Hstep].
  - apply incl_refl.
  - intros x y Hx Hstep. right. apply (eps_step_move_on _ _ x); assumption.
Qed.

(** When [epsilon_closure] returns, it returns a list that holds exactly
    the states reachable from [nodes] along epsilon transitions. *)
Theorem epsilon_closure_reachable (order : SetOrder) (self : NFA)
    (fuel : nat) (nodes_ r : list Z) (x : Z) :
  @epsilon_closure order self fuel nodes_ = Returns r ->
  (In x r <-> eps_reachable self nodes_ x).
Proof.
  exact (epsilon_closure_meaning order self fuel nodes_ r x).
Qed.

Lemma epsilon_closure_reachable_witness :
  In 2 [0; 1; 2] <-> eps_reachable nfa_a_star [0] 2.
Proof.
  apply (epsilon_closure_reachable ascending nfa_a_star 10 [0] [0; 1; 2] 2).
  vm_compute. reflexivity.
Defined.

(** [epsilon_closure] always terminates: with more fuel than there are
    transitions plus one it returns, and what it returns starts with the
    states it was given, in the order given. *)
Theorem epsilon_closure_terminates (order : SetOrder) (self : NFA)
    (fuel : nat) (nodes_ : list Z) :
  (List.length (transitions self) + 1 < fuel)%nat ->
  exists r added,
    @epsilon_closure order self fuel nodes_ = Returns r /\
    r = nodes_ ++ added.
Proof.
  intros Hfuel.
  destruct (epsilon_closure_returns self fuel nodes_ Hfuel) as [r Hr].
  destruct (epsilon_closure_prefix self fuel nodes_ r Hr) as [added Hadd].
  exists r, added. split; assumption.
Qed.

Lemma epsilon_closure_terminates_witness :
  exists r added,
    @epsilon_closure ascending nfa_a_star 6 [1] = Returns r /\
    r = [1] ++ added.
Proof.
  apply (epsilon_closure_terminates ascending nfa_a_star 6 [1]).
  vm_compute. lia.
Defined.

(** ** What [to_dfa] records *)

Section RecordedLoop.

Context {order : SetOrder}.

Variable self : NFA.

Lemma recorded_skip (cfuel : nat) (current_state : list Z)
    (rest : list string) (b : Build) :
  recorded self cfuel current_state ("" :: rest) b ->
  recorded self cfuel current_state rest b.
Proof.
  intros [Hstart Hsound Hcomplete]. constructor; auto.
  intros k state a Hnth Hq Hrest Ha Hne.
  apply (Hcomplete k state a); auto.
  intros E [Hin | Hin]; [congruence | exact (Hrest E Hin)].
Qed.

Lemma recorded_record (cfuel : nat) (current_state : list Z) (a : string)
    (rest : list string) (states : list (list Z)) (ts : list Transition)
    (terms : list Z) (q : list (list Z)) (p : list Z) (src dst : Z) :
  a <> "" -> NoDup states ->
  In a (get_moves_for_nodes self current_state) ->
  epsilon_closure self cfuel (move_on self current_state a) = Returns p ->
  recorded self cfuel current_state (a :: rest) (mkBuild states ts terms q) ->
  index states current_state = Returns src ->
  index states p = Returns dst ->
  recorded self cfuel current_state rest
    (mkBuild states (ts ++ [mkTransition a src dst]) terms q).
Proof.
  intros Ha Hnd Hlabel Hp [Hstart Hsound Hcomplete] Hsrc Hdst.
  cbn [new_states new_transitions new_term_states queue] in *.
  apply index_nth in Hsrc. destruct Hsrc as [k0 [-> Hk0]].
  apply index_nth in Hdst. destruct Hdst as [kd [-> Hkd]].
  constructor; cbn [new_states new_transitions new_term_states queue]; auto.
  - intros t Ht. apply in_app_iff in Ht. destruct Ht as [Ht | [<- | []]].
    + apply Hsound, Ht.
    + exists current_state, k0, p, kd. simpl. repeat split; auto.
  - intros k state a' Hnth Hq Hrest Ha' Hne.
    destruct (list_eq_dec Z.eq_dec state current_state) as [Es | Ns];
      [destruct (string_dec a' a) as [Ea | Na] |].
    + subst. exists (mkTransition a (Z.of_nat k0) (Z.of_nat kd)).
      split; [apply in_app_iff; right; left; reflexivity |].
      split; [reflexivity |]. simpl. f_equal.
      apply (proj1 (NoDup_nth_error states) Hnd).
      * apply nth_error_Some. rewrite Hk0. discriminate.
      * congruence.
    + destruct (Hcomplete k state a' Hnth Hq) as [t [Ht Hrem]];
        [ intros E [Hin | Hin]; [congruence | exact (Hrest E Hin)]
        | exact Ha' | exact Hne | ].
      exists t. split; [apply in_app_iff; left; exact Ht | exact Hrem].
    + destruct (Hcomplete k state a' Hnth Hq) as [t [Ht Hrem]];
        [ intros E; contradiction | exact Ha' | exact Hne | ].
      exists t. split; [apply in_app_iff; left; exact Ht | exact Hrem].
Qed.

Lemma recorded_register (cfuel : nat) (current_state : list Z)
    (rest : list string) (states : list (list Z)) (ts : list Transition)
    (terms terms' : list Z) (q : list (list Z)) (p : list Z) :
  recorded self cfuel current_state rest (mkBuild states ts terms q) ->
  recorded self cfuel current_state rest
    (mkBuild (states ++ [p]) ts terms' (p :: q)).
Proof.
  intros [Hstart Hsound Hcomplete].
  cbn [new_states new_transitions new_term_states queue] in *.
  constructor; cbn [new_states new_transitions new_term_states queue].
  - destruct Hstart as [init [Hinit Hnth]]. exists init.
    split; [exact Hinit | apply nth_error_app_old, Hnth].
  - intros t Ht.
    destruct (Hsound t Ht) as [state [k [p' [kd [H1 [H2 H3]]]]]].
    exists state, k, p', kd.
    split; [apply nth_error_app_old, H1 |].
    split; [apply nth_error_app_old, H2 | exact H3].
  - intros k state a Hnth Hq Hrest Ha Hne.
    apply (Hcomplete k state a); [| | exact Hrest | exact Ha | exact Hne].
    + destruct (Nat.lt_ge_cases k (List.length states)) as [Hlt | Hge].
      * rewrite nth_error_app1 in Hnth by exact Hlt. exact Hnth.
      * exfalso. rewrite nth_error_app2 in Hnth by exact Hge.
        destruct (k - List.length states)%nat as [| j];
          [| destruct j; discriminate].
        injection Hnth as <-. apply Hq. left; reflexivity.
    + intros Hin. apply Hq. right; exact Hin.
Qed.

Lemma visit_recorded (cfuel : nat) (current_state : list Z) (a : string)
    (rest : list string) (b b' : Build) :
  visiting self cfuel current_state (a :: rest) b ->
  recorded self cfuel current_state (a :: rest) b ->
  visit self cfuel current_state b a = Returns b' ->
  recorded self cfuel current_state rest b'.
Proof.
  intros Hvis Hrec H. unfold visit in H.
  destruct (String.eqb a "") eqn:Ea.
  - apply String.eqb_eq in Ea. subst a. injection H as <-.
    apply recorded_skip, Hrec.
  - apply String.eqb_neq in Ea.
    inv_bind H as p Hp.
    assert (Hlabel : In a (get_moves_for_nodes self current_state))
      by (apply (vis_rest_enumerated _ _ _ _ _ Hvis); left; reflexivity).
    assert (Hnd := vis_states_NoDup _ _ _ _ _ Hvis).
    destruct b as [states ts terms q]; cbn [new_states new_transitions
      new_term_states queue] in *.
    destruct (registered states p) eqn:Er; cbn [negb] in H;
      cbn [new_states new_transitions new_term_states queue] in H;
      inv_bind H as src Hsrc; inv_bind H as dst Hdst; injection H as <-.
    + apply (recorded_record _ _ _ _ _ _ _ _ p); auto.
    + apply (recorded_record _ _ _ _ _ _ _ _ p); auto.
      * apply NoDup_app; [exact Hnd | constructor; [intros [] | constructor] |].
        intros x Hx [<- | []].
        apply registered_In in Hx. congruence.
      * apply (recorded_register _ _ _ _ _ terms). exact Hrec.
Qed.

Lemma visit_all_recorded (cfuel : nat) (current_state : list Z)
    (labels : list string) (b b' : Build) :
  visiting self cfuel current_state labels b ->
  recorded self cfuel current_state labels b ->
  visit_all self cfuel current_state b labels = Returns b' ->
  recorded self cfuel current_state [] b'.
Proof.
  revert b. induction labels as [| a labels IH]; intros b Hvis Hrec H;
    simpl in H.
  - injection H as <-. exact Hrec.
  - inv_bind H as b1 Hb1.
    apply (IH b1); [| | exact H].
    + exact (proj1 (visit_visiting _ _ _ _ _ _ _ Hvis Hb1)).
    + exact (visit_recorded _ _ _ _ _ _ Hvis Hrec Hb1).
Qed.

Lemma recorded_pop (cfuel : nat) (previous : list Z)
    (states : list (list Z)) (ts : list Transition) (terms : list Z)
    (current_state : list Z) (q : list (list Z)) :
  recorded self cfuel previous [] (mkBuild states ts terms (current_state :: q)) ->
  recorded self cfuel current_state (get_moves_for_nodes self current_state)
    (mkBuild states ts terms q).
Proof.
  intros [Hstart Hsound Hcomplete].
  cbn [new_states new_transitions new_term_states queue] in *.
  constructor; cbn [new_states new_transitions new_term_states queue]; auto.
  intros k state a Hnth Hq Hrest Ha Hne.
  apply (Hcomplete k state a);
    [exact Hnth | | intros _ [] | exact Ha | exact Hne].
  intros [E | Hin]; [| exact (Hq Hin)].
  subst state. exact (Hrest eq_refl Ha).
Qed.

Lemma to_dfa_loop_recorded (cfuel fuel : nat) (previous : list Z)
    (b b' : Build) :
  settled self cfuel b ->
  recorded self cfuel previous [] b ->
  to_dfa_loop self cfuel fuel b = Returns b' ->
  exists last, recorded self cfuel last [] b'.
Proof.
  revert previous b. induction fuel as [| fuel IH]; intros previous b Hset Hrec H;
    destruct b as [states ts terms q]; destruct q as [| current_state q];
    simpl in H; try discriminate.
  - injection H as <-. exists previous; exact Hrec.
  - injection H as <-. exists previous; exact Hrec.
  - inv_bind H as b1 Hb1.
    apply settled_pop in Hset. apply recorded_pop in Hrec.
    destruct (visit_all_visiting _ _ _ _ _ _ Hset Hb1) as [Hvis _].
    apply (IH current_state b1); [| | exact H].
    + eapply visiting_settled, Hvis.
    + exact (visit_all_recorded _ _ _ _ _ Hset Hrec Hb1).
Qed.

Lemma to_dfa_build_recorded (fuel : nat) (b : Build) :
  to_dfa_build self fuel = Returns b ->
  exists last, recorded self fuel last [] b.
Proof.
  unfold to_dfa_build. intros H. inv_bind H as init Hinit.
  apply (to_dfa_loop_recorded fuel fuel [] _ _ (initial_settled _ _ _ Hinit));
    [| exact H].
  constructor; cbn [new_states new_transitions new_term_states queue].
  - exists init. auto.
  - intros t [].
  - intros k state a Hnth Hq. exfalso. apply Hq.
    destruct k as [| k]; simpl in Hnth.
    + injection Hnth as <-. left; reflexivity.
    + destruct k; discriminate.
Qed.

End RecordedLoop.

(** ** The DFA and the NFA it was built from *)

Lemma subsequences_length {A : Type} (l : list A) :
  List.length (subsequences l) = (2 ^ List.length l)%nat.
Proof.
  induction l as [| x l IH]; simpl; [reflexivity |].
  rewrite length_app, length_map, IH. lia.
Qed.

Lemma eps_reachable_from (self : NFA) (nodes_ : list Z) (y : Z) :
  eps_reachable self nodes_ y <->
  exists z, In z nodes_ /\ eps_reachable self [z] y.
Proof.
  split.
  - induction 1 as [x Hx | x y _ [z [Hz IH]] Hstep].
    + exists x. split; [exact Hx | apply eps_here; left; reflexivity].
    + exists z. split; [exact Hz | exact (eps_next _ _ _ _ IH Hstep)].
  - intros [z [Hz H]].
    induction H as [x [<- | []] | x y _ IH Hstep].
    + apply eps_here, Hz.
    + exact (eps_next _ _ _ _ IH Hstep).
Qed.

(** The subset at index 0 is the epsilon closure of the start state of the
    NFA, that is the states reachable from it along epsilon transitions,
    and 0 is the start state of the DFA. *)
Theorem to_dfa_start_is_closure (order : SetOrder) (self : NFA) (fuel : nat)
    (b : Build) :
  @to_dfa_build order self fuel = Returns b ->
  @to_dfa order self fuel
  = Returns (mkFA (new_transitions b) 0 (new_term_states b)) /\
  exists init,
    nth_error (new_states b) 0 = Some init /\
    @epsilon_closure order self fuel [start self] = Returns init /\
    forall x, In x init <-> eps_reachable self [start self] x.
Proof.
  intros Hb. split; [unfold to_dfa; rewrite Hb; reflexivity |].
  destruct (to_dfa_build_recorded self fuel b Hb) as [last Hrec].
  destruct (rec_start _ _ _ _ _ Hrec) as [init [Hinit Hnth]].
  exists init. split; [exact Hnth | split; [exact Hinit |]].
  intros x. apply (epsilon_closure_meaning order self fuel _ _ x Hinit).
Qed.

Lemma to_dfa_start_is_closure_witness :
  @to_dfa ascending nfa_a_star 10
  = Returns (mkFA (new_transitions build_a_star) 0
               (new_term_states build_a_star)) /\
  exists init,
    nth_error (new_states build_a_star) 0 = Some init /\
    @epsilon_closure ascending nfa_a_star 10 [start nfa_a_star]
    = Returns init /\
    forall x, In x init <-> eps_reachable nfa_a_star [start nfa_a_star] x.
Proof.
  exact (to_dfa_start_is_closure ascending nfa_a_star 10 build_a_star
           (to_dfa_build_a_star ascending)).
Defined.

(** The recorded transitions are the transition function of the subset
    construction: for every registered subset and every label other than
    epsilon that leaves it, the transition from the index of the subset to
    the index of the closure of its move on that label is recorded; and
    every recorded transition is one of these. *)
Theorem to_dfa_transition_function (order : SetOrder) (self : NFA)
    (fuel : nat) (b : Build) :
  @to_dfa_build order self fuel = Returns b ->
  (forall k state a,
     nth_error (new_states b) k = Some state ->
     In a (get_moves_for_nodes self state) -> a <> "" ->
     exists p kd,
       @epsilon_closure order self fuel (move_on self state a) = Returns p /\
       nth_error (new_states b) kd = Some p /\
       In (mkTransition a (Z.of_nat k) (Z.of_nat kd)) (new_transitions b)) /\
  (forall t, In t (new_transitions b) ->
     exists state k p kd,
       t = mkTransition (on t) (Z.of_nat k) (Z.of_nat kd) /\
       nth_error (new_states b) k = Some state /\
       In (on t) (get_moves_for_nodes self state) /\ on t <> "" /\
       @epsilon_closure order self fuel (move_on self state (on t))
       = Returns p /\
       nth_error (new_states b) kd = Some p).
Proof.
  intros Hb.
  destruct (to_dfa_build_recorded self fuel b Hb) as [last Hrec].
  destruct (to_dfa_build_settled self fuel b Hb) as [Hset Hq].
  assert (Hsound :
    forall t, In t (new_transitions b) ->
      exists state k p kd,
        t = mkTransition (on t) (Z.of_nat k) (Z.of_nat kd) /\
        nth_error (new_states b) k = Some state /\
        In (on t) (get_moves_for_nodes self state) /\ on t <> "" /\
        @epsilon_closure order self fuel (move_on self state (on t))
        = Returns p /\
        nth_error (new_states b) kd = Some p).
  { intros t Ht.
    destruct (rec_sound _ _ _ _ _ Hrec t Ht)
      as [state [k [p [kd [H1 [H2 [H3 [H4 [H5 [H6 H7]]]]]]]]]].
    exists state, k, p, kd. repeat split; auto.
    destruct t as [o sr ds]; simpl in *. congruence. }
  split; [| exact Hsound].
  intros k state a Hnth Ha Hne.
  destruct (rec_complete _ _ _ _ _ Hrec k state a Hnth) as [t [Ht [Hon Hsrc]]];
    auto.
  { rewrite Hq. intros []. }
  destruct (Hsound t Ht) as [state' [k' [p [kd [Et [H1 [H2 [H3 [H4 H5]]]]]]]]].
  assert (k' = k).
  { rewrite Et in Hsrc; simpl in Hsrc. apply Nat2Z.inj in Hsrc. exact Hsrc. }
  subst k'. rewrite Hnth in H1. injection H1 as <-. rewrite Hon in *.
  exists p, kd. split; [exact H4 | split; [exact H5 |]].
  rewrite <- Et. exact Ht.
Qed.

Lemma to_dfa_transition_function_witness :
  (forall k state a,
     nth_error (new_states build_a_star) k = Some state ->
     In a (get_moves_for_nodes nfa_a_star state) -> a <> "" ->
     exists p kd,
       @epsilon_closure ascending nfa_a_star 10 (move_on nfa_a_star state a)
       = Returns p /\
       nth_error (new_states build_a_star) kd = Some p /\
       In (mkTransition a (Z.of_nat k) (Z.of_nat kd))
          (new_transitions build_a_star)) /\
  (forall t, In t (new_transitions build_a_star) ->
     exists state k p kd,
       t = mkTransition (on t) (Z.of_nat k) (Z.of_nat kd) /\
       nth_error (new_states build_a_star) k = Some state /\
       In (on t) (get_moves_for_nodes nfa_a_star state) /\ on t <> "" /\
       @epsilon_closure ascending nfa_a_star 10
         (move_on nfa_a_star state (on t)) = Returns p /\
       nth_error (new_states build_a_star) kd = Some p).
Proof.
  exact (to_dfa_transition_function ascending nfa_a_star 10 build_a_star
           (to_dfa_build_a_star ascending)).
Defined.

(** The DFA has at most [2 ^ n + 1] states for an NFA of [n] transitions:
    a registered subset is the closure of the start state or the closure of
    the sorted destinations of some of the transitions. *)
Theorem to_dfa_state_bound (order : SetOrder) (self : NFA) (fuel : nat)
    (b : Build) :
  @to_dfa_build order self fuel = Returns b ->
  (1 <= List.length (new_states b)
   <= 2 ^ List.length (transitions self) + 1)%nat.
Proof.
  intros Hb.
  destruct (to_dfa_build_recorded self fuel b Hb) as [last Hrec].
  destruct (to_dfa_build_settled self fuel b Hb) as [Hset _].
  split.
  - destruct (rec_start _ _ _ _ _ Hrec) as [init [_ Hnth]].
    destruct (new_states b); [discriminate | simpl; lia].
  - assert (Hle : (List.length (map (@Returns (list Z)) (new_states b))
                   <= List.length (candidates self fuel))%nat).
    { apply NoDup_incl_length.
      - apply Finite.Injective_map_NoDup;
          [| exact (set_states_NoDup _ _ _ Hset)].
        intros x y E. injection E as E; exact E.
      - intros o Ho. apply in_map_iff in Ho. destruct Ho as [state [<- Hin]].
        apply (set_candidates _ _ _ Hset), Hin. }
    rewrite length_map in Hle. unfold candidates in Hle.
    cbn [List.length] in Hle.
    rewrite length_map, subsequences_length in Hle. lia.
Qed.

Lemma to_dfa_state_bound_witness :
  (1 <= List.length (new_states build_a_star)
   <= 2 ^ List.length (transitions nfa_a_star) + 1)%nat.
Proof.
  exact (to_dfa_state_bound ascending nfa_a_star 10 build_a_star
           (to_dfa_build_a_star ascending)).
Defined.

(** Every registered subset is closed under epsilon transitions. *)
Theorem to_dfa_subsets_closed (order : SetOrder) (self : NFA) (fuel : nat)
    (b : Build) (state : list Z) (x y : Z) :
  @to_dfa_build order self fuel = Returns b ->
  In state (new_states b) -> In x state -> eps_step self x y ->
  In y state.
Proof.
  intros Hb Hstate Hx Hstep.
  destruct (to_dfa_build_settled self fuel b Hb) as [Hset _].
  assert (Hc := set_candidates _ _ _ Hset state Hstate).
  assert (Hseed : exists seed,
            @epsilon_closure order self fuel seed = Returns state).
  { destruct Hc as [Hc | Hc].
    - exists [start self]. exact Hc.
    - apply in_map_iff in Hc. destruct Hc as [ts [Hc _]].
      exists (sorted (map dest ts)). exact Hc. }
  destruct Hseed as [seed Hseed].
  apply (epsilon_closure_meaning order self fuel seed state y Hseed).
  apply (eps_next _ _ x); [| exact Hstep].
  apply (epsilon_closure_meaning order self fuel seed state x Hseed), Hx.
Qed.

Lemma to_dfa_subsets_closed_witness : In 2 [1; 0; 2].
Proof.
  apply (to_dfa_subsets_closed ascending nfa_a_star 10 build_a_star
           [1; 0; 2] 1 2 (to_dfa_build_a_star ascending)).
  - right; left; reflexivity.
  - left; reflexivity.
  - exists (mkTransition "" 1 2).
    split; [right; right; right; left; reflexivity |].
    split; [reflexivity | split; reflexivity].
Defined.

(** ** Runs of the DFA against runs of the NFA *)

Lemma nfa_reads_nil_inv (self : NFA) (x : Z) :
  nfa_reads self [] x -> eps_reachable self [start self] x.
Proof.
  intros H. remember (@nil string) as w eqn:Ew.
  destruct H as [x H | w a x y t _ _ _ _ _ _]; [exact H |].
  destruct w; discriminate.
Qed.

Lemma nfa_reads_snoc_inv (self : NFA) (w : list string) (a : string) (y : Z) :
  nfa_reads self (w ++ [a]) y ->
  a <> "" /\
  exists x t,
    nfa_reads self w x /\ In t (transitions self) /\ on t = a /\
    source t = x /\ eps_reachable self [dest t] y.
Proof.
  intros H. remember (w ++ [a]) as wa eqn:Ew.
  destruct H as [x H | w' a' x y t Hw Hne Ht Hon Hsrc Hy].
  - destruct w; discriminate.
  - apply app_inj_tail in Ew. destruct Ew as [-> ->].
    split; [exact Hne |]. exists x, t. auto.
Qed.

Section Runs.

Context {order : SetOrder}.
Variable self : NFA.
Variable fuel : nat.
Variable b : Build.
Hypothesis Hb : to_dfa_build self fuel = Returns b.

(** A run of the DFA ends at the index of the subset of the NFA states
    that the word read can lead to. *)
Lemma dfa_run_tracks (w : list string) (q : Z) :
  dfa_reads (new_transitions b) w q ->
  exists k state,
    q = Z.of_nat k /\ nth_error (new_states b) k = Some state /\
    forall x, In x state <-> nfa_reads self w x.
Proof.
  destruct (to_dfa_build_recorded self fuel b Hb) as [last Hrec].
  induction 1 as [| w a q t Hrun IH Ht Hsrc Hon].
  - destruct (rec_start _ _ _ _ _ Hrec) as [init [Hinit Hnth]].
    exists 0%nat, init. split; [reflexivity | split; [exact Hnth |]].
    intros x.
    rewrite (epsilon_closure_meaning order self fuel [start self] init x Hinit).
    split; [apply nfa_reads_nil | apply nfa_reads_nil_inv].
  - destruct IH as [k [state [-> [Hnth Hstate]]]].
    destruct (rec_sound _ _ _ _ _ Hrec t Ht)
      as [state' [k' [p [kd [H1 [H2 [H3 [H4 [H5 [H6 H7]]]]]]]]]].
    rewrite H6 in Hsrc. apply Nat2Z.inj in Hsrc. subst k'.
    rewrite Hnth in H1. injection H1 as <-. rewrite Hon in *.
    exists kd, p. split; [exact H7 | split; [exact H2 |]].
    intros y.
    rewrite (epsilon_closure_meaning order self fuel _ p y H5).
    rewrite eps_reachable_from. split.
    + intros [z [Hz Hy]].
      apply move_on_In in Hz. destruct Hz as [t' [Ht' [Hon' [Hsrc' Hdst']]]].
      apply (nfa_reads_snoc self w a (source t') y t'); auto.
      * apply Hstate, Hsrc'.
      * rewrite Hdst'. exact Hy.
    + intros Hy. apply nfa_reads_snoc_inv in Hy.
      destruct Hy as [_ [x [t' [Hx [Ht' [Hon' [Hsrc' Hy]]]]]]].
      exists (dest t'). split; [| exact Hy].
      apply move_on_In. exists t'. repeat split; auto.
      rewrite Hsrc'. apply Hstate, Hx.
Qed.

(** Every word the NFA can read, the DFA can read. *)
Lemma nfa_run_followed (w : list string) (x : Z) :
  nfa_reads self w x -> exists q, dfa_reads (new_transitions b) w q.
Proof.
  destruct (to_dfa_build_recorded self fuel b Hb) as [last Hrec].
  destruct (to_dfa_build_settled self fuel b Hb) as [_ Hq].
  induction 1 as [x Hx | w a x y t Hw [q IH] Hne Ht Hon Hsrc Hy].
  - exists 0. apply dfa_reads_nil.
  - destruct (dfa_run_tracks w q IH) as [k [state [-> [Hnth Hstate]]]].
    destruct (rec_complete _ _ _ _ _ Hrec k state a Hnth)
      as [t' [Ht' [Hon' Hsrc']]].
    + rewrite Hq. intros [].
    + intros _ [].
    + apply get_moves_for_nodes_In. exists t. repeat split; auto.
      rewrite Hsrc. apply Hstate, Hw.
    + exact Hne.
    + exists (dest t').
      apply (dfa_reads_snoc _ w a (Z.of_nat k) t'); auto.
Qed.

End Runs.

(** The DFA follows the NFA word by word: a run of the DFA on a word ends
    at the index of the subset holding exactly the NFA states that word can
    lead to, and the DFA can read every word the NFA can read. *)
Theorem to_dfa_tracks_nfa (order : SetOrder) (self : NFA) (fuel : nat)
    (b : Build) :
  @to_dfa_build order self fuel = Returns b ->
  (forall w q,
     dfa_reads (new_transitions b) w q ->
     exists k state,
       q = Z.of_nat k /\ nth_error (new_states b) k = Some state /\
       forall x, In x state <-> nfa_reads self w x) /\
  (forall w x,
     nfa_reads self w x -> exists q, dfa_reads (new_transitions b) w q).
Proof.
  intros Hb. split.
  - intros w q. apply (dfa_run_tracks self fuel b Hb).
  - intros w x. apply (nfa_run_followed self fuel b Hb).
Qed.

Lemma to_dfa_tracks_nfa_witness :
  (forall w q,
     dfa_reads (new_transitions build_a_star) w q ->
     exists k state,
       q = Z.of_nat k /\ nth_error (new_states build_a_star) k = Some state /\
       forall x, In x state <-> nfa_reads nfa_a_star w x) /\
  (forall w x,
     nfa_reads nfa_a_star w x ->
     exists q, dfa_reads (new_transitions build_a_star) w q).
Proof.
  exact (to_dfa_tracks_nfa ascending nfa_a_star 10 build_a_star
           (to_dfa_build_a_star ascending)).
Defined.

Lemma to_dfa_language_sides (order : SetOrder) (self : NFA) (fuel : nat)
    (dfa : DFA) :
  @to_dfa order self fuel = Returns dfa ->
  (forall w q,
     dfa_reads (transitions dfa) w q -> In q (term dfa) ->
     nfa_reads self w (term self)) /\
  (forall w,
     nfa_reads self w (term self) ->
     exists q, dfa_reads (transitions dfa) w q /\
               (q <> 0 -> In q (term dfa))).
Proof.
  unfold to_dfa. intros H.
  destruct (to_dfa_build self fuel) as [b | e |] eqn:Hb; try discriminate.
  simpl in H. injection H as <-. cbn [transitions term start].
  destruct (to_dfa_build_settled self fuel b Hb) as [Hset _].
  split.
  - intros w q Hrun Hq.
    destruct (dfa_run_tracks self fuel b Hb w q Hrun)
      as [k [state [-> [Hnth Hstate]]]].
    apply (set_terms _ _ _ Hset) in Hq.
    destruct Hq as [k' [state' [Hk [_ [Hnth' Hterm]]]]].
    apply Nat2Z.inj in Hk. subst k'.
    rewrite Hnth in Hnth'. injection Hnth' as <-.
    apply Hstate, Hterm.
  - intros w Hw.
    destruct (nfa_run_followed self fuel b Hb w _ Hw) as [q Hrun].
    exists q. split; [exact Hrun |]. intros Hq0.
    destruct (dfa_run_tracks self fuel b Hb w q Hrun)
      as [k [state [-> [Hnth Hstate]]]].
    apply (set_terms _ _ _ Hset). exists k, state.
    split; [reflexivity |]. split; [| split; [exact Hnth |]].
    + destruct k; [exfalso; apply Hq0; reflexivity | lia].
    + apply Hstate, Hw.
Qed.


(** The language of the DFA: a word the DFA accepts is accepted by the NFA;
    a word the NFA accepts is read by the DFA to a state that is an accept
    state unless it is state 0, the start subset. *)
Theorem to_dfa_language (order : SetOrder) (self : NFA) (fuel : nat)
    (dfa : DFA) :
  @to_dfa order self fuel = Returns dfa ->
  (forall w q,
     dfa_reads (transitions dfa) w q -> In q (term dfa) ->
     nfa_reads self w (term self)) /\
  (forall w,
     nfa_reads self w (term self) ->
     exists q, dfa_reads (transitions dfa) w q /\
               (q <> 0 -> In q (term dfa))).
Proof.
  exact (to_dfa_language_sides order self fuel dfa).
Qed.

Lemma to_dfa_language_witness :
  (forall w q,
     dfa_reads [mkTransition "a" 0 1; mkTransition "a" 1 1] w q ->
     In q [1] -> nfa_reads nfa_a_star w (term nfa_a_star)) /\
  (forall w,
     nfa_reads nfa_a_star w (term nfa_a_star) ->
     exists q, dfa_reads [mkTransition "a" 0 1; mkTransition "a" 1 1] w q /\
               (q <> 0 -> In q [1])).
Proof.
  apply (to_dfa_language ascending nfa_a_star 10
           (mkFA [mkTransition "a" 0 1; mkTransition "a" 1 1] 0 [1])).
  unfold to_dfa. rewrite (to_dfa_build_a_star ascending). reflexivity.
Defined.

(** ** Runs of an NFA *)

Lemma path_app (ts : list Transition) (x y z : Z) (w1 w2 : list string) :
  path ts x w1 y -> path ts y w2 z -> path ts x (w1 ++ w2) z.
Proof.
  induction 1 as [x | x t w y Ht Hs Ho _ IH | x t w y Ht Hs Ho _ IH];
    intros H2; simpl.
  - exact H2.
  - exact (path_eps ts x t _ z Ht Hs Ho (IH H2)).
  - exact (path_on ts x t _ z Ht Hs Ho (IH H2)).
Qed.

Lemma path_incl (ts ts' : list Transition) (x y : Z) (w : list string) :
  incl ts ts' -> path ts x w y -> path ts' x w y.
Proof.
  intros Hincl.
  induction 1 as [x | x t w y Ht Hs Ho _ IH | x t w y Ht Hs Ho _ IH].
  - apply path_here.
  - exact (path_eps ts' x t w y (Hincl t Ht) Hs Ho IH).
  - exact (path_on ts' x t w y (Hincl t Ht) Hs Ho IH).
Qed.

Lemma path_relabel (f : Z -> Z) (ts : list Transition) (x y : Z)
    (w : list string) :
  path ts x w y -> path (map (relabel f) ts) (f x) w (f y).
Proof.
  induction 1 as [x | x t w y Ht Hs Ho _ IH | x t w y Ht Hs Ho _ IH].
  - apply path_here.
  - apply (path_eps _ (f x) (relabel f t) w (f y)); auto.
    + apply in_map, Ht.
    + simpl. rewrite Hs. reflexivity.
  - apply (path_on _ (f x) (relabel f t) w (f y)); auto.
    + apply in_map, Ht.
    + simpl. rewrite Hs. reflexivity.
Qed.

Lemma relabel_inverse (f g : Z -> Z) (ts : list Transition) :
  (forall z, g (f z) = z) -> map (relabel g) (map (relabel f) ts) = ts.
Proof.
  intros Hgf. rewrite map_map. rewrite <- (map_id ts) at 2.
  apply map_ext. intros [o sr ds]. unfold relabel; simpl.
  rewrite !Hgf. reflexivity.
Qed.

(** Under a renaming that has an inverse, the runs are the same. *)
Lemma path_relabel_iff (f g : Z -> Z) (ts : list Transition) (x y : Z)
    (w : list string) :
  (forall z, g (f z) = z) ->
  path (map (relabel f) ts) (f x) w (f y) <-> path ts x w y.
Proof.
  intros Hgf. split; [| apply path_relabel].
  intros H. apply (path_relabel g) in H.
  rewrite (relabel_inverse f g ts Hgf), !Hgf in H. exact H.
Qed.

(** A run ends where it starts or at the destination of a transition. *)
Lemma path_end (ts : list Transition) (x y : Z) (w : list string) :
  path ts x w y -> (y = x /\ w = []) \/ exists t, In t ts /\ dest t = y.
Proof.
  induction 1 as [x | x t w y Ht Hs Ho _ IH | x t w y Ht Hs Ho _ IH].
  - left. split; reflexivity.
  - right. destruct IH as [[-> _] | IH]; [exists t; auto | exact IH].
  - right. destruct IH as [[-> _] | IH]; [exists t; auto | exact IH].
Qed.

(** The first transition of a run. *)
Lemma path_first (ts : list Transition) (x y : Z) (w : list string) :
  path ts x w y ->
  (y = x /\ w = []) \/
  exists t, In t ts /\ source t = x /\
    ((on t = "" /\ path ts (dest t) w y) \/
     (on t <> "" /\ exists w', w = on t :: w' /\ path ts (dest t) w' y)).
Proof.
  intros H.
  destruct H as [x | x t w y Ht Hs Ho Hrest | x t w y Ht Hs Ho Hrest].
  - left. split; reflexivity.
  - right. exists t. auto.
  - right. exists t. split; [exact Ht |]. split; [exact Hs |].
    right. split; [exact Ho |]. exists w. auto.
Qed.

(** From a state that no transition leaves, a run goes nowhere. *)
Lemma path_sink (ts : list Transition) (x y : Z) (w : list string) :
  (forall t, In t ts -> source t <> x) ->
  path ts x w y -> y = x /\ w = [].
Proof.
  intros Hsink H.
  destruct H as [x | x t w y Ht Hs Ho _ | x t w y Ht Hs Ho _].
  - split; reflexivity.
  - destruct (Hsink t Ht Hs).
  - destruct (Hsink t Ht Hs).
Qed.

(** A run that starts in a region which only the transitions of [inner]
    leave, and which they do not leave, is a run of [inner] and stays
    there. *)
Lemma path_closed (ts inner : list Transition) (S : Z -> Prop)
    (x y : Z) (w : list string) :
  (forall t, In t ts -> S (source t) -> In t inner /\ S (dest t)) ->
  S x -> path ts x w y -> path inner x w y /\ S y.
Proof.
  intros Hclosed Hx H.
  induction H as [x | x t w y Ht Hs Ho _ IH | x t w y Ht Hs Ho _ IH].
  - split; [apply path_here | exact Hx].
  - rewrite <- Hs in Hx. destruct (Hclosed t Ht Hx) as [Hin Hd].
    destruct (IH Hd) as [Hp Hy].
    split; [exact (path_eps inner x t w y Hin Hs Ho Hp) | exact Hy].
  - rewrite <- Hs in Hx. destruct (Hclosed t Ht Hx) as [Hin Hd].
    destruct (IH Hd) as [Hp Hy].
    split; [exact (path_on inner x t w y Hin Hs Ho Hp) | exact Hy].
Qed.

(** A run either stays among the transitions of [inner], or runs among
    them up to the first state of the region [S]. *)
Lemma path_split (ts inner : list Transition) (S : Z -> bool)
    (x y : Z) (w : list string) :
  (forall t, In t ts -> S (source t) = false -> In t inner) ->
  path ts x w y ->
  path inner x w y \/
  exists w1 w2 z,
    w = w1 ++ w2 /\ path inner x w1 z /\ S z = true /\ path ts z w2 y.
Proof.
  intros Hout H.
  induction H as [x | x t w y Ht Hs Ho Hrest IH | x t w y Ht Hs Ho Hrest IH].
  - left. apply path_here.
  - destruct (S x) eqn:Sx.
    + right. exists [], w, x. split; [reflexivity |].
      split; [apply path_here | split; [exact Sx |]].
      exact (path_eps ts x t w y Ht Hs Ho Hrest).
    + rewrite <- Hs in Sx. assert (Hin := Hout t Ht Sx).
      destruct IH as [IH | [w1 [w2 [z [-> [H1 [Sz H2]]]]]]].
      * left. exact (path_eps inner x t w y Hin Hs Ho IH).
      * right. exists w1, w2, z. split; [reflexivity |].
        split; [exact (path_eps inner x t w1 z Hin Hs Ho H1) | auto].
  - destruct (S x) eqn:Sx.
    + right. exists [], (on t :: w), x. split; [reflexivity |].
      split; [apply path_here | split; [exact Sx |]].
      exact (path_on ts x t w y Ht Hs Ho Hrest).
    + rewrite <- Hs in Sx. assert (Hin := Hout t Ht Sx).
      destruct IH as [IH | [w1 [w2 [z [-> [H1 [Sz H2]]]]]]].
      * left. exact (path_on inner x t w y Hin Hs Ho IH).
      * right. exists (on t :: w1), w2, z. split; [reflexivity |].
        split; [exact (path_on inner x t w1 z Hin Hs Ho H1) | auto].
Qed.

(** A run to a state [T] that only the epsilon transition from [e] enters
    and nothing leaves, from a region whose other transitions are those of
    [inner], is a run of [inner] to [e]. *)
Lemma path_exit (ts inner : list Transition) (S : Z -> Prop) (e T : Z)
    (x : Z) (w : list string) :
  (forall t, In t ts -> S (source t) ->
     (In t inner /\ S (dest t)) \/ t = mkTransition "" e T) ->
  (forall t, In t ts -> source t <> T) ->
  ~ S T -> S x ->
  path ts x w T -> path inner x w e.
Proof.
  intros Hregion Hsink HT Hx H.
  remember T as y eqn:Ey in H. revert Hx.
  induction H as [x | x t w y Ht Hs Ho Hrest IH | x t w y Ht Hs Ho Hrest IH];
    intros Hx.
  - subst x. destruct (HT Hx).
  - rewrite <- Hs in Hx.
    destruct (Hregion t Ht Hx) as [[Hin Hd] | Et].
    + exact (path_eps inner x t w e Hin Hs Ho (IH Ey Hd)).
    + subst t y. simpl in *. subst x.
      destruct (path_sink ts T T w Hsink Hrest) as [_ ->]. apply path_here.
  - rewrite <- Hs in Hx.
    destruct (Hregion t Ht Hx) as [[Hin Hd] | Et].
    + exact (path_on inner x t w e Hin Hs Ho (IH Ey Hd)).
    + subst t. simpl in Ho. destruct Ho. reflexivity.
Qed.

(** One epsilon transition and one labelled transition, as runs. *)
Lemma path_eps_step (ts : list Transition) (x y : Z) :
  In (mkTransition "" x y) ts -> path ts x [] y.
Proof.
  intros H. apply (path_eps ts x (mkTransition "" x y) [] y H); auto.
  apply path_here.
Qed.

Lemma path_wrap (ts : list Transition) (x y z u : Z) (w : list string) :
  In (mkTransition "" x y) ts -> path ts y w z ->
  In (mkTransition "" z u) ts -> path ts x w u.
Proof.
  intros Hxy Hw Hzu.
  apply (path_app ts x y u [] w (path_eps_step ts x y Hxy)).
  rewrite <- (app_nil_r w).
  apply (path_app ts y z u w [] Hw (path_eps_step ts z u Hzu)).
Qed.

(** The states a word can lead to, as in the subset construction, are the
    ends of its runs. *)
Lemma eps_reachable_trans (self : NFA) (x y z : Z) :
  eps_reachable self [x] y -> eps_reachable self [y] z ->
  eps_reachable self [x] z.
Proof.
  intros Hxy Hyz.
  induction Hyz as [z [<- | []] | y' z _ IH Hstep].
  - exact Hxy.
  - exact (eps_next _ _ _ _ IH Hstep).
Qed.

Lemma eps_reachable_path (self : NFA) (x y : Z) :
  eps_reachable self [x] y <-> path (transitions self) x [] y.
Proof.
  split.
  - induction 1 as [y [<- | []] | y' y _ IH [t [Ht [Ho [Hs Hd]]]]].
    + apply path_here.
    + apply (path_app _ _ _ _ [] [] IH).
      apply (path_eps _ y' t [] y Ht Hs Ho). rewrite Hd. apply path_here.
  - intros H. remember (@nil string) as w eqn:Ew.
    induction H as [x | x t w y Ht Hs Ho _ IH | x t w y Ht Hs Ho _ IH].
    + apply eps_here. left; reflexivity.
    + apply (eps_reachable_trans self x (dest t) y); [| exact (IH Ew)].
      apply (eps_next _ _ x); [apply eps_here; left; reflexivity |].
      exists t. auto.
    + discriminate.
Qed.

Lemma nfa_reads_eps (self : NFA) (w : list string) (x y : Z) :
  nfa_reads self w x -> eps_reachable self [x] y -> nfa_reads self w y.
Proof.
  intros H Hxy.
  destruct H as [x H | w a x0 x t Hw Hne Ht Hon Hsrc Hx].
  - apply nfa_reads_nil. exact (eps_reachable_trans self _ x y H Hxy).
  - apply (nfa_reads_snoc self w a x0 y t); auto.
    exact (eps_reachable_trans self _ x y Hx Hxy).
Qed.

Lemma nfa_reads_path (self : NFA) (w : list string) (x : Z) :
  nfa_reads self w x <-> path (transitions self) (start self) w x.
Proof.
  split.
  - induction 1 as [x H | w a x0 x t Hw IH Hne Ht Hon Hsrc Hx].
    + apply eps_reachable_path, H.
    + apply (path_app _ _ x0 _ w [a] IH).
      rewrite <- Hon in *.
      apply (path_on _ x0 t [] x Ht Hsrc Hne).
      apply eps_reachable_path, Hx.
  - intros H.
    assert (Hgen : forall x0 w y,
              path (transitions self) x0 w y ->
              forall w0, nfa_reads self w0 x0 -> nfa_reads self (w0 ++ w) y).
    { clear. intros x0 w y H.
      induction H as [x | x t w y Ht Hs Ho _ IH | x t w y Ht Hs Ho _ IH];
        intros w0 H0.
      - rewrite app_nil_r. exact H0.
      - apply IH. apply (nfa_reads_eps self w0 x); [exact H0 |].
        apply eps_reachable_path.
        apply (path_eps _ x t [] (dest t) Ht Hs Ho), path_here.
      - replace (w0 ++ on t :: w) with ((w0 ++ [on t]) ++ w)
          by (rewrite <- app_assoc; reflexivity).
        apply IH.
        apply (nfa_reads_snoc self w0 (on t) x (dest t) t); auto.
        apply eps_here. left; reflexivity. }
    apply (Hgen (start self) w x H []).
    apply nfa_reads_nil, eps_here. left; reflexivity.
Qed.

(** ** The fragment algebra and the words accepted *)

Lemma swap_spec (a b z : Z) :
  (z = a /\ swap a b z = b) \/ (z <> a /\ z = b /\ swap a b z = a) \/
  (z <> a /\ z <> b /\ swap a b z = z).
Proof.
  unfold swap.
  destruct (Z.eqb_spec z a); [left; auto |].
  destruct (Z.eqb_spec z b); [right; left; auto | right; right; auto].
Qed.

Ltac swap_cases :=
  repeat match goal with
         | |- context [swap ?a ?b ?z] =>
             let H := fresh in
             destruct (swap_spec a b z) as [[? H] | [[? [? H]] | [? [? H]]]];
             rewrite H in *; clear H
         | H0 : context [swap ?a ?b ?z] |- _ =>
             let H := fresh in
             destruct (swap_spec a b z) as [[? H] | [[? [? H]] | [? [? H]]]];
             rewrite H in *; clear H
         end;
  try lia.

Lemma swap_involutive (a b z : Z) : swap a b (swap a b z) = z.
Proof. swap_cases. Qed.

Lemma thompson_nodes (n : NFA) (t : Transition) :
  well_numbered n -> In t (transitions n) ->
  0 <= source t /\ 0 <= dest t.
Proof.
  intros [_ [_ [Hpos _]]] Ht.
  split; apply Hpos, In_nodes; exists t; auto.
Qed.

(** What [concat] returns on fragments: the left transitions with the left
    accept state exchanged for the join state [k], then the right ones
    moved up by [k]. *)
Lemma concat_form (left right : NFA) :
  thompson left -> well_numbered right ->
  exists k,
    1 <= k /\ term left <= k /\
    (forall t, In t (transitions left) -> source t < k /\ dest t <= k) /\
    concat left right =
    Returns (mkFA (map (relabel (swap (term left) k)) (transitions left)
                     ++ map (relabel (fun z => z + k)) (transitions right))
                  0 (term right + k)).
Proof.
  intros [Hl Hsink] Hr.
  destruct (concat_offset_right left right Hl Hr)
    as [m [Hm [Htm [Hle [Hin [Hk [Habs Hst]]]]]]].
  set (k := if negb (m =? term left) then m + 1 else m) in *.
  assert (Hkm : m <= k /\ (k = m -> m = term left)).
  { unfold k. destruct (Z.eqb_spec m (term left)); simpl; lia. }
  assert (Hends : forall t, In t (transitions left) ->
                    source t < k /\ dest t <= k).
  { intros t Ht.
    assert (source t <= m) by (apply Hle, In_nodes; exists t; auto).
    assert (dest t <= m) by (apply Hle, In_nodes; exists t; auto).
    specialize (Hsink t Ht). lia. }
  exists k. split; [exact Hk |]. split; [lia |]. split; [exact Hends |].
  unfold concat. rewrite Hm; cbn [bind]. fold k. rewrite Habs.
  destruct Hl as [Hs _].
  cbn [transitions start term replace_node add_offset].
  rewrite Hs. f_equal. f_equal. f_equal.
  apply map_ext_in. intros t Ht. destruct (Hends t Ht) as [H1 H2].
  specialize (Hsink t Ht).
  assert (dest t <= m) by (apply Hle, In_nodes; exists t; auto).
  unfold relabel. f_equal.
  - destruct (Z.eqb_spec (source t) (term left)); swap_cases.
  - destruct (Z.eqb_spec (dest t) (term left)); swap_cases.
Qed.

Lemma concat_language (left right n : NFA) :
  thompson left -> thompson right -> concat left right = Returns n ->
  thompson n /\ (clean_start left -> clean_start n) /\
  forall w,
    accepts n w <->
    exists w1 w2, w = w1 ++ w2 /\ accepts left w1 /\ accepts right w2.
Proof.
  intros Hl Hr Hn.
  destruct (concat_form left right Hl (proj1 Hr)) as [k [Hk1 [Htk [Hends Hc]]]].
  destruct (concat_well_numbered left right (proj1 Hl) (proj1 Hr))
    as [n' [Hn' Hwn]].
  rewrite Hn in Hn'. injection Hn' as <-.
  rewrite Hc in Hn. injection Hn as <-.
  destruct Hl as [Hwl Hsinkl]. destruct Hr as [Hwr Hsinkr].
  assert (Hsl : start left = 0) by (destruct Hwl as [H _]; exact H).
  assert (Hsr : start right = 0) by (destruct Hwr as [H _]; exact H).
  assert (Htl : 1 <= term left) by (destruct Hwl as [_ [H _]]; exact H).
  assert (Htr : 1 <= term right) by (destruct Hwr as [_ [H _]]; exact H).
  set (g := swap (term left) k) in *.
  set (L' := map (relabel g) (transitions left)) in *.
  set (R' := map (relabel (fun z => z + k)) (transitions right)) in *.
  assert (HL' : forall t, In t L' -> 0 <= source t < k /\ dest t <= k /\
                  (clean_start left -> dest t <> 0)).
  { intros t' Ht'. apply in_map_iff in Ht'. destruct Ht' as [t [<- Ht]].
    destruct (Hends t Ht) as [H1 H2]. specialize (Hsinkl t Ht).
    destruct (thompson_nodes left t Hwl Ht) as [H3 H4].
    unfold relabel, g; cbn [source dest].
    split; [swap_cases |]. split; [swap_cases |].
    intros Hclean. specialize (Hclean t Ht). rewrite Hsl in Hclean.
    swap_cases. }
  assert (HR' : forall t, In t R' -> k <= source t /\ k <= dest t /\
                  source t <> term right + k).
  { intros t' Ht'. apply in_map_iff in Ht'. destruct Ht' as [t [<- Ht]].
    destruct (thompson_nodes right t Hwr Ht) as [H3 H4].
    specialize (Hsinkr t Ht). unfold relabel; cbn [source dest]. lia. }
  split; [split; [exact Hwn |] |].
  { cbn [transitions term]. intros t Ht. apply in_app_or in Ht.
    destruct Ht as [Ht | Ht].
    - destruct (HL' t Ht) as [H1 _]. lia.
    - destruct (HR' t Ht) as [_ [_ H]]. exact H. }
  split.
  { intros Hclean t Ht. cbn [transitions start] in *. apply in_app_or in Ht.
    destruct Ht as [Ht | Ht].
    - destruct (HL' t Ht) as [_ [_ H]]. exact (H Hclean).
    - destruct (HR' t Ht) as [_ [H _]]. lia. }
  assert (Hg0 : g 0 = 0) by (unfold g; swap_cases).
  assert (Hgt : g (term left) = k) by (unfold g; swap_cases).
  assert (Hleft : forall w, path L' 0 w k <-> accepts left w).
  { intros w. unfold accepts. rewrite Hsl.
    rewrite <- Hg0 at 1. rewrite <- Hgt.
    apply (path_relabel_iff g g). intros z. apply swap_involutive. }
  assert (Hright : forall w, path R' k w (term right + k) <-> accepts right w).
  { intros w. unfold accepts. rewrite Hsr.
    apply (path_relabel_iff (fun z => z + k) (fun z => z - k)
             (transitions right) 0 (term right) w).
    intros z. lia. }
  intros w. unfold accepts at 1. cbn [transitions start term]. split.
  - intros H.
    apply (path_split _ L' (fun z => k <=? z)) in H.
    + destruct H as [H | [w1 [w2 [z [-> [H1 [Hz H2]]]]]]].
      * destruct (path_end _ _ _ _ H) as [[E _] | [t [Ht Hd]]]; [lia |].
        destruct (HL' t Ht) as [_ [E _]]. lia.
      * apply Z.leb_le in Hz.
        assert (z = k).
        { destruct (path_end _ _ _ _ H1) as [[E _] | [t [Ht Hd]]]; [lia |].
          destruct (HL' t Ht) as [_ [E _]]. lia. }
        subst z. exists w1, w2. split; [reflexivity |].
        split; [apply Hleft, H1 |]. apply Hright.
        apply (path_closed _ R' (fun z => k <= z)) in H2; [apply H2 | | lia].
        intros t Ht Hsrc. apply in_app_or in Ht. destruct Ht as [Ht | Ht].
        -- destruct (HL' t Ht) as [E _]. lia.
        -- split; [exact Ht |]. destruct (HR' t Ht) as [_ [E _]]. exact E.
    + intros t Ht Hsrc. apply Z.leb_gt in Hsrc. apply in_app_or in Ht.
      destruct Ht as [Ht | Ht]; [exact Ht |].
      destruct (HR' t Ht) as [E _]. lia.
  - intros [w1 [w2 [-> [H1 H2]]]].
    apply (path_app _ _ k).
    + apply (path_incl L'); [apply incl_appl, incl_refl |]. apply Hleft, H1.
    + apply (path_incl R'); [apply incl_appr, incl_refl |]. apply Hright, H2.
Qed.

(** What [disjunct] returns on fragments: a new start 0 and a new accept
    state [T], the left fragment moved up by 1 between them and the right
    one moved up by [T + 1]. *)
Lemma disjunct_form (left right : NFA) :
  well_numbered left -> well_numbered right ->
  exists T,
    term left + 1 < T /\
    (forall t, In t (transitions left) -> source t + 1 < T /\ dest t + 1 < T) /\
    disjunct left right =
    Returns
      (mkFA (map (relabel (fun z => z + 1)) (transitions left)
               ++ [mkTransition "" 0 1; mkTransition "" (term left + 1) T;
                   mkTransition "" 0 (T + 1);
                   mkTransition "" (term right + (T + 1)) T]
               ++ map (relabel (fun z => z + (T + 1))) (transitions right))
            0 T).
Proof.
  intros Hl Hr. unfold disjunct.
  rewrite (prepend_new_start_returns left Hl); cbn [bind].
  set (self1 := mkFA (transitions (add_offset left 1) ++ [mkTransition "" 0 1])
                     0 (term left + 1)).
  assert (Hnodes : forall x, In x (nodes self1) <->
                     x = 0 \/ x = 1 \/ exists y, In y (nodes left) /\ x = y + 1).
  { intros x. unfold self1, nodes; cbn [transitions].
    rewrite endpoints_app, in_app_iff.
    change (endpoints (transitions (add_offset left 1)))
      with (nodes (add_offset left 1)).
    rewrite nodes_add_offset, in_map_iff. simpl. split.
    - intros [[y [<- Hy]] | [<- | [<- | []]]]; eauto.
    - intros [-> | [-> | [y [Hy ->]]]]; eauto. }
  destruct (max_node_returns self1 0) as [m Hm]; [apply Hnodes; auto |].
  destruct (max_node_spec self1 m Hm) as [_ Hle].
  unfold append_new_term. rewrite Hm; cbn [bind].
  assert (Hterm : In (term left) (nodes left))
    by (destruct Hl as [_ [_ [_ [_ H]]]]; exact H).
  destruct Hr as [Hsr _].
  exists (m + 1). split; [| split].
  - assert (term left + 1 <= m); [| lia].
    apply Hle, Hnodes. right; right. exists (term left). auto.
  - intros t Ht.
    assert (source t + 1 <= m).
    { apply Hle, Hnodes. right; right. exists (source t).
      split; [apply In_nodes; exists t; auto | reflexivity]. }
    assert (dest t + 1 <= m).
    { apply Hle, Hnodes. right; right. exists (dest t).
      split; [apply In_nodes; exists t; auto | reflexivity]. }
    lia.
  - unfold self1; cbn [transitions start term add_offset].
    rewrite Hsr. repeat rewrite <- app_assoc. reflexivity.
Qed.

Lemma disjunct_language (left right n : NFA) :
  thompson left -> thompson right -> disjunct left right = Returns n ->
  thompson n /\ clean_start n /\
  forall w, accepts n w <-> accepts left w \/ accepts right w.
Proof.
  intros [Hwl Hsinkl] [Hwr Hsinkr] Hn.
  destruct (disjunct_form left right Hwl Hwr) as [T [HtT [Hends Hd]]].
  destruct (disjunct_well_numbered left right Hwl Hwr) as [n' [Hn' Hwn]].
  rewrite Hn in Hn'. injection Hn' as <-.
  rewrite Hd in Hn. injection Hn as <-.
  assert (Hsl : start left = 0) by (destruct Hwl as [H _]; exact H).
  assert (Hsr : start right = 0) by (destruct Hwr as [H _]; exact H).
  assert (Htl : 1 <= term left) by (destruct Hwl as [_ [H _]]; exact H).
  assert (Htr : 1 <= term right) by (destruct Hwr as [_ [H _]]; exact H).
  set (k := T + 1) in *.
  set (L1 := map (relabel (fun z => z + 1)) (transitions left)) in *.
  set (R' := map (relabel (fun z => z + k)) (transitions right)) in *.
  set (ts := L1 ++ [mkTransition "" 0 1; mkTransition "" (term left + 1) T;
                    mkTransition "" 0 k; mkTransition "" (term right + k) T]
                ++ R') in *.
  assert (HL1 : forall t, In t L1 ->
                  1 <= source t < T /\ 1 <= dest t < T /\
                  source t <> term left + 1).
  { intros t' Ht'. apply in_map_iff in Ht'. destruct Ht' as [t [<- Ht]].
    destruct (Hends t Ht) as [H1 H2]. specialize (Hsinkl t Ht).
    destruct (thompson_nodes left t Hwl Ht) as [H3 H4].
    unfold relabel; cbn [source dest]. lia. }
  assert (HR' : forall t, In t R' -> k <= source t /\ k <= dest t /\
                  source t <> term right + k).
  { intros t' Ht'. apply in_map_iff in Ht'. destruct Ht' as [t [<- Ht]].
    destruct (thompson_nodes right t Hwr Ht) as [H3 H4].
    specialize (Hsinkr t Ht). unfold relabel; cbn [source dest]. lia. }
  assert (Hts : forall t, In t ts ->
            In t L1 \/ t = mkTransition "" 0 1 \/
            t = mkTransition "" (term left + 1) T \/
            t = mkTransition "" 0 k \/
            t = mkTransition "" (term right + k) T \/ In t R').
  { intros t Ht. unfold ts in Ht. rewrite !in_app_iff in Ht. simpl in Ht.
    intuition auto. }
  assert (Hsink : forall t, In t ts -> source t <> T).
  { intros t Ht.
    destruct (Hts t Ht) as [H | [-> | [-> | [-> | [-> | H]]]]]; simpl;
      try lia.
    - destruct (HL1 t H). lia.
    - destruct (HR' t H). lia. }
  assert (Hleft : forall w, path L1 1 w (term left + 1) <-> accepts left w).
  { intros w. unfold accepts. rewrite Hsl.
    apply (path_relabel_iff (fun z => z + 1) (fun z => z - 1)
             (transitions left) 0 (term left) w).
    intros z. lia. }
  assert (Hright : forall w, path R' k w (term right + k) <-> accepts right w).
  { intros w. unfold accepts. rewrite Hsr.
    apply (path_relabel_iff (fun z => z + k) (fun z => z - k)
             (transitions right) 0 (term right) w).
    intros z. lia. }
  split; [split; [exact Hwn | exact Hsink] |].
  split.
  { intros t Ht. cbn [transitions start] in *.
    destruct (Hts t Ht) as [H | [-> | [-> | [-> | [-> | H]]]]]; simpl;
      try lia.
    - destruct (HL1 t H). lia.
    - destruct (HR' t H). lia. }
  assert (Hfirst : forall w, path ts 0 w T -> path ts 1 w T \/ path ts k w T).
  { intros w H.
    destruct (path_first ts 0 T w H)
      as [[E _] | [t [Ht [Hs [[Ho Hrest] | [Ho _]]]]]]; [lia | |].
    - destruct (Hts t Ht) as [Hin | [-> | [-> | [-> | [-> | Hin]]]]];
        simpl in *; try lia; auto.
      + destruct (HL1 t Hin). lia.
      + destruct (HR' t Hin). lia.
    - destruct (Hts t Ht) as [Hin | [-> | [-> | [-> | [-> | Hin]]]]];
        simpl in *; try lia; try (destruct Ho; reflexivity).
      + destruct (HL1 t Hin). lia.
      + destruct (HR' t Hin). lia. }
  intros w. unfold accepts at 1. cbn [transitions start term]. fold ts. split.
  - intros H. destruct (Hfirst w H) as [H1 | H1].
    + left. apply Hleft.
      apply (path_exit ts L1 (fun z => 1 <= z < T) (term left + 1) T 1 w);
        auto; try lia.
      intros t Ht Hsrc.
      destruct (Hts t Ht) as [Hin | [-> | [-> | [-> | [-> | Hin]]]]];
        simpl in *; try lia; auto.
      * left. split; [exact Hin |]. destruct (HL1 t Hin) as [_ [E _]]; exact E.
      * destruct (HR' t Hin). lia.
    + right. apply Hright.
      apply (path_exit ts R' (fun z => k <= z) (term right + k) T k w);
        auto; try lia.
      intros t Ht Hsrc.
      destruct (Hts t Ht) as [Hin | [-> | [-> | [-> | [-> | Hin]]]]];
        simpl in *; try lia; auto.
      * destruct (HL1 t Hin). lia.
      * left. split; [exact Hin |]. destruct (HR' t Hin) as [_ [E _]]; exact E.
  - assert (Hin1 : incl L1 ts) by (apply incl_appl, incl_refl).
    assert (Hin2 : incl R' ts) by (apply incl_appr, incl_appr, incl_refl).
    assert (He : forall t,
              In t [mkTransition "" 0 1; mkTransition "" (term left + 1) T;
                    mkTransition "" 0 k; mkTransition "" (term right + k) T] ->
              In t ts).
    { intros t Ht. unfold ts. apply in_or_app. right.
      apply in_or_app. left. exact Ht. }
    intros [H | H].
    + apply (path_wrap ts 0 1 (term left + 1) T w).
      * apply He. simpl; auto.
      * apply (path_incl L1 ts _ _ _ Hin1). apply Hleft, H.
      * apply He. simpl; auto.
    + apply (path_wrap ts 0 k (term right + k) T w).
      * apply He. simpl; auto.
      * apply (path_incl R' ts _ _ _ Hin2). apply Hright, H.
      * apply He. simpl; auto 6.
Qed.

(** What [zero_or_more] returns on a fragment: the two epsilon transitions
    between start and accept state, and a new accept state [T]. *)
Lemma zero_or_more_form (child : NFA) :
  well_numbered child ->
  exists T,
    term child < T /\
    (forall t, In t (transitions child) -> source t < T /\ dest t < T) /\
    zero_or_more child =
    Returns
      (mkFA (transitions child
               ++ [mkTransition "" 0 (term child);
                   mkTransition "" (term child) 0;
                   mkTransition "" (term child) T])
            0 T).
Proof.
  intros [Hs [Ht [Hpos [H0 Hterm]]]]. unfold zero_or_more.
  set (self1 := mkFA ((transitions child
                         ++ [mkTransition "" (start child) (term child)])
                        ++ [mkTransition "" (term child) (start child)])
                     (start child) (term child)).
  assert (Hnodes : forall x, In x (nodes child) -> In x (nodes self1)).
  { intros x Hx. unfold self1, nodes; cbn [transitions].
    rewrite !endpoints_app, !in_app_iff. left; left. exact Hx. }
  destruct (max_node_returns self1 0) as [m Hm]; [apply Hnodes, H0 |].
  destruct (max_node_spec self1 m Hm) as [_ Hle].
  unfold append_new_term. rewrite Hm; cbn [bind].
  exists (m + 1). split; [| split].
  - specialize (Hle _ (Hnodes _ Hterm)). lia.
  - intros t Hin.
    assert (source t <= m)
      by (apply Hle, Hnodes, In_nodes; exists t; auto).
    assert (dest t <= m)
      by (apply Hle, Hnodes, In_nodes; exists t; auto).
    lia.
  - unfold self1; cbn [transitions start term].
    rewrite Hs. repeat rewrite <- app_assoc. reflexivity.
Qed.

Lemma star_one (L : list string -> Prop) (w : list string) :
  L w -> star L w.
Proof.
  intros H. rewrite <- (app_nil_r w). apply star_app; [exact H | apply star_nil].
Qed.

Lemma star_incl (L L' : list string -> Prop) (w : list string) :
  (forall v, L v -> L' v) -> star L w -> star L' w.
Proof.
  intros HL. induction 1 as [| w1 w2 H1 _ IH].
  - apply star_nil.
  - apply star_app; [apply HL, H1 | exact IH].
Qed.

Lemma zero_or_more_language (child n : NFA) :
  thompson child -> zero_or_more child = Returns n ->
  thompson n /\
  (forall w, star (accepts child) w -> accepts n w) /\
  (clean_start child -> forall w, accepts n w -> star (accepts child) w).
Proof.
  intros [Hwc Hsinkc] Hn.
  destruct (zero_or_more_form child Hwc) as [T [HtT [Hends Hz]]].
  destruct (zero_or_more_well_numbered child Hwc) as [n' [Hn' Hwn]].
  rewrite Hn in Hn'. injection Hn' as <-.
  rewrite Hz in Hn. injection Hn as <-.
  assert (Hsc : start child = 0) by (destruct Hwc as [H _]; exact H).
  assert (Htc : 1 <= term child) by (destruct Hwc as [_ [H _]]; exact H).
  set (L := transitions child) in *.
  set (e := term child) in *.
  set (B := L ++ [mkTransition "" 0 e; mkTransition "" e 0]).
  set (ts := L ++ [mkTransition "" 0 e; mkTransition "" e 0;
                   mkTransition "" e T]) in *.
  assert (HL : forall t, In t L -> 0 <= source t < T /\ 0 <= dest t < T).
  { intros t Ht. destruct (Hends t Ht).
    destruct (thompson_nodes child t Hwc Ht). lia. }
  assert (Hts : forall t, In t ts ->
            In t B \/ t = mkTransition "" e T).
  { intros t Ht. unfold ts, B in *. rewrite !in_app_iff in *. simpl in *.
    intuition auto. }
  assert (HB : forall t, In t B ->
            In t L \/ t = mkTransition "" 0 e \/ t = mkTransition "" e 0).
  { intros t Ht. unfold B in *. rewrite !in_app_iff in *. simpl in *.
    intuition auto. }
  assert (HBts : incl B ts).
  { intros t Ht. unfold ts, B in *. rewrite !in_app_iff in *. simpl in *.
    intuition auto. }
  assert (HLB : incl L B) by (apply incl_appl, incl_refl).
  assert (Hsink : forall t, In t ts -> source t <> T).
  { intros t Ht. destruct (Hts t Ht) as [Hin | ->]; [| simpl; lia].
    destruct (HB t Hin) as [Hin' | [-> | ->]]; simpl; try lia.
    destruct (HL t Hin'). lia. }
  split; [split; [exact Hwn | exact Hsink] |].
  assert (Hacc : forall v, accepts child v <-> path L 0 v e).
  { intros v. unfold accepts. rewrite Hsc. reflexivity. }
  split.
  - intros w Hw. change (path ts 0 w T).
    assert (Hloop : path B 0 w e).
    { induction Hw as [| w1 w2 H1 _ IH].
      - apply path_eps_step. unfold B. apply in_or_app. right. simpl; auto.
      - apply (path_app B 0 e e w1 w2).
        + apply (path_incl L B _ _ _ HLB). apply Hacc, H1.
        + apply (path_app B e 0 e [] w2); [| exact IH].
          apply path_eps_step. unfold B. apply in_or_app. right. simpl; auto. }
    rewrite <- (app_nil_r w). apply (path_app ts 0 e T w []).
    + apply (path_incl B ts _ _ _ HBts Hloop).
    + apply path_eps_step. unfold ts. apply in_or_app. right. simpl; auto.
  - intros Hclean w Hw. change (path ts 0 w T) in Hw.
    assert (Hloop : path B 0 w e).
    { apply (path_exit ts B (fun z => z < T) e T 0 w); auto; try lia.
      intros t Ht Hsrc. destruct (Hts t Ht) as [Hin | ->]; [left | right; auto].
      split; [exact Hin |].
      destruct (HB t Hin) as [Hin' | [-> | ->]]; simpl; try lia.
      destruct (HL t Hin'). lia. }
    assert (Hgen : forall x w,
              path B x w e ->
              (exists w1 w2, w = w1 ++ w2 /\ path L x w1 e /\
                             star (accepts child) w2) \/
              (x = 0 /\ star (accepts child) w)).
    { clear Hw Hloop w. intros x w H. remember e as y eqn:Ey in H.
      induction H as [x | x t w y Ht Hs Ho _ IH | x t w y Ht Hs Ho _ IH].
      - left. exists [], []. split; [reflexivity |].
        split; [subst; apply path_here | apply star_nil].
      - specialize (IH Ey).
        destruct (HB t Ht) as [Hin | [-> | ->]]; simpl in *.
        + destruct IH as [[w1 [w2 [-> [H1 H2]]]] | [E _]].
          * left. exists w1, w2. split; [reflexivity |].
            split; [exact (path_eps L x t w1 e Hin Hs Ho H1) | exact H2].
          * specialize (Hclean t Hin). rewrite Hsc in Hclean. contradiction.
        + destruct IH as [[w1 [w2 [-> [H1 H2]]]] | [E _]]; [| lia].
          destruct (path_sink L e e w1 Hsinkc H1) as [_ ->].
          right. split; [symmetry; exact Hs | exact H2].
        + left. exists [], w. split; [reflexivity |].
          split; [rewrite <- Hs; apply path_here |].
          destruct IH as [[w1 [w2 [-> [H1 H2]]]] | [_ H2]]; [| exact H2].
          apply star_app; [apply Hacc, H1 | exact H2].
      - specialize (IH Ey).
        destruct (HB t Ht) as [Hin | [-> | ->]]; simpl in *;
          try (destruct Ho; reflexivity).
        destruct IH as [[w1 [w2 [-> [H1 H2]]]] | [E _]].
        + left. exists (on t :: w1), w2. split; [reflexivity |].
          split; [exact (path_on L x t w1 e Hin Hs Ho H1) | exact H2].
        + specialize (Hclean t Hin). rewrite Hsc in Hclean. contradiction. }
    destruct (Hgen 0 w Hloop) as [[w1 [w2 [-> [H1 H2]]]] | [_ H2]];
      [apply star_app; [apply Hacc, H1 | exact H2] | exact H2].
Qed.

(** ** From the expression to the NFA: the words accepted *)

(** Induction on expressions, through the lists of children. *)
Section RegInduction.

Variable P : Reg -> Prop.
Hypothesis Hchar : forall c, P (RegChar c).
Hypothesis Hgroup_none : P (RegGroup None).
Hypothesis Hgroup : forall e, P e -> P (RegGroup (Some e)).
Hypothesis Hunity_none : P (RegUnity None).
Hypothesis Hunity : forall e, P e -> P (RegUnity (Some e)).
Hypothesis Hquality : forall e q, P e -> P (RegQuality e q).
Hypothesis Hconcat : forall cs, Forall P cs -> P (RegConcat cs).
Hypothesis Hdisj : forall cs, Forall P cs -> P (RegDisj cs).

Fixpoint Reg_nested_ind (r : Reg) : P r :=
  match r with
  | RegChar c => Hchar c
  | RegGroup None => Hgroup_none
  | RegGroup (Some e) => Hgroup e (Reg_nested_ind e)
  | RegUnity None => Hunity_none
  | RegUnity (Some e) => Hunity e (Reg_nested_ind e)
  | RegQuality e q => Hquality e q (Reg_nested_ind e)
  | RegConcat cs =>
      Hconcat cs
        ((fix all (l : list Reg) : Forall P l :=
            match l with
            | [] => Forall_nil P
            | c :: l' => Forall_cons c (Reg_nested_ind c) (all l')
            end) cs)
  | RegDisj cs =>
      Hdisj cs
        ((fix all (l : list Reg) : Forall P l :=
            match l with
            | [] => Forall_nil P
            | c :: l' => Forall_cons c (Reg_nested_ind c) (all l')
            end) cs)
  end.

End RegInduction.

Lemma to_nfa_RegConcat (first : Reg) (rest : list Reg) :
  to_nfa (RegConcat (first :: rest))
  = (nfa <- to_nfa first ;; concat_each rest nfa).
Proof. reflexivity. Qed.

Lemma to_nfa_RegDisj (first : Reg) (rest : list Reg) :
  to_nfa (RegDisj (first :: rest))
  = (nfa <- to_nfa first ;; disjunct_each rest nfa).
Proof. reflexivity. Qed.

Lemma lang_RegConcat (cs : list Reg) (w : list string) :
  lang (RegConcat cs) w = lang_seq cs w.
Proof. reflexivity. Qed.

Lemma lang_RegDisj (cs : list Reg) (w : list string) :
  lang (RegDisj cs) w = lang_any cs w.
Proof.
  induction cs as [| c cs IH]; [reflexivity |].
  change (lang (RegDisj (c :: cs)) w) with (lang c w \/ lang (RegDisj cs) w).
  rewrite IH. reflexivity.
Qed.

Lemma guarded_RegConcat (cs : list Reg) :
  guarded (RegConcat cs) = guarded_all cs.
Proof. reflexivity. Qed.

Lemma guarded_RegDisj (cs : list Reg) :
  guarded (RegDisj cs) = guarded_all cs.
Proof. reflexivity. Qed.

Lemma from_char_denotes (c : string) (n : NFA) :
  to_nfa (RegChar c) = Returns n -> denotes (RegChar c) n.
Proof.
  simpl. intros H. injection H as <-.
  assert (Hsink : forall t, In t (transitions (from_char c)) ->
                    source t <> term (from_char c)).
  { intros t [<- | []]; simpl. lia. }
  split; [split; [apply well_numbered_from_char | exact Hsink] |].
  split; [intros _ t [<- | []]; simpl; lia |].
  unfold accepts; cbn [from_char transitions start term lang].
  split.
  - intros w ->. destruct (String.eqb_spec c "") as [-> | Hc].
    + apply path_eps_step. left; reflexivity.
    + apply (path_on _ 0 (mkTransition c 0 1) [] 1); simpl; auto.
      apply path_here.
  - intros _ w H.
    destruct (path_first _ _ _ _ H)
      as [[E _] | [t [[<- | []] [_ [[Ho Hrest] | [Ho [w' [-> Hrest]]]]]]]];
      [lia | |]; cbn [on source dest] in *;
      destruct (path_sink _ 1 1 _ Hsink Hrest) as [_ ->].
    + rewrite Ho. reflexivity.
    + apply String.eqb_neq in Ho. rewrite Ho. reflexivity.
Qed.

Lemma quality_denotes (e : Reg) (q : string) :
  (forall n, to_nfa e = Returns n -> denotes e n) ->
  forall n, to_nfa (RegQuality e q) = Returns n -> denotes (RegQuality e q) n.
Proof.
  intros IH n H. cbn [to_nfa] in H.
  inv_bind H as child Hchild.
  destruct (IH child Hchild) as [Hth [Hclean [Hsound Hexact]]].
  unfold denotes. cbn [lang clean guarded].
  destruct (String.eqb_spec q "") as [-> | Hq1].
  { injection H as <-. simpl. rewrite andb_true_r.
    split; [exact Hth |]. split; [exact Hclean |]. split; assumption. }
  destruct (String.eqb_spec q "*") as [-> | Hq2].
  { destruct (zero_or_more_language child n Hth H) as [Hthn [Hs He]].
    split; [exact Hthn |]. split; [discriminate |]. split.
    - intros w Hw. apply Hs. exact (star_incl _ _ w Hsound Hw).
    - simpl. intros Hg. apply andb_true_iff in Hg. destruct Hg as [Hg Hc].
      intros w Hw. apply (star_incl (accepts child)); [apply Hexact, Hg |].
      apply He; [apply Hclean, Hc | exact Hw]. }
  destruct (String.eqb_spec q "+") as [-> | Hq3]; [| discriminate].
  inv_bind H as rep Hrep.
  destruct (zero_or_more_language child rep Hth Hrep) as [Hthr [Hs He]].
  destruct (concat_language child rep n Hth Hthr H) as [Hthn [Hcn Hlang]].
  split; [exact Hthn |].
  split; [intros Hc; apply Hcn, Hclean, Hc |]. split.
  - intros w [w1 [w2 [-> [H1 H2]]]]. apply Hlang. exists w1, w2.
    split; [reflexivity |]. split; [apply Hsound, H1 |].
    apply Hs. exact (star_incl _ _ w2 Hsound H2).
  - simpl. intros Hg. apply andb_true_iff in Hg. destruct Hg as [Hg Hc].
    intros w Hw. apply Hlang in Hw. destruct Hw as [w1 [w2 [-> [H1 H2]]]].
    exists w1, w2. split; [reflexivity |]. split; [apply Hexact; assumption |].
    apply (star_incl (accepts child)); [apply Hexact, Hg |].
    apply He; [apply Hclean, Hc | exact H2].
Qed.

Lemma concat_each_denotes (rest : list Reg) :
  Forall (fun r => forall n, to_nfa r = Returns n -> denotes r n) rest ->
  forall nfa n,
    thompson nfa -> concat_each rest nfa = Returns n ->
    thompson n /\ (clean_start nfa -> clean_start n) /\
    (forall w1 w2, accepts nfa w1 -> lang_seq rest w2 -> accepts n (w1 ++ w2)) /\
    (guarded_all rest = true ->
     forall w, accepts n w ->
       exists w1 w2, w = w1 ++ w2 /\ accepts nfa w1 /\ lang_seq rest w2).
Proof.
  induction 1 as [| child rest Hchild _ IH]; intros nfa n Hth H; simpl in H.
  - injection H as <-. split; [exact Hth |]. split; [auto |]. split.
    + intros w1 w2 H1 ->. rewrite app_nil_r. exact H1.
    + intros _ w Hw. exists w, []. rewrite app_nil_r. simpl. auto.
  - inv_bind H as right Hright. inv_bind H as nfa' Hnfa'.
    destruct (Hchild right Hright) as [Hthr [_ [Hsound Hexact]]].
    destruct (concat_language nfa right nfa' Hth Hthr Hnfa')
      as [Hth' [Hc' Hlang]].
    destruct (IH nfa' n Hth' H) as [Hthn [Hcn [Hs He]]].
    split; [exact Hthn |]. split; [auto |]. split.
    + intros w1 w2 H1 [v1 [v2 [-> [Hv1 Hv2]]]].
      rewrite app_assoc. apply Hs; [| exact Hv2].
      apply Hlang. exists w1, v1. auto.
    + simpl. intros Hg. apply andb_true_iff in Hg. destruct Hg as [Hg Hgs].
      intros w Hw. destruct (He Hgs w Hw) as [u [v2 [-> [Hu Hv2]]]].
      apply Hlang in Hu. destruct Hu as [w1 [v1 [-> [H1 Hv1]]]].
      exists w1, (v1 ++ v2). split; [rewrite app_assoc; reflexivity |].
      split; [exact H1 |]. exists v1, v2. auto.
Qed.

Lemma disjunct_each_denotes (rest : list Reg) :
  Forall (fun r => forall n, to_nfa r = Returns n -> denotes r n) rest ->
  forall nfa n,
    thompson nfa -> disjunct_each rest nfa = Returns n ->
    thompson n /\ (clean_start nfa \/ rest <> [] -> clean_start n) /\
    (forall w, accepts nfa w \/ lang_any rest w -> accepts n w) /\
    (guarded_all rest = true ->
     forall w, accepts n w -> accepts nfa w \/ lang_any rest w).
Proof.
  induction 1 as [| child rest Hchild _ IH]; intros nfa n Hth H; simpl in H.
  - injection H as <-. split; [exact Hth |].
    split; [intros [Hc | Hc]; [exact Hc | destruct Hc; reflexivity] |]. split.
    + intros w [Hw | []]. exact Hw.
    + intros _ w Hw. left. exact Hw.
  - inv_bind H as right Hright. inv_bind H as nfa' Hnfa'.
    destruct (Hchild right Hright) as [Hthr [_ [Hsound Hexact]]].
    destruct (disjunct_language nfa right nfa' Hth Hthr Hnfa')
      as [Hth' [Hc' Hlang]].
    destruct (IH nfa' n Hth' H) as [Hthn [Hcn [Hs He]]].
    split; [exact Hthn |]. split; [auto |]. split.
    + intros w [Hw | [Hw | Hw]]; apply Hs; auto.
      * left. apply Hlang. left. exact Hw.
      * left. apply Hlang. right. apply Hsound, Hw.
    + simpl. intros Hg. apply andb_true_iff in Hg. destruct Hg as [Hg Hgs].
      intros w Hw. destruct (He Hgs w Hw) as [Hu | Hu]; [| auto].
      apply Hlang in Hu. destruct Hu as [Hu | Hu]; [auto |].
      right. left. apply Hexact; assumption.
Qed.

(** Whenever [to_nfa] returns, what it returns is a Thompson fragment that
    accepts every word the expression matches and, for a guarded
    expression, nothing else. *)
Lemma to_nfa_denotes (r : Reg) :
  forall n, to_nfa r = Returns n -> denotes r n.
Proof.
  induction r as [c | | e IH | | e IH | e q IH | cs IH | cs IH]
    using Reg_nested_ind.
  - apply from_char_denotes.
  - discriminate.
  - exact IH.
  - discriminate.
  - exact IH.
  - apply quality_denotes, IH.
  - destruct cs as [| first rest]; [discriminate |].
    intros n H. rewrite to_nfa_RegConcat in H. inv_bind H as nfa Hnfa.
    inversion IH as [| ? ? Hfirst Hrest]; subst.
    destruct (Hfirst nfa Hnfa) as [Hth [Hclean [Hsound Hexact]]].
    destruct (concat_each_denotes rest Hrest nfa n Hth H)
      as [Hthn [Hcn [Hs He]]].
    split; [exact Hthn |]. split; [intros Hc; apply Hcn, Hclean, Hc |].
    rewrite guarded_RegConcat. split.
    + intros w Hw. rewrite lang_RegConcat in Hw.
      destruct Hw as [w1 [w2 [-> [H1 H2]]]]. apply Hs; auto.
    + cbn [guarded_all]. intros Hg.
      apply andb_true_iff in Hg. destruct Hg as [Hg Hgs].
      intros w Hw. rewrite lang_RegConcat.
      destruct (He Hgs w Hw) as [w1 [w2 [-> [H1 H2]]]].
      exists w1, w2. auto.
  - destruct cs as [| first rest]; [discriminate |].
    intros n H. rewrite to_nfa_RegDisj in H. inv_bind H as nfa Hnfa.
    inversion IH as [| ? ? Hfirst Hrest]; subst.
    destruct (Hfirst nfa Hnfa) as [Hth [Hclean [Hsound Hexact]]].
    destruct (disjunct_each_denotes rest Hrest nfa n Hth H)
      as [Hthn [Hcn [Hs He]]].
    split; [exact Hthn |]. split.
    { intros Hc. apply Hcn. destruct rest as [| c2 rest'].
      - left. apply Hclean, Hc.
      - right. discriminate. }
    rewrite guarded_RegDisj. split.
    + intros w Hw. rewrite lang_RegDisj in Hw.
      destruct Hw as [Hw | Hw]; apply Hs; auto.
    + cbn [guarded_all]. intros Hg.
      apply andb_true_iff in Hg. destruct Hg as [Hg Hgs].
      intros w Hw. rewrite lang_RegDisj.
      destruct (He Hgs w Hw) as [Hw' | Hw']; [left | right]; auto.
Qed.

Lemma fragment_thompson (n : NFA) : fragment n -> thompson n.
Proof.
  induction 1 as [char | left right n _ IHl _ IHr Hn
                  | left right n _ IHl _ IHr Hn | child n _ IH Hn].
  - split; [apply well_numbered_from_char |].
    intros t [<- | []]; simpl. lia.
  - apply (concat_language left right n IHl IHr Hn).
  - apply (disjunct_language left right n IHl IHr Hn).
  - apply (zero_or_more_language child n IH Hn).
Qed.

Lemma to_nfa_fragment (r : Reg) :
  forall n, to_nfa r = Returns n -> fragment n.
Proof.
  induction r as [c | | e IH | | e IH | e q IH | cs IH | cs IH]
    using Reg_nested_ind; try discriminate; try exact IH.
  - intros n H. injection H as <-. apply fragment_char.
  - intros n H. cbn [to_nfa] in H. inv_bind H as child Hchild.
    specialize (IH child Hchild).
    destruct (String.eqb q ""); [injection H as <-; exact IH |].
    destruct (String.eqb q "*");
      [exact (fragment_zero_or_more child n IH H) |].
    destruct (String.eqb q "+"); [| discriminate].
    inv_bind H as rep Hrep.
    exact (fragment_concat child rep n IH
             (fragment_zero_or_more child rep IH Hrep) H).
  - destruct cs as [| first rest]; [discriminate |].
    intros n H. rewrite to_nfa_RegConcat in H. inv_bind H as nfa Hnfa.
    inversion IH as [| ? ? Hfirst Hrest]; subst.
    specialize (Hfirst nfa Hnfa). clear IH Hnfa. revert nfa Hfirst H.
    induction Hrest as [| child rest Hchild _ IHrest];
      intros nfa Hfrag H; simpl in H.
    + injection H as <-. exact Hfrag.
    + inv_bind H as right Hright. inv_bind H as nfa' Hnfa'.
      apply (IHrest nfa'); [| exact H].
      exact (fragment_concat nfa right nfa' Hfrag (Hchild right Hright) Hnfa').
  - destruct cs as [| first rest]; [discriminate |].
    intros n H. rewrite to_nfa_RegDisj in H. inv_bind H as nfa Hnfa.
    inversion IH as [| ? ? Hfirst Hrest]; subst.
    specialize (Hfirst nfa Hnfa). clear IH Hnfa. revert nfa Hfirst H.
    induction Hrest as [| child rest Hchild _ IHrest];
      intros nfa Hfrag H; simpl in H.
    + injection H as <-. exact Hfrag.
    + inv_bind H as right Hright. inv_bind H as nfa' Hnfa'.
      apply (IHrest nfa'); [| exact H].
      exact (fragment_disjunct nfa right nfa' Hfrag (Hchild right Hright) Hnfa').
Qed.

(** ** The fragment operations, by the words accepted *)

(** [concat] of two fragments returns an NFA that accepts exactly the
    words made of a word the left fragment accepts followed by a word the
    right fragment accepts. *)
Theorem concat_accepts_sequence (left right : NFA) :
  fragment left -> fragment right ->
  exists n,
    concat left right = Returns n /\
    forall w,
      accepts n w <->
      exists w1 w2, w = w1 ++ w2 /\ accepts left w1 /\ accepts right w2.
Proof.
  intros Hl Hr.
  destruct (concat_well_numbered left right
              (fragment_well_numbered left Hl) (fragment_well_numbered right Hr))
    as [n [Hn _]].
  exists n. split; [exact Hn |].
  apply (concat_language left right n
           (fragment_thompson left Hl) (fragment_thompson right Hr) Hn).
Qed.

Lemma concat_accepts_sequence_witness :
  exists n,
    concat (from_char "a") (from_char "b") = Returns n /\
    forall w,
      accepts n w <->
      exists w1 w2,
        w = w1 ++ w2 /\ accepts (from_char "a") w1 /\ accepts (from_char "b") w2.
Proof.
  exact (concat_accepts_sequence (from_char "a") (from_char "b")
           (fragment_char "a") (fragment_char "b")).
Defined.

(** [disjunct] of two fragments returns an NFA that accepts exactly the
    words either of them accepts, and that no transition enters at its
    start state. *)
Theorem disjunct_accepts_either (left right : NFA) :
  fragment left -> fragment right ->
  exists n,
    disjunct left right = Returns n /\ clean_start n /\
    forall w, accepts n w <-> accepts left w \/ accepts right w.
Proof.
  intros Hl Hr.
  destruct (disjunct_well_numbered left right
              (fragment_well_numbered left Hl) (fragment_well_numbered right Hr))
    as [n [Hn _]].
  exists n. split; [exact Hn |].
  apply (disjunct_language left right n
           (fragment_thompson left Hl) (fragment_thompson right Hr) Hn).
Qed.

Lemma disjunct_accepts_either_witness :
  exists n,
    disjunct (from_char "a") (from_char "b") = Returns n /\ clean_start n /\
    forall w,
      accepts n w <-> accepts (from_char "a") w \/ accepts (from_char "b") w.
Proof.
  exact (disjunct_accepts_either (from_char "a") (from_char "b")
           (fragment_char "a") (fragment_char "b")).
Defined.

(** [zero_or_more] of a fragment returns an NFA that accepts every
    sequence of words the fragment accepts; when no transition enters the
    start state of the fragment, it accepts nothing else. *)
Theorem zero_or_more_accepts_iterations (child : NFA) :
  fragment child ->
  exists n,
    zero_or_more child = Returns n /\
    (forall w, star (accepts child) w -> accepts n w) /\
    (clean_start child -> forall w, accepts n w -> star (accepts child) w).
Proof.
  intros Hc.
  destruct (zero_or_more_well_numbered child (fragment_well_numbered child Hc))
    as [n [Hn _]].
  exists n. split; [exact Hn |].
  apply (zero_or_more_language child n (fragment_thompson child Hc) Hn).
Qed.

Lemma zero_or_more_accepts_iterations_witness :
  exists n,
    zero_or_more (from_char "a") = Returns n /\
    (forall w, star (accepts (from_char "a")) w -> accepts n w) /\
    (clean_start (from_char "a") ->
     forall w, accepts n w -> star (accepts (from_char "a")) w).
Proof.
  exact (zero_or_more_accepts_iterations (from_char "a") (fragment_char "a")).
Defined.

(** In every fragment of the algebra no transition leaves the accept
    state, which is not the start state, and no state is negative. *)
Theorem fragment_accept_is_sink (n : NFA) (t : Transition) :
  fragment n -> In t (transitions n) ->
  source t <> term n /\ start n <> term n /\ 0 <= source t /\ 0 <= dest t.
Proof.
  intros Hn Ht. destruct (fragment_thompson n Hn) as [Hwn Hsink].
  split; [exact (Hsink t Ht) |].
  split; [destruct Hwn as [Hs [Hterm _]]; lia |].
  exact (thompson_nodes n t Hwn Ht).
Qed.

Lemma fragment_accept_is_sink_witness :
  0 <> 1 /\ 0 <> 1 /\ 0 <= 0 /\ 0 <= 1.
Proof.
  apply (fragment_accept_is_sink (from_char "a") (mkTransition "a" 0 1)
           (fragment_char "a")).
  left; reflexivity.
Defined.

(** ** The NFA of an expression *)

(** Whenever [to_nfa] returns, the NFA is a fragment of the algebra and
    accepts every word the expression matches. *)
Theorem to_nfa_accepts_matched_words (r : Reg) (n : NFA) (w : list string) :
  to_nfa r = Returns n -> lang r w -> fragment n /\ accepts n w.
Proof.
  intros Hn Hw. split; [exact (to_nfa_fragment r n Hn) |].
  destruct (to_nfa_denotes r n Hn) as [_ [_ [Hsound _]]]. exact (Hsound w Hw).
Qed.

Lemma to_nfa_accepts_matched_words_witness :
  fragment nfa_a_star /\ accepts nfa_a_star ["a"; "a"].
Proof.
  apply (to_nfa_accepts_matched_words regex_a_star nfa_a_star ["a"; "a"]
           to_nfa_a_star).
  left. exists ["a"; "a"], []. split; [reflexivity |]. split; [| reflexivity].
  apply (star_app _ ["a"] ["a"]); [reflexivity |].
  apply (star_app _ ["a"] []); [reflexivity | apply star_nil].
Defined.

(** For a guarded expression, one in which [*] and [+] are only applied to
    expressions that do not begin with an iteration, the NFA accepts
    exactly the words the expression matches. *)
Theorem to_nfa_guarded_language (r : Reg) (n : NFA) :
  to_nfa r = Returns n -> guarded r = true ->
  forall w, accepts n w <-> lang r w.
Proof.
  intros Hn Hg w.
  destruct (to_nfa_denotes r n Hn) as [_ [_ [Hsound Hexact]]].
  split; [apply Hexact, Hg | apply Hsound].
Qed.

Lemma to_nfa_guarded_language_witness :
  accepts nfa_a_star ["a"] <-> lang regex_a_star ["a"].
Proof.
  exact (to_nfa_guarded_language regex_a_star nfa_a_star to_nfa_a_star
           eq_refl ["a"]).
Defined.

Lemma last_app_nonempty {A : Type} (l1 l2 : list A) (d : A) :
  l2 <> [] -> last (l1 ++ l2) d = last l2 d.
Proof.
  intros Hne. induction l1 as [| x l1 IH]; [reflexivity |].
  simpl. rewrite IH.
  destruct (l1 ++ l2) eqn:E; [| reflexivity].
  apply app_eq_nil in E. destruct E as [_ E]. contradiction.
Qed.

Lemma star_last (L : list string -> Prop) (b : string) :
  (forall w, L w -> w <> [] /\ last w "" = b) ->
  forall w, star L w -> w = [] \/ last w "" = b.
Proof.
  intros HL w H. induction H as [| w1 w2 H1 _ IH].
  - left. reflexivity.
  - right. destruct (HL w1 H1) as [Hne Hlast].
    destruct IH as [-> | IH]; [rewrite app_nil_r; exact Hlast |].
    destruct w2 as [| x w2]; [rewrite app_nil_r; exact Hlast |].
    rewrite last_app_nonempty; [exact IH | discriminate].
Qed.

(** Without the guard the NFA can accept too much: the NFA built for
    [(a*b)*] accepts the word [a], through the transition that leads from
    the accept state of [a*] back to the start state and the epsilon
    transition [zero_or_more] adds from the start to the accept state. *)
Theorem to_nfa_unguarded_overaccepts :
  exists r buf n,
    parse 40 (RegexString_init "(a*b)*") = Returns (Some r, buf) /\
    to_nfa r = Returns n /\ guarded r = false /\
    accepts n ["a"] /\ ~ lang r ["a"].
Proof.
  eexists. eexists. eexists.
  split; [vm_compute; reflexivity |].
  split; [vm_compute; reflexivity |].
  split; [reflexivity |].
  split.
  - unfold accepts; cbn [transitions start term].
    apply (path_on _ 0 (mkTransition "a" 0 1) [] 4);
      [simpl; tauto | reflexivity | discriminate |].
    apply (path_eps _ 1 (mkTransition "" 1 0) [] 4);
      [simpl; tauto | reflexivity | reflexivity |].
    apply (path_eps _ 0 (mkTransition "" 0 3) [] 4);
      [simpl; tauto | reflexivity | reflexivity |].
    apply (path_eps _ 3 (mkTransition "" 3 4) [] 4);
      [simpl; tauto | reflexivity | reflexivity |].
    apply path_here.
  - intros H. rewrite lang_RegDisj in H.
    destruct H as [H | []]. rewrite lang_RegConcat in H.
    destruct H as [w1 [w2 [E [Hstar ->]]]].
    rewrite app_nil_r in E. subst w1.
    cbn [lang String.eqb Ascii.eqb Bool.eqb] in Hstar.
    apply (star_last _ "b") in Hstar.
    + destruct Hstar as [E | E]; discriminate.
    + intros w [[u1 [u2 [-> [_ [u3 [u4 [-> [-> ->]]]]]]]] | []].
      rewrite app_nil_r. split; [destruct u1; discriminate |].
      apply last_last.
Qed.

(** ** What the parser builds *)

Lemma RegChar_from_buf_shaped (buf buf' : RegexString) (r : Reg) :
  RegChar_from_buf buf = Returns (Some r, buf') -> shaped LChar r = true.
Proof.
  unfold RegChar_from_buf. intros H. inv_bind H as p Hp.
  destruct p as [c buf1].
  destruct (isalnum c) eqn:Hal; [| discriminate].
  injection H as <- _. cbn [shaped].
  unfold pop in Hp. destruct (is_eof buf).
  - injection Hp as <- _. discriminate.
  - inv_bind Hp as c' Hc'. injection Hp as <- _.
    unfold getitem in Hc'.
    destruct ((0 <=? _) && _); [| discriminate].
    destruct (String.get _ _) as [a |]; [| discriminate].
    injection Hc' as <-. simpl in Hal. rewrite andb_true_r in Hal. exact Hal.
Qed.


Lemma cls_if_any_shaped (cls : list Reg -> Reg) (lv lv' : level)
    (exps : list Reg) (r : Reg) :
  (forall cs, shaped lv (cls cs)
              = negb (Nat.eqb (List.length cs) 0) && forallb (shaped lv') cs) ->
  cls_if_any cls exps = Some r ->
  forallb (shaped lv') exps = true ->
  shaped lv r = true.
Proof.
  intros Hcls H Hall. destruct exps as [| e exps]; [discriminate |].
  injection H as <-. rewrite Hcls, Hall. reflexivity.
Qed.

Lemma forallb_snoc {A : Type} (f : A -> bool) (l : list A) (x : A) :
  forallb f l = true -> f x = true -> forallb f (l ++ [x]) = true.
Proof.
  intros Hl Hx. rewrite forallb_app, Hl. simpl. rewrite Hx. reflexivity.
Qed.

Lemma peek_pop (buf buf1 : RegexString) (c c1 : string) :
  peek buf = Returns c -> pop buf = Returns (c1, buf1) -> c1 = c.
Proof.
  unfold peek, pop. intros Hpeek Hpop. destruct (is_eof buf).
  - injection Hpeek as <-. injection Hpop as <- _. reflexivity.
  - rewrite Hpeek in Hpop. simpl in Hpop. injection Hpop as <- _. reflexivity.
Qed.

Lemma parser_shapes (fuel : nat) : shapes fuel.
Proof.
  induction fuel as [| fuel [HD [HDL [HC [HCL [HQ [HU HG]]]]]]].
  - unfold shapes. repeat split; try discriminate.
    + intros exps exp buf buf' r H Hall Hexp.
      destruct exp as [e |]; cbn [RegDisj_loop] in H.
      * inv_bind H as c Hc. destruct (String.eqb c "|"); [discriminate |].
        injection H as H _.
        apply (cls_if_any_shaped RegDisj LDisj LConcat _ r (fun _ => eq_refl) H).
        apply forallb_snoc; auto.
      * injection H as H _.
        exact (cls_if_any_shaped RegDisj LDisj LConcat _ r
                 (fun _ => eq_refl) H Hall).
    + intros exps exp buf buf' r H Hall Hexp.
      destruct exp as [e |]; cbn [RegConcat_loop] in H; [discriminate |].
      injection H as H _.
      exact (cls_if_any_shaped RegConcat LConcat LQuality _ r
               (fun _ => eq_refl) H Hall).
  - unfold shapes. repeat split.
    + intros buf buf' r H. cbn [RegDisj_from_buf] in H.
      inv_bind H as p Hp. destruct p as [exp buf1].
      apply (HDL [] exp buf1 buf' r H); [reflexivity |].
      intros e ->. exact (HC _ _ _ Hp).
    + intros exps exp buf buf' r H Hall Hexp.
      destruct exp as [e |]; cbn [RegDisj_loop] in H.
      * inv_bind H as c Hc. destruct (String.eqb c "|").
        -- inv_bind H as p1 Hp1. destruct p1 as [c1 buf1].
           inv_bind H as p2 Hp2. destruct p2 as [exp' buf2].
           apply (HDL _ exp' buf2 buf' r H).
           ++ apply forallb_snoc; auto.
           ++ intros e' ->. exact (HC _ _ _ Hp2).
        -- injection H as H _.
           apply (cls_if_any_shaped RegDisj LDisj LConcat _ r
                    (fun _ => eq_refl) H).
           apply forallb_snoc; auto.
      * injection H as H _.
        exact (cls_if_any_shaped RegDisj LDisj LConcat _ r
                 (fun _ => eq_refl) H Hall).
    + intros buf buf' r H. cbn [RegConcat_from_buf] in H.
      inv_bind H as p Hp. destruct p as [exp buf1].
      apply (HCL [] exp buf1 buf' r H); [reflexivity |].
      intros e ->. exact (HQ _ _ _ Hp).
    + intros exps exp buf buf' r H Hall Hexp.
      destruct exp as [e |]; cbn [RegConcat_loop] in H.
      * inv_bind H as p Hp. destruct p as [exp' buf1].
        apply (HCL _ exp' buf1 buf' r H).
        -- apply forallb_snoc; auto.
        -- intros e' ->. exact (HQ _ _ _ Hp).
      * injection H as H _.
        exact (cls_if_any_shaped RegConcat LConcat LQuality _ r
                 (fun _ => eq_refl) H Hall).
    + intros buf buf' r H. cbn [RegQuality_from_buf] in H.
      inv_bind H as p Hp. destruct p as [exp buf1].
      destruct exp as [e |]; [| discriminate].
      assert (He := HU _ _ _ Hp).
      inv_bind H as c Hc.
      destruct (String.eqb c "*" || String.eqb c "+") eqn:Hq.
      * inv_bind H as p2 Hp2. destruct p2 as [qualifier buf2].
        injection H as <- _.
        rewrite (peek_pop buf1 buf2 c qualifier Hc Hp2).
        cbn [shaped]. rewrite He. cbn [andb].
        apply orb_true_iff in Hq.
        destruct Hq as [-> | ->]; rewrite ?orb_true_r; reflexivity.
      * injection H as <- _. cbn [shaped]. rewrite He. reflexivity.
    + intros buf buf' r H. cbn [RegUnity_from_buf] in H.
      inv_bind H as c Hc. destruct (String.eqb c "(") eqn:Hpar.
      * inv_bind H as p Hp. destruct p as [g buf1].
        injection H as <- _. destruct g as [g |].
        -- cbn [shaped]. rewrite (HG _ _ _ Hp). apply orb_true_r.
        -- exfalso. clear -Hp Hc Hpar.
           destruct fuel as [| fuel]; [discriminate |].
           cbn [RegGroup_from_buf] in Hp.
           inv_bind Hp as p1 Hp1. destruct p1 as [c1 buf2].
           rewrite (peek_pop buf buf2 c c1 Hc Hp1), Hpar in Hp.
           inv_bind Hp as p2 Hp2. destruct p2 as [exp buf3].
           inv_bind Hp as p3 Hp3. destruct p3 as [c3 buf4].
           destruct (negb (String.eqb c3 ")")); discriminate.
      * inv_bind H as p Hp. destruct p as [c' buf1].
        destruct c' as [e |]; [| discriminate].
        injection H as <- _. cbn [shaped].
        rewrite (RegChar_from_buf_shaped _ _ _ Hp). reflexivity.
    + intros buf buf' r H. cbn [RegGroup_from_buf] in H.
      inv_bind H as p1 Hp1. destruct p1 as [c1 buf1].
      destruct (String.eqb c1 "("); [| discriminate].
      inv_bind H as p2 Hp2. destruct p2 as [exp buf2].
      inv_bind H as p3 Hp3. destruct p3 as [c3 buf3].
      destruct (negb (String.eqb c3 ")")); [discriminate |].
      injection H as <- _. destruct exp as [e |]; [| reflexivity].
      cbn [shaped]. exact (HD _ _ _ Hp2).
Qed.

(** ** [to_nfa] on what the parser builds *)

Lemma concat_each_outcome (lv : level) (rest : list Reg) :
  Forall outcome_by_completeness rest ->
  forallb (shaped lv) rest = true ->
  forall nfa, fragment nfa ->
    (forallb complete rest = true ->
     exists n, concat_each rest nfa = Returns n) /\
    (forallb complete rest = false ->
     concat_each rest nfa = Raises AttributeError).
Proof.
  induction 1 as [| child rest Hchild _ IH]; intros Hall nfa Hnfa;
    cbn [forallb concat_each] in *.
  - split; [eexists; reflexivity | discriminate].
  - apply andb_true_iff in Hall. destruct Hall as [Hs Hall].
    destruct (Hchild lv Hs) as [Hret Hraise].
    destruct (complete child) eqn:Hc; cbn [andb].
    + destruct (Hret eq_refl) as [right Hright]. rewrite Hright; cbn [bind].
      assert (Hfr := to_nfa_fragment child right Hright).
      destruct (concat_well_numbered nfa right
                  (fragment_well_numbered nfa Hnfa)
                  (fragment_well_numbered right Hfr)) as [nfa' [Hnfa' _]].
      rewrite Hnfa'; cbn [bind].
      apply (IH Hall nfa').
      exact (fragment_concat nfa right nfa' Hnfa Hfr Hnfa').
    + rewrite (Hraise eq_refl). split; [discriminate | reflexivity].
Qed.

Lemma disjunct_each_outcome (lv : level) (rest : list Reg) :
  Forall outcome_by_completeness rest ->
  forallb (shaped lv) rest = true ->
  forall nfa, fragment nfa ->
    (forallb complete rest = true ->
     exists n, disjunct_each rest nfa = Returns n) /\
    (forallb complete rest = false ->
     disjunct_each rest nfa = Raises AttributeError).
Proof.
  induction 1 as [| child rest Hchild _ IH]; intros Hall nfa Hnfa;
    cbn [forallb disjunct_each] in *.
  - split; [eexists; reflexivity | discriminate].
  - apply andb_true_iff in Hall. destruct Hall as [Hs Hall].
    destruct (Hchild lv Hs) as [Hret Hraise].
    destruct (complete child) eqn:Hc; cbn [andb].
    + destruct (Hret eq_refl) as [right Hright]. rewrite Hright; cbn [bind].
      assert (Hfr := to_nfa_fragment child right Hright).
      destruct (disjunct_well_numbered nfa right
                  (fragment_well_numbered nfa Hnfa)
                  (fragment_well_numbered right Hfr)) as [nfa' [Hnfa' _]].
      rewrite Hnfa'; cbn [bind].
      apply (IH Hall nfa').
      exact (fragment_disjunct nfa right nfa' Hnfa Hfr Hnfa').
    + rewrite (Hraise eq_refl). split; [discriminate | reflexivity].
Qed.

Lemma to_nfa_outcome (r : Reg) : outcome_by_completeness r.
Proof.
  induction r as [c | | e IH | | e IH | e q IH | cs IH | cs IH]
    using Reg_nested_ind; intros lv Hs.
  - split; [eexists; reflexivity | discriminate].
  - split; [discriminate | reflexivity].
  - destruct lv; try discriminate. exact (IH LDisj Hs).
  - destruct lv; discriminate.
  - destruct lv; try discriminate. cbn [shaped] in Hs.
    apply orb_true_iff in Hs. destruct Hs as [Hs | Hs]; exact (IH _ Hs).
  - destruct lv; try discriminate. cbn [shaped] in Hs.
    apply andb_true_iff in Hs. destruct Hs as [He Hq].
    destruct (IH LUnity He) as [Hret Hraise].
    cbn [to_nfa complete]. split.
    + intros Hc. destruct (Hret Hc) as [child Hchild].
      rewrite Hchild; cbn [bind].
      assert (Hwn := fragment_well_numbered child
                       (to_nfa_fragment e child Hchild)).
      destruct (String.eqb q ""); [eexists; reflexivity |].
      destruct (zero_or_more_well_numbered child Hwn) as [rep [Hrep Hwr]].
      destruct (String.eqb q "*"); [exists rep; exact Hrep |].
      destruct (String.eqb q "+"); [| discriminate].
      rewrite Hrep; cbn [bind].
      destruct (concat_well_numbered child rep Hwn Hwr) as [n [Hn _]].
      exists n. exact Hn.
    + intros Hc. rewrite (Hraise Hc). reflexivity.
  - destruct lv; try discriminate. cbn [shaped] in Hs.
    apply andb_true_iff in Hs. destruct Hs as [Hne Hall].
    destruct cs as [| first rest]; [discriminate |].
    inversion IH as [| ? ? Hfirst Hrest]; subst.
    cbn [forallb] in Hall. apply andb_true_iff in Hall.
    destruct Hall as [Hs1 Hall].
    destruct (Hfirst LQuality Hs1) as [Hret Hraise].
    rewrite to_nfa_RegConcat. cbn [complete forallb].
    destruct (complete first) eqn:Hc; cbn [andb].
    + destruct (Hret eq_refl) as [nfa Hnfa]. rewrite Hnfa; cbn [bind].
      exact (concat_each_outcome LQuality rest Hrest Hall nfa
               (to_nfa_fragment first nfa Hnfa)).
    + rewrite (Hraise eq_refl). split; [discriminate | reflexivity].
  - destruct lv; try discriminate. cbn [shaped] in Hs.
    apply andb_true_iff in Hs. destruct Hs as [Hne Hall].
    destruct cs as [| first rest]; [discriminate |].
    inversion IH as [| ? ? Hfirst Hrest]; subst.
    cbn [forallb] in Hall. apply andb_true_iff in Hall.
    destruct Hall as [Hs1 Hall].
    destruct (Hfirst LConcat Hs1) as [Hret Hraise].
    rewrite to_nfa_RegDisj. cbn [complete forallb].
    destruct (complete first) eqn:Hc; cbn [andb].
    + destruct (Hret eq_refl) as [nfa Hnfa]. rewrite Hnfa; cbn [bind].
      exact (disjunct_each_outcome LConcat rest Hrest Hall nfa
               (to_nfa_fragment first nfa Hnfa)).
    + rewrite (Hraise eq_refl). split; [discriminate | reflexivity].
Qed.

(** Whatever [parse] returns as an expression has the shape of the
    grammar: a [RegDisj] of at least one [RegConcat], each of at least one
    [RegQuality], each a [RegUnity] with one of the qualifiers [''], ['*'],
    ['+'], holding one alphanumeric character or a group, and a group holds
    such a [RegDisj] or, for [()], [False]. *)
Theorem parse_builds_the_grammar (fuel : nat) (buf buf' : RegexString)
    (r : Reg) :
  parse fuel buf = Returns (Some r, buf') -> shaped LDisj r = true.
Proof.
  destruct (parser_shapes fuel) as [HD _]. apply HD.
Qed.

Lemma parse_builds_the_grammar_witness : shaped LDisj regex_a_star = true.
Proof.
  exact (parse_builds_the_grammar 10 (RegexString_init "a*")
           (mkRegexString "a*" 1) regex_a_star parse_a_star).
Defined.

(** On an expression [parse] returned, [to_nfa] returns a fragment of the
    algebra, unless the expression holds an empty group [()], in which
    case it raises [AttributeError]: it raises nothing else. *)
Theorem to_nfa_of_parsed (fuel : nat) (buf buf' : RegexString) (r : Reg) :
  parse fuel buf = Returns (Some r, buf') ->
  if complete r then exists n, to_nfa r = Returns n /\ fragment n
  else to_nfa r = Raises AttributeError.
Proof.
  intros H. destruct (parser_shapes fuel) as [HD _].
  destruct (to_nfa_outcome r LDisj (HD _ _ _ H)) as [Hret Hraise].
  destruct (complete r).
  - destruct (Hret eq_refl) as [n Hn]. exists n.
    split; [exact Hn | exact (to_nfa_fragment r n Hn)].
  - exact (Hraise eq_refl).
Qed.

Lemma to_nfa_of_parsed_witness :
  to_nfa (grouped_empty) = Raises AttributeError.
Proof.
  exact (to_nfa_of_parsed 10 (RegexString_init "()") (mkRegexString "()" 1)
           grouped_empty eq_refl).
Defined.

(** ** The parser terminates and stays inside the source *)

Lemma get_inside (src : string) (n : nat) :
  (n < String.length src)%nat -> exists c, String.get n src = Some c.
Proof.
  revert n. induction src as [| a src IH]; intros n Hn; simpl in Hn; [lia |].
  destruct n as [| n]; simpl; [eexists; reflexivity |].
  apply IH. lia.
Qed.

(** Reading at a position of the source: at the end [peek] and [pop] give
    the empty string and leave the cursor; before it they give the
    character there, and [pop] moves the cursor by one. *)
Lemma peek_pop_cases (src : string) (p : Z) :
  0 <= p <= len src ->
  (p = len src /\
   peek (mkRegexString src p) = Returns "" /\
   pop (mkRegexString src p) = Returns ("", mkRegexString src p)) \/
  (p < len src /\
   exists c,
     peek (mkRegexString src p) = Returns (String c "") /\
     pop (mkRegexString src p)
     = Returns (String c "", mkRegexString src (p + 1))).
Proof.
  intros Hp. destruct (Z.eq_dec p (len src)) as [E | E].
  - left. split; [exact E |]. unfold peek, pop, is_eof; cbn [s i].
    apply Z.eqb_eq in E. rewrite E. split; reflexivity.
  - right. split; [lia |].
    destruct (get_inside src (Z.to_nat p)) as [c Hc]; [unfold len in *; lia |].
    exists c. unfold peek, pop.
    rewrite (is_eof_inside src p) by lia. cbn [s i].
    rewrite (getitem_inside src p c) by (assumption || lia).
    split; reflexivity.
Qed.

Lemma RegDisj_from_buf_S (fuel : nat) (buf : RegexString) :
  RegDisj_from_buf (S fuel) buf
  = ('(exp, buf1) <- RegConcat_from_buf fuel buf ;;
     RegDisj_loop fuel [] exp buf1).
Proof. reflexivity. Qed.

Lemma RegDisj_loop_None (fuel : nat) (exps : list Reg) (buf : RegexString) :
  RegDisj_loop fuel exps None buf = Returns (cls_if_any RegDisj exps, buf).
Proof. destruct fuel; reflexivity. Qed.

Lemma RegDisj_loop_S (fuel : nat) (exps : list Reg) (e : Reg)
    (buf : RegexString) :
  RegDisj_loop (S fuel) exps (Some e) buf
  = (c <- peek buf ;;
     if String.eqb c "|" then
       '(_, buf1) <- pop buf ;;
       '(exp', buf2) <- RegConcat_from_buf fuel buf1 ;;
       RegDisj_loop fuel (exps ++ [e]) exp' buf2
     else Returns (cls_if_any RegDisj (exps ++ [e]), buf)).
Proof. reflexivity. Qed.

Lemma RegConcat_from_buf_S (fuel : nat) (buf : RegexString) :
  RegConcat_from_buf (S fuel) buf
  = ('(exp, buf1) <- RegQuality_from_buf fuel buf ;;
     RegConcat_loop fuel [] exp buf1).
Proof. reflexivity. Qed.

Lemma RegConcat_loop_None (fuel : nat) (exps : list Reg) (buf : RegexString) :
  RegConcat_loop fuel exps None buf = Returns (cls_if_any RegConcat exps, buf).
Proof. destruct fuel; reflexivity. Qed.

Lemma RegConcat_loop_S (fuel : nat) (exps : list Reg) (e : Reg)
    (buf : RegexString) :
  RegConcat_loop (S fuel) exps (Some e) buf
  = ('(exp', buf1) <- RegQuality_from_buf fuel buf ;;
     RegConcat_loop fuel (exps ++ [e]) exp' buf1).
Proof. reflexivity. Qed.

Lemma RegQuality_from_buf_S (fuel : nat) (buf : RegexString) :
  RegQuality_from_buf (S fuel) buf
  = ('(exp, buf1) <- RegUnity_from_buf fuel buf ;;
     match exp with
     | None => Returns (None, buf1)
     | Some e =>
         c <- peek buf1 ;;
         if String.eqb c "*" || String.eqb c "+" then
           '(qualifier, buf2) <- pop buf1 ;;
           Returns (Some (RegQuality e qualifier), buf2)
         else Returns (Some (RegQuality e ""), buf1)
     end).
Proof. reflexivity. Qed.

Lemma RegUnity_from_buf_S (fuel : nat) (buf : RegexString) :
  RegUnity_from_buf (S fuel) buf
  = (c <- peek buf ;;
     if String.eqb c "(" then
       '(g, buf1) <- RegGroup_from_buf fuel buf ;;
       Returns (Some (RegUnity g), buf1)
     else
       '(c', buf1) <- RegChar_from_buf buf ;;
       match c' with
       | Some _ => Returns (Some (RegUnity c'), buf1)
       | None => Returns (None, buf1)
       end).
Proof. reflexivity. Qed.

Lemma RegGroup_from_buf_S (fuel : nat) (buf : RegexString) :
  RegGroup_from_buf (S fuel) buf
  = ('(c, buf1) <- pop buf ;;
     if String.eqb c "(" then
       '(exp, buf2) <- RegDisj_from_buf fuel buf1 ;;
       '(c', buf3) <- pop buf2 ;;
       if negb (String.eqb c' ")") then
         Raises (ValueError "no closing ) for group")
       else Returns (Some (RegGroup exp), buf3)
     else Returns (None, push_back buf1)).
Proof. reflexivity. Qed.

Lemma cls_if_any_snoc (cls : list Reg -> Reg) (exps : list Reg) (e : Reg) :
  cls_if_any cls (exps ++ [e]) = Some (cls (exps ++ [e])).
Proof. destruct exps; reflexivity. Qed.

(** [RegChar.from_buf] at a position of the source. *)
Lemma RegChar_from_buf_lands (src : string) (p : Z) :
  0 <= p <= len src ->
  lands src p (p + 1) (RegChar_from_buf (mkRegexString src p)).
Proof.
  intros Hp. unfold RegChar_from_buf.
  destruct (peek_pop_cases src p Hp) as [[E [_ Hpop]] | [E [c [_ Hpop]]]];
    rewrite Hpop; cbn [bind].
  - cbn [isalnum lands]. unfold no_match_at, push_back; cbn [s i].
    split; [reflexivity | right; lia].
  - destruct (isalnum (String c "")); cbn [lands].
    + cbn [s i]. split; [reflexivity | lia].
    + unfold no_match_at, push_back; cbn [s i].
      split; [reflexivity | left; lia].
Qed.

Lemma safe_zero (src : string) : safe src 0.
Proof.
  unfold safe. repeat split; intros; exfalso; lia.
Qed.

Lemma safe_succ (src : string) (fuel : nat) : safe src fuel -> safe src (S fuel).
Proof.
  intros [HD [HDL [HC [HCL [HQ [HU HG]]]]]].
  assert (HG' : forall p, 0 <= p <= len src ->
            peek (mkRegexString src p) = Returns "(" ->
            5 * (len src - p) + 1 <= Z.of_nat (S fuel) ->
            continues src (p + 1)
              (RegGroup_from_buf (S fuel) (mkRegexString src p))).
  { intros p Hp Hpeek Hreq. rewrite RegGroup_from_buf_S.
    destruct (peek_pop_cases src p Hp)
      as [[E [Hpk Hpop]] | [E [c [Hpk Hpop]]]];
      rewrite Hpk in Hpeek; [discriminate |].
    injection Hpeek as Hc. rewrite Hpop; cbn [bind]. rewrite Hc.
    cbn [String.eqb Ascii.eqb Bool.eqb andb].
    assert (Hin : 0 <= p + 1 <= len src) by lia.
    generalize (HD (p + 1) Hin).
    destruct (RegDisj_from_buf fuel (mkRegexString src (p + 1)))
      as [[exp [s2 q]] | e |]; cbn [bind lands]; intros H.
    - assert (Hq : s2 = src /\ p <= q <= len src).
      { assert (Hf : 5 * (len src - (p + 1)) + 5 <= Z.of_nat fuel) by lia.
        specialize (H Hf). destruct exp as [e |].
        - cbn [s i] in H. split; [apply H | lia].
        - destruct H as [Hs Hi]; cbn [s i] in *. split; [exact Hs | lia]. }
      destruct Hq as [-> Hq].
      destruct (peek_pop_cases src q) as [[Eq [_ Hpop2]] | [Eq [c2 [_ Hpop2]]]];
        [lia | |]; rewrite Hpop2; cbn [bind].
      + reflexivity.
      + destruct (String.eqb (String c2 "") ")"); cbn [negb continues].
        * cbn [s i]. split; [reflexivity | lia].
        * reflexivity.
    - apply H. lia.
    - apply H. lia. }
  assert (HU' : forall p, 0 <= p <= len src ->
            5 * (len src - p) + 2 <= Z.of_nat (S fuel) ->
            lands src p (p + 1)
              (RegUnity_from_buf (S fuel) (mkRegexString src p))).
  { intros p Hp Hreq. rewrite RegUnity_from_buf_S.
    assert (Hchar := RegChar_from_buf_lands src p Hp).
    destruct (peek (mkRegexString src p)) as [c | e |] eqn:Hpk.
    2, 3: destruct (peek_pop_cases src p Hp)
        as [[_ [Hpk' _]] | [_ [c [Hpk' _]]]]; congruence.
    cbn [bind]. destruct (String.eqb_spec c "(") as [-> | Hne].
    - generalize (HG p Hp Hpk).
      destruct (RegGroup_from_buf fuel (mkRegexString src p))
        as [[g b1] | e |]; cbn [bind lands continues]; intros H.
      + assert (Hf : 5 * (len src - p) + 1 <= Z.of_nat fuel) by lia.
        specialize (H Hf). destruct g as [g |]; [exact H | destruct H].
      + apply H. lia.
      + apply H. lia.
    - destruct (RegChar_from_buf (mkRegexString src p))
        as [[c' b1] | e |]; cbn [bind lands] in *; [| exact Hchar..].
      destruct c' as [r |]; exact Hchar. }
  assert (HQ' : forall p, 0 <= p <= len src ->
            5 * (len src - p) + 3 <= Z.of_nat (S fuel) ->
            lands src p (p + 1)
              (RegQuality_from_buf (S fuel) (mkRegexString src p))).
  { intros p Hp Hreq. rewrite RegQuality_from_buf_S.
    generalize (HU p Hp).
    destruct (RegUnity_from_buf fuel (mkRegexString src p))
      as [[exp [s1 q]] | e |]; cbn [bind lands]; intros H.
    - assert (Hf : 5 * (len src - p) + 2 <= Z.of_nat fuel) by lia.
      specialize (H Hf). destruct exp as [e |]; [| exact H].
      cbn [s i] in H. destruct H as [-> Hq].
      destruct (peek_pop_cases src q) as [[Eq [Hpk _]] | [Eq [c [Hpk Hpop]]]];
        [lia | |]; rewrite Hpk; cbn [bind].
      + cbn [String.eqb orb lands s i]. split; [reflexivity | lia].
      + destruct (String.eqb (String c "") "*" || String.eqb (String c "") "+").
        * rewrite Hpop; cbn [bind lands s i]. split; [reflexivity | lia].
        * cbn [lands s i]. split; [reflexivity | lia].
    - apply H. lia.
    - apply H. lia. }
  assert (HCL' : forall exps e q, 0 <= q <= len src ->
            5 * (len src - q) + 4 <= Z.of_nat (S fuel) ->
            continues src (q - 1)
              (RegConcat_loop (S fuel) exps (Some e) (mkRegexString src q))).
  { intros exps e q Hq Hreq. rewrite RegConcat_loop_S.
    generalize (HQ q Hq).
    destruct (RegQuality_from_buf fuel (mkRegexString src q))
      as [[exp' [s1 q']] | e' |]; cbn [bind lands]; intros H.
    - assert (Hf : 5 * (len src - q) + 3 <= Z.of_nat fuel) by lia.
      specialize (H Hf). destruct exp' as [e' |].
      + cbn [s i] in H. destruct H as [-> Hq'].
        assert (Hin : 0 <= q' <= len src) by lia.
        assert (Hf' : 5 * (len src - q') + 4 <= Z.of_nat fuel) by lia.
        generalize (HCL (exps ++ [e]) e' q' Hin Hf').
        destruct (RegConcat_loop fuel (exps ++ [e]) (Some e')
                    (mkRegexString src q')) as [[[r |] b] | e2 |];
          cbn [continues]; auto.
        intros [Hs Hi]. split; [exact Hs | lia].
      + rewrite RegConcat_loop_None, cls_if_any_snoc. cbn [continues].
        destruct H as [Hs Hi]; cbn [s i] in *. split; [exact Hs | lia].
    - apply H. lia.
    - apply H. lia. }
  assert (HC' : forall p, 0 <= p <= len src ->
            5 * (len src - p) + 4 <= Z.of_nat (S fuel) ->
            lands src p p
              (RegConcat_from_buf (S fuel) (mkRegexString src p))).
  { intros p Hp Hreq. rewrite RegConcat_from_buf_S.
    generalize (HQ p Hp).
    destruct (RegQuality_from_buf fuel (mkRegexString src p))
      as [[exp [s1 q]] | e |]; cbn [bind lands]; intros H.
    - assert (Hf : 5 * (len src - p) + 3 <= Z.of_nat fuel) by lia.
      specialize (H Hf). destruct exp as [e |].
      + cbn [s i] in H. destruct H as [-> Hq].
        assert (Hin : 0 <= q <= len src) by lia.
        assert (Hf' : 5 * (len src - q) + 4 <= Z.of_nat fuel) by lia.
        generalize (HCL [] e q Hin Hf').
        destruct (RegConcat_loop fuel [] (Some e) (mkRegexString src q))
          as [[[r |] b] | e2 |]; cbn [continues lands]; auto.
        * intros [Hs Hi]. split; [exact Hs | lia].
        * intros [].
      + rewrite RegConcat_loop_None. cbn [cls_if_any lands]. exact H.
    - apply H. lia.
    - apply H. lia. }
  assert (HDL' : forall exps e q, 0 <= q <= len src ->
            5 * (len src - q) + 4 <= Z.of_nat (S fuel) ->
            continues src q
              (RegDisj_loop (S fuel) exps (Some e) (mkRegexString src q))).
  { intros exps e q Hq Hreq. rewrite RegDisj_loop_S.
    destruct (peek_pop_cases src q Hq) as [[Eq [Hpk _]] | [Eq [c [Hpk Hpop]]]];
      rewrite Hpk; cbn [bind].
    - cbn [String.eqb]. rewrite cls_if_any_snoc. cbn [continues s i].
      split; [reflexivity | lia].
    - destruct (String.eqb (String c "") "|").
      + rewrite Hpop; cbn [bind].
        assert (Hin : 0 <= q + 1 <= len src) by lia.
        generalize (HC (q + 1) Hin).
        destruct (RegConcat_from_buf fuel (mkRegexString src (q + 1)))
          as [[exp' [s2 q']] | e' |]; cbn [bind lands]; intros H.
        * assert (Hf : 5 * (len src - (q + 1)) + 4 <= Z.of_nat fuel) by lia.
          specialize (H Hf). destruct exp' as [e' |].
          -- cbn [s i] in H. destruct H as [-> Hq'].
             assert (Hin' : 0 <= q' <= len src) by lia.
             assert (Hf' : 5 * (len src - q') + 4 <= Z.of_nat fuel) by lia.
             generalize (HDL (exps ++ [e]) e' q' Hin' Hf').
             destruct (RegDisj_loop fuel (exps ++ [e]) (Some e')
                         (mkRegexString src q')) as [[[r |] b] | e2 |];
               cbn [continues]; auto.
             intros [Hs Hi]. split; [exact Hs | lia].
          -- rewrite RegDisj_loop_None, cls_if_any_snoc. cbn [continues].
             destruct H as [Hs Hi]; cbn [s i] in *. split; [exact Hs | lia].
        * apply H. lia.
        * apply H. lia.
      + rewrite cls_if_any_snoc. cbn [continues s i].
        split; [reflexivity | lia]. }
  assert (HD' : forall p, 0 <= p <= len src ->
            5 * (len src - p) + 5 <= Z.of_nat (S fuel) ->
            lands src p p
              (RegDisj_from_buf (S fuel) (mkRegexString src p))).
  { intros p Hp Hreq. rewrite RegDisj_from_buf_S.
    generalize (HC p Hp).
    destruct (RegConcat_from_buf fuel (mkRegexString src p))
      as [[exp [s1 q]] | e |]; cbn [bind lands]; intros H.
    - assert (Hf : 5 * (len src - p) + 4 <= Z.of_nat fuel) by lia.
      specialize (H Hf). destruct exp as [e |].
      + cbn [s i] in H. destruct H as [-> Hq].
        assert (Hin : 0 <= q <= len src) by lia.
        assert (Hf' : 5 * (len src - q) + 4 <= Z.of_nat fuel) by lia.
        generalize (HDL [] e q Hin Hf').
        destruct (RegDisj_loop fuel [] (Some e) (mkRegexString src q))
          as [[[r |] b] | e2 |]; cbn [continues lands]; auto.
        * intros [Hs Hi]. split; [exact Hs | lia].
        * intros [].
      + rewrite RegDisj_loop_None. cbn [cls_if_any lands]. exact H.
    - apply H. lia.
    - apply H. lia. }
  unfold safe. repeat split; assumption.
Qed.

Lemma parser_safe (src : string) (fuel : nat) : safe src fuel.
Proof.
  induction fuel as [| fuel IH]; [apply safe_zero | apply safe_succ, IH].
Qed.

(** [parse] terminates on every source, with five units of fuel for each
    character and five more: it returns an expression and a cursor inside
    the source, or [False] with the cursor at 0 (at -1 for the empty
    source), or raises the [ValueError] of an unclosed group.  It never
    raises [IndexError]. *)
Theorem parse_terminates_within_source (src : string) (fuel : nat) :
  5 * len src + 5 <= Z.of_nat fuel ->
  (exists r b,
     parse fuel (RegexString_init src) = Returns (Some r, b) /\
     s b = src /\ 0 <= i b <= len src) \/
  (exists b,
     parse fuel (RegexString_init src) = Returns (None, b) /\
     s b = src /\ (i b = 0 \/ (src = "" /\ i b = -1))) \/
  parse fuel (RegexString_init src)
  = Raises (ValueError "no closing ) for group").
Proof.
  intros Hfuel. destruct (parser_safe src fuel) as [HD _].
  assert (Hlen : 0 <= len src) by (unfold len; lia).
  assert (Hp : 0 <= 0 <= len src) by lia.
  assert (Hf : 5 * (len src - 0) + 5 <= Z.of_nat fuel) by lia.
  generalize (HD 0 Hp Hf). unfold parse, RegexString_init.
  destruct (RegDisj_from_buf fuel (mkRegexString src 0))
    as [[[r |] b] | e |]; cbn [lands].
  - intros H. left. exists r, b. auto.
  - intros [Hs [[_ Hi] | [Hl Hi]]]; right; left; exists b.
    + auto.
    + split; [reflexivity |]. split; [exact Hs |]. right.
      split; [| lia]. destruct src; [reflexivity |].
      unfold len in Hl; simpl in Hl; lia.
  - intros ->. right; right. reflexivity.
  - intros [].
Qed.

Lemma parse_terminates_within_source_witness :
  (exists r b,
     parse 15 (RegexString_init "a*") = Returns (Some r, b) /\
     s b = "a*" /\ 0 <= i b <= len "a*") \/
  (exists b,
     parse 15 (RegexString_init "a*") = Returns (None, b) /\
     s b = "a*" /\ (i b = 0 \/ ("a*" = "" /\ i b = -1))) \/
  parse 15 (RegexString_init "a*")
  = Raises (ValueError "no closing ) for group").
Proof.
  apply (parse_terminates_within_source "a*" 15). vm_compute. discriminate.
Defined.

(** ** From the expression to the DFA *)

(** The DFA built from the NFA of an expression reads every word the
    expression matches, to a state that is an accept state unless it is
    state 0; and for a guarded expression every word the DFA accepts is
    matched by the expression. *)
Theorem regex_to_dfa_language (order : SetOrder) (r : Reg) (n : NFA)
    (fuel : nat) (dfa : DFA) :
  to_nfa r = Returns n -> @to_dfa order n fuel = Returns dfa ->
  (forall w,
     lang r w ->
     exists q, dfa_reads (transitions dfa) w q /\
               (q <> 0 -> In q (term dfa))) /\
  (guarded r = true ->
   forall w q,
     dfa_reads (transitions dfa) w q -> In q (term dfa) -> lang r w).
Proof.
  intros Hn Hd.
  destruct (to_nfa_denotes r n Hn) as [_ [_ [Hsound Hexact]]].
  destruct (to_dfa_language_sides order n fuel dfa Hd) as [H1 H2].
  split.
  - intros w Hw. apply H2. apply nfa_reads_path. exact (Hsound w Hw).
  - intros Hg w q Hrun Hq. apply (Hexact Hg).
    apply (proj1 (nfa_reads_path n w (term n))). exact (H1 w q Hrun Hq).
Qed.

Lemma regex_to_dfa_language_witness :
  (forall w,
     lang regex_a_star w ->
     exists q,
       dfa_reads [mkTransition "a" 0 1; mkTransition "a" 1 1] w q /\
       (q <> 0 -> In q [1])) /\
  (guarded regex_a_star = true ->
   forall w q,
     dfa_reads [mkTransition "a" 0 1; mkTransition "a" 1 1] w q ->
     In q [1] -> lang regex_a_star w).
Proof.
  apply (regex_to_dfa_language ascending regex_a_star nfa_a_star 10
           (mkFA [mkTransition "a" 0 1; mkTransition "a" 1 1] 0 [1])
           to_nfa_a_star).
  unfold to_dfa. rewrite (to_dfa_build_a_star ascending). reflexivity.
Defined.

(** ** The operations on an automaton without transitions *)

(** [concat] and [disjunct] return exactly when the automaton they are
    called on has a transition: on one without, [max] and [min] of an empty
    sequence raise.  [zero_or_more] always returns: it adds its two
    transitions first. *)
Theorem operations_and_the_empty_automaton (self right : NFA) :
  ((exists n, concat self right = Returns n) <-> transitions self <> []) /\
  ((exists n, disjunct self right = Returns n) <-> transitions self <> []) /\
  (exists n, zero_or_more self = Returns n).
Proof.
  split; [| split].
  - unfold concat, max_node, py_max.
    destruct (transitions self) as [| t ts]; cbn [map bind].
    + split; [intros [n H]; discriminate | intros H; destruct H; reflexivity].
    + split; [discriminate | intros _; eexists; reflexivity].
  - unfold disjunct, prepend_new_start, min_node, py_min.
    destruct (transitions self) as [| t ts] eqn:E; cbn [map bind].
    + split; [intros [n H]; discriminate | intros H; destruct H; reflexivity].
    + split; [discriminate | intros _].
      unfold append_new_term, max_node, py_max, add_offset.
      cbn [transitions]. rewrite E. cbn [map app bind].
      eexists; reflexivity.
  - unfold zero_or_more, append_new_term, max_node, py_max.
    cbn [transitions].
    destruct (transitions self) as [| t ts]; cbn [map app bind];
      eexists; reflexivity.
Qed.

(** ** The cursor methods *)

(** Inside the source and at its end the cursor methods raise nothing:
    [pop] returns what [peek] returns; before the end it moves the cursor
    by one, and [push_back] moves it back; at the end it returns the empty
    string and leaves the cursor, so that [push_back] moves it before the
    end. *)
Theorem pop_then_push_back (src : string) (p : Z) :
  0 <= p <= len src ->
  exists c b,
    peek (mkRegexString src p) = Returns c /\
    pop (mkRegexString src p) = Returns (c, b) /\
    (p < len src ->
     String.length c = 1%nat /\ b = mkRegexString src (p + 1) /\
     push_back b = mkRegexString src p) /\
    (p = len src ->
     c = "" /\ b = mkRegexString src p /\
     push_back b = mkRegexString src (p - 1)).
Proof.
  intros Hp.
  destruct (peek_pop_cases src p Hp) as [[E [Hpk Hpop]] | [E [c [Hpk Hpop]]]].
  - exists "", (mkRegexString src p). split; [exact Hpk |].
    split; [exact Hpop |]. split; [lia |]. intros _.
    split; [reflexivity |]. split; reflexivity.
  - exists (String c ""), (mkRegexString src (p + 1)). split; [exact Hpk |].
    split; [exact Hpop |]. split; [| lia]. intros _.
    split; [reflexivity |]. split; [reflexivity |].
    unfold push_back; cbn [s i]. f_equal. lia.
Qed.

Lemma pop_then_push_back_witness :
  exists c b,
    peek (mkRegexString "ab" 1) = Returns c /\
    pop (mkRegexString "ab" 1) = Returns (c, b) /\
    (1 < len "ab" ->
     String.length c = 1%nat /\ b = mkRegexString "ab" (1 + 1) /\
     push_back b = mkRegexString "ab" 1) /\
    (1 = len "ab" ->
     c = "" /\ b = mkRegexString "ab" 1 /\
     push_back b = mkRegexString "ab" (1 - 1)).
Proof.
  apply (pop_then_push_back "ab" 1). vm_compute. split; discriminate.
Defined.

(** [pop_if] inside the source and at its end: it returns whether the
    character at the cursor is the one asked for, and moves the cursor by
    one exactly when it is and the cursor is before the end; asked for the
    empty string at the end, it returns [True] and does not move. *)
Theorem pop_if_within_source (src : string) (p : Z) (c : string) :
  0 <= p <= len src ->
  exists ch,
    peek (mkRegexString src p) = Returns ch /\
    pop_if (mkRegexString src p) c
    = Returns (String.eqb ch c,
               mkRegexString src
                 (if String.eqb ch c && (p <? len src) then p + 1 else p)).
Proof.
  intros Hp. unfold pop_if.
  destruct (peek_pop_cases src p Hp) as [[E [Hpk Hpop]] | [E [a [Hpk Hpop]]]];
    rewrite Hpk; cbn [bind]; eexists; (split; [reflexivity |]).
  - replace (p <? len src) with false by (symmetry; apply Z.ltb_ge; lia).
    rewrite andb_false_r.
    destruct (String.eqb "" c); [rewrite Hpop |]; reflexivity.
  - replace (p <? len src) with true by (symmetry; apply Z.ltb_lt; lia).
    rewrite andb_true_r.
    destruct (String.eqb (String a "") c); [rewrite Hpop |]; reflexivity.
Qed.

Lemma pop_if_within_source_witness :
  exists ch,
    peek (mkRegexString "a|b" 1) = Returns ch /\
    pop_if (mkRegexString "a|b" 1) "|"
    = Returns (String.eqb ch "|",
               mkRegexString "a|b"
                 (if String.eqb ch "|" && (1 <? len "a|b") then 1 + 1 else 1)).
Proof.
  apply (pop_if_within_source "a|b" 1 "|"). vm_compute. split; discriminate.
Defined.

(** ** The moves of a set of states *)

Lemma insert_by_Sorted {A : Type} (leb : A -> A -> bool) (x : A) (l : list A) :
  (forall a b, leb a b = true \/ leb b a = true) ->
  Sorted (fun a b => leb a b = true) l ->
  Sorted (fun a b => leb a b = true) (insert_by leb x l).
Proof.
  intros Htotal. induction 1 as [| y l Hl IH Hhd]; simpl.
  - constructor; constructor.
  - destruct (leb x y) eqn:E.
    + constructor; [constructor; assumption | constructor; exact E].
    + constructor; [exact IH |].
      assert (Hyx : leb y x = true)
        by (destruct (Htotal x y) as [H | H]; congruence).
      destruct l as [| z l]; simpl.
      * constructor. exact Hyx.
      * destruct (leb x z); constructor; [exact Hyx |].
        inversion Hhd; assumption.
Qed.

Lemma sorted_by_Sorted {A : Type} (leb : A -> A -> bool) (l : list A) :
  (forall a b, leb a b = true \/ leb b a = true) ->
  Sorted (fun a b => leb a b = true) (sorted_by leb l).
Proof.
  intros Htotal. induction l as [| x l IH]; simpl.
  - constructor.
  - apply insert_by_Sorted; assumption.
Qed.

(** [move_on] returns the destinations of the transitions on the label
    that leave the states, in ascending order and as often as there are
    such transitions; [get_moves_for_nodes] returns the labels of the
    transitions that leave the states, in ascending order and once each;
    both read the transitions [transitions_from] selects. *)
Theorem moves_are_sorted (self : NFA) (nodes_ : list Z) (a : string) :
  Sorted (fun x y => (x <=? y) = true) (move_on self nodes_ a) /\
  Permutation (move_on self nodes_ a)
    (map dest (filter (fun t => String.eqb (on t) a)
                 (transitions_from self nodes_))) /\
  Sorted (fun x y => String.leb x y = true) (get_moves_for_nodes self nodes_) /\
  NoDup (get_moves_for_nodes self nodes_) /\
  (forall b, In b (get_moves_for_nodes self nodes_) <->
             In b (map on (transitions_from self nodes_))).
Proof.
  split; [| split; [| split; [| split]]].
  - apply sorted_by_Sorted. intros x y.
    destruct (Z.leb_spec x y); [left; reflexivity | right].
    apply Z.leb_le. lia.
  - unfold move_on, sorted, transitions_from.
    eapply Permutation_trans; [apply sorted_by_Permutation |].
    apply Permutation_map.
    assert (E : forall l : list Transition,
              filter (fun t => String.eqb (on t) a && contains nodes_ (source t)) l
              = filter (fun t => String.eqb (on t) a)
                  (filter (fun t => contains nodes_ (source t)) l)).
    { induction l as [| t l IH]; [reflexivity |]. simpl.
      destruct (contains nodes_ (source t)); simpl;
        destruct (String.eqb (on t) a); simpl; rewrite IH; reflexivity. }
    rewrite E. apply Permutation_refl.
  - apply sorted_by_Sorted, String.leb_total.
  - apply get_moves_for_nodes_NoDup.
  - intros b. unfold get_moves_for_nodes, transitions_from.
    split; intros H.
    + apply (Permutation_in _ (sorted_by_Permutation String.leb _)) in H.
      apply nodup_In in H. exact H.
    + apply (Permutation_in _ (Permutation_sym
                                 (sorted_by_Permutation String.leb _))).
      apply nodup_In. exact H.
Qed.
